(** * Channel pruning of a QONNX graph: masks, propagation and removal

    A shallow embedding of [src/qonnx/transformation/pruning.py]:
    the helpers [ensure_masktype_is_set], [remove_masked_tensor_channels]
    and [update_node_mask], and the [apply] methods of the four
    transformations [ApplyMasks], [PropagateMasks],
    [RemoveMaskedChannels] and [PruneChannels].

    Python values are embedded as follows.
    - A sparsity mask is whatever object was stored for a tensor: [None],
      a [set], a [list] or a [dict] ([mask_val]).  Mask entries are ints
      or strings ([elem]).
    - Exceptions are values of [exn]; a call that may raise returns a
      [Result].
    - The model object is mutated in place, so the three passes run in a
      state-and-exception monad [M] over [ModelWrapper]: when a pass
      raises, the state holds what had been written until then.
    - [numpy] arrays are a shape with row-major data. *)

From Stdlib Require Import ZArith Ascii Decimal DecimalString DecimalZ.
From stdpp Require Import gmap strings list fin_maps sets.

Local Open Scope string_scope.
Local Open Scope list_scope.
Local Open Scope Z_scope.
#[local] Set Warnings "-clear-no-such-hyp".

(** ** Python strings: the methods the pass uses *)

Module PyStr.

(** [x.startswith(p)]. *)
Definition startswith (x p : string) : bool := String.prefix p x.

(** [x.replace(c, "")] for a one-character [c]: every occurrence goes. *)
Fixpoint replace_del (c : ascii) (x : string) : string :=
  match x with
  | EmptyString => EmptyString
  | String a r =>
      if Ascii.eqb a c then replace_del c r else String a (replace_del c r)
  end.

(** ASCII characters that [str.isspace] accepts; [int] strips them. *)
Definition is_space (a : ascii) : bool :=
  let n := nat_of_ascii a in
  ((9 <=? n)%nat && (n <=? 13)%nat) || ((28 <=? n)%nat && (n <=? 32)%nat).

Definition is_digit (a : ascii) : bool :=
  let n := nat_of_ascii a in (48 <=? n)%nat && (n <=? 57)%nat.

Fixpoint lstrip (x : string) : string :=
  match x with
  | EmptyString => EmptyString
  | String a r => if is_space a then lstrip r else x
  end.

Fixpoint rstrip (x : string) : string :=
  match x with
  | EmptyString => EmptyString
  | String a r =>
      match rstrip r with
      | EmptyString => if is_space a then EmptyString else String a EmptyString
      | r' => String a r'
      end
  end.

(** The digit part of an integer literal: digits, with single
    underscores allowed between two digits.  [prev] tells whether the
    previous character was a digit.  The underscores are dropped. *)
Fixpoint digit_run (prev : bool) (x : string) : option string :=
  match x with
  | EmptyString => if prev then Some EmptyString else None
  | String a r =>
      if Ascii.eqb a "_" then
        if prev then digit_run false r else None
      else if is_digit a then String a <$> digit_run true r
      else None
  end.

(** The optional sign in front of the digits. *)
Definition split_sign (body : string) : bool * string :=
  match body with
  | String a r =>
      if Ascii.eqb a "-" then (true, r)
      else if Ascii.eqb a "+" then (false, r)
      else (false, body)
  | EmptyString => (false, body)
  end.

(** [int(x)] for an ASCII string, base 10: [None] stands for the
    [ValueError]. *)
Definition int (x : string) : option Z :=
  let '(neg, rest) := split_sign (rstrip (lstrip x)) in
  ds ← digit_run false rest;
  u ← NilEmpty.uint_of_string ds;
  Some (Z.of_int (if neg : bool then Decimal.Neg u else Decimal.Pos u)).

(** ["%d" % z]. *)
Definition fmt_d (z : Z) : string := NilZero.string_of_int (Z.to_int z).

(** [str(l)] for a list of names, as the assertion messages print it. *)
Definition repr_names (l : list string) : string :=
  "[" +:+ String.concat ", " (map (fun n => "'" +:+ n +:+ "'") l) +:+ "]".

(** Strings made of decimal digits only. *)
Fixpoint digits_only (x : string) : bool :=
  match x with
  | EmptyString => true
  | String a r => is_digit a && digits_only r
  end.

(** The characters of a printed number: digits and the sign. *)
Fixpoint numeric_only (x : string) : bool :=
  match x with
  | EmptyString => true
  | String a r => (is_digit a || Ascii.eqb a "-") && numeric_only r
  end.

(** A side letter: not a digit and not the sign. *)
Definition side_letter (p : ascii) : Prop :=
  is_digit p = false /\ p <> "-"%char.

End PyStr.

(** ** Mask entries and mask objects *)

(** An entry of a mask: a channel index, or a prefixed string
    ["iX"] / ["oX"] on a weight tensor. *)
Inductive elem :=
  | EInt (z : Z)
  | EStr (s : string).

#[global] Instance elem_eq_dec : EqDecision elem.
Proof. solve_decision. Defined.

Definition elem_to_sum (e : elem) : Z + string :=
  match e with EInt z => inl z | EStr s => inr s end.

Definition elem_of_sum (x : Z + string) : elem :=
  match x with inl z => EInt z | inr s => EStr s end.

#[global] Program Instance elem_countable : Countable elem :=
  inj_countable' elem_to_sum elem_of_sum _.
Next Obligation. by intros []. Qed.

(** The object stored as a tensor's sparsity annotation. A dict is kept
    by its keys, in insertion order: the pass only iterates over it and
    compares it with the empty dict. *)
Inductive mask_val :=
  | MNone
  | MSet (s : gset elem)
  | MList (l : list elem)
  | MDict (keys : list elem).

#[global] Instance mask_val_eq_dec : EqDecision mask_val.
Proof. solve_decision. Defined.

(** The order in which a Python [set] is iterated is not fixed by the
    language; it is some enumeration of the members. *)
Class PySetOrder := {
  set_iter : gset elem -> list elem;
  set_iter_perm : forall s, set_iter s ≡ₚ elements s
}.

(** One such order, used to run the definitions on examples. *)
Definition canonical_order : PySetOrder :=
  {| set_iter := elements; set_iter_perm := fun s => reflexivity _ |}.

(** ** Exceptions *)

Inductive exn :=
  | AssertionError (msg : string)
  | CannotTurnIntoSet (mask : mask_val)   (* Exception("Cannot turn %s into set") *)
  | TypeError
  | ValueError
  | AttributeError
  | IndexError
  | AxisError.

Inductive Result (A : Type) :=
  | Ok (a : A)
  | Raise (e : exn).
Arguments Ok {A} a.
Arguments Raise {A} e.

#[global] Instance Result_ret : MRet Result := fun _ a => Ok a.

#[global] Instance Result_bind : MBind Result := fun _ _ k r =>
  match r with Ok a => k a | Raise e => Raise e end.

#[global] Instance Result_fmap : FMap Result := fun _ _ f r =>
  match r with Ok a => Ok (f a) | Raise e => Raise e end.

(** A comprehension whose body may raise. *)
Fixpoint rmap {A B} (f : A -> Result B) (l : list A) : Result (list B) :=
  match l with
  | [] => Ok []
  | x :: r => y ← f x; ys ← rmap f r; Ok (y :: ys)
  end.

Definition of_option {A} (o : option A) (e : exn) : Result A :=
  match o with Some a => Ok a | None => Raise e end.

Definition py_assert (b : bool) (msg : string) : Result unit :=
  if b then Ok tt else Raise (AssertionError msg).

Definition is_ok {A} (r : Result A) : bool :=
  match r with Ok _ => true | Raise _ => false end.

(** ** numpy arrays *)

(** An [ndarray]: its shape and its entries in row-major order.  The
    pass moves and deletes entries and never computes with them. *)
Record ndarray := mk_ndarray {
  shape : list nat;
  data : list Z
}.

#[global] Instance ndarray_eq_dec : EqDecision ndarray.
Proof. solve_decision. Defined.

Module Np.

Definition ndim (a : ndarray) : nat := length (shape a).

(** [np.prod(shape)]. *)
Definition prod (s : list nat) : nat := foldr Nat.mul 1%nat s.

(** One index of a deletion along an axis of extent [n]: negative
    indices count from the end, anything outside [-n, n) and anything
    that is not an integer is refused. *)
Definition norm_index (n : nat) (e : elem) : Result nat :=
  match e with
  | EInt z =>
      if bool_decide (- Z.of_nat n <= z < Z.of_nat n)
      then Ok (Z.to_nat (if bool_decide (z < 0) then z + Z.of_nat n else z))
      else Raise IndexError
  | EStr _ => Raise IndexError
  end.

(** Position along [axis] of the [k]-th entry of the row-major data. *)
Definition coord (s : list nat) (axis : nat) (k : nat) : nat :=
  ((k / prod (drop (S axis) s)) mod (s !!! axis))%nat.

(** [np.delete(a, obj, axis=axis)] for a list [obj] of indices. *)
Definition delete (a : ndarray) (obj : list elem) (axis : nat) : Result ndarray :=
  match shape a !! axis with
  | None => Raise AxisError
  | Some n =>
      js ← rmap (norm_index n) obj;
      let keep (j : nat) : bool := bool_decide (j ∉ js) in
      Ok {| shape := <[axis := length (filter (fun j => keep j) (seq 0 n))]> (shape a);
            data := (filter (fun kv => keep (coord (shape a) axis kv.1))
                       (zip (seq 0 (length (data a))) (data a))).*2 |}
  end.

(** [np.random.rand] unpacked on a non-empty shape [s]: only the shape
    of the result is ever read, so the entries are left at zero. *)
Definition rand (s : list nat) : ndarray :=
  {| shape := s; data := replicate (prod s) 0 |}.

End Np.

(** What [remove_masked_tensor_channels] is given as first argument:
    a shape (list or tuple), an array, or [None] when the model has no
    shape for the tensor. *)
Inductive tensor_or_shape :=
  | ArgShape (s : list nat)
  | ArgArray (a : ndarray)
  | ArgNone.

(** [ensure_masktype_is_set]. *)
Definition ensure_masktype_is_set (mask : mask_val) : Result (gset elem) :=
  match mask with
  | MSet s => Ok s
  | MNone => Ok ∅
  | _ => Raise (CannotTurnIntoSet mask)
  end.

Section WithSetOrder.
Context {O : PySetOrder}.

(** [list(mask)], and iteration [for x in mask]. *)
Definition py_list (mask : mask_val) : Result (list elem) :=
  match mask with
  | MNone => Raise TypeError
  | MSet s => Ok (set_iter s)
  | MList l => Ok l
  | MDict keys => Ok keys
  end.

(** [remove_masked_tensor_channels].  [np.random.rand()] without
    arguments returns a float, which the type assertion refuses. *)
Definition remove_masked_tensor_channels
    (t : tensor_or_shape) (mask : mask_val) (axis : nat) : Result tensor_or_shape :=
  mask_list ← py_list mask;
  '(shape_only, arr) ←
     match t with
     | ArgShape [] => Raise (AssertionError "")
     | ArgShape s => Ok (true, Np.rand s)
     | ArgArray a => Ok (false, a)
     | ArgNone => Raise (AssertionError "")
     end;
  ret_ ← (if bool_decide (Np.ndim arr = 0%nat) || bool_decide (Np.prod (shape arr) = 1%nat)
          then Ok arr
          else Np.delete arr mask_list axis);
  if shape_only : bool then Ok (ArgShape (shape ret_)) else Ok (ArgArray ret_).

End WithSetOrder.

(** A set literal of channel indices, and of strings. *)
Definition ints (l : list Z) : gset elem := list_to_set (EInt <$> l).
Definition strs (l : list string) : gset elem := list_to_set (EStr <$> l).

(** ** Nodes *)

(** A node of the graph.  Modelled from the spec: the attribute lookup
    utility [get_by_name] of [qonnx.util.basic] is not among the sources;
    section 6 has it resolve a named attribute of a node and fail when
    the attribute is absent.  A node keeps its [group] attribute, when it
    has one, in the field [group]. *)
Record NodeProto := mk_node {
  name : string;
  op_type : string;
  input : list string;
  output : list string;
  group : option Z
}.

#[global] Instance NodeProto_eq_dec : EqDecision NodeProto.
Proof. solve_decision. Defined.

(** [get_by_name(node.attribute, "group").i]: reading [.i] of [None]
    raises. *)
Definition get_group (node : NodeProto) : Result Z :=
  of_option (group node) AttributeError.

Definition set_group (g : Z) (node : NodeProto) : NodeProto :=
  {| name := name node; op_type := op_type node; input := input node;
     output := output node; group := Some g |}.

Definition eltwise_ops_bidirectional : list string :=
  ["Mul"; "Div"; "MultiThreshold"; "Quant"; "Relu"].

Definition eltwise_ops_bwdonly : list string :=
  ["Add"; "Sub"; "BatchNormalization"].

Definition dotprod_ops : list string := ["MatMul"; "Conv"].

Section Transfer.
Context {O : PySetOrder}.

(** One entry of a weight mask read for the side [p] (["i"] or ["o"]):
    [int(x.replace(p, ""))] when [x.startswith(p)], nothing otherwise.
    An entry that is not a string has no [startswith]. *)
Definition decode_entry (p : ascii) (x : elem) : Result (option elem) :=
  match x with
  | EInt _ => Raise AttributeError
  | EStr s =>
      if PyStr.startswith s (String p EmptyString)
      then z ← of_option (PyStr.int (PyStr.replace_del p s)) ValueError;
           Ok (Some (EInt z))
      else Ok None
  end.

(** [{int(x.replace(p, "")) for x in w_mask if x.startswith(p)}]. *)
Definition decode_side (p : ascii) (w_mask : gset elem) : Result (gset elem) :=
  l ← rmap (decode_entry p) (set_iter w_mask);
  Ok (list_to_set (omap id l)).

(** [p + "%d" % x]: the format refuses a string. *)
Definition encode_entry (p : ascii) (x : elem) : Result elem :=
  match x with
  | EInt z => Ok (EStr (String p (PyStr.fmt_d z)))
  | EStr _ => Raise TypeError
  end.

(** [{"p%d" % x for x in mask}]. *)
Definition encode_side (p : ascii) (mask : gset elem) : Result (gset elem) :=
  l ← rmap (encode_entry p) (set_iter mask);
  Ok (list_to_set l).

(** [update_node_mask].  For an operator outside the three classes the
    code emits a warning and goes on; the warning is not modelled. *)
Definition update_node_mask (node : NodeProto) (masks_in masks_out : list mask_val)
    : Result (list (gset elem) * list (gset elem)) :=
  masks_in ← rmap ensure_masktype_is_set masks_in;
  masks_out ← rmap ensure_masktype_is_set masks_out;
  if bool_decide (op_type node ∈ eltwise_ops_bidirectional) then
    let ret_ := ⋃ masks_in ∪ ⋃ masks_out in
    Ok ((fun _ => ret_) <$> masks_in, (fun _ => ret_) <$> masks_out)
  else if bool_decide (op_type node ∈ eltwise_ops_bwdonly) then
    let ret_ := ⋃ masks_in ∪ ⋃ masks_out in
    Ok ((fun _ => ret_) <$> masks_in, masks_out)
  else if bool_decide (op_type node ∈ dotprod_ops) then
    is_depthwise ←
      (if bool_decide (op_type node = "Conv")
       then groups ← get_group node; Ok (bool_decide (1 < groups))
       else Ok false);
    w_mask ← of_option (masks_in !! 1%nat) IndexError;
    w_mask_in ← decode_side "i" w_mask;
    w_mask_out ← decode_side "o" w_mask;
    i_mask ← of_option (masks_in !! 0%nat) IndexError;
    o_mask ← of_option (masks_out !! 0%nat) IndexError;
    let mask_in := w_mask_in ∪ i_mask in
    let mask_out := w_mask_out ∪ o_mask in
    if is_depthwise : bool then
      let mask_in := mask_in ∪ mask_out in
      let mask_out := mask_in in
      w_mask ← encode_side "o" mask_out;
      Ok ([mask_in; w_mask], [mask_out])
    else
      w_i ← encode_side "i" mask_in;
      w_o ← encode_side "o" mask_out;
      Ok ([mask_in; w_i ∪ w_o], [mask_out])
  else
    Ok (masks_in, masks_out).

End Transfer.

(** ** The model store *)

(** Modelled from the spec: the Model/Graph store [ModelWrapper] of
    [qonnx.core.modelwrapper] is not among the sources.  Section 6 gives
    it a fixed-order node enumeration, a per-tensor get and set for the
    initializer data, for the shape and for the sparsity mask, a
    per-tensor consumer lookup and a per-node attribute get and set; a
    getter answers [None] for a tensor that has no such entry. *)
Record ModelWrapper := mk_model {
  graph_node : list NodeProto;
  initializer : gmap string ndarray;
  tensor_shape : gmap string (list nat);
  tensor_sparsity : gmap string mask_val
}.

Definition get_initializer (m : ModelWrapper) (t : string) : option ndarray :=
  initializer m !! t.

Definition get_tensor_shape (m : ModelWrapper) (t : string) : option (list nat) :=
  tensor_shape m !! t.

Definition get_tensor_sparsity (m : ModelWrapper) (t : string) : mask_val :=
  default MNone (tensor_sparsity m !! t).

Definition set_initializer (t : string) (a : ndarray) (m : ModelWrapper) : ModelWrapper :=
  {| graph_node := graph_node m; initializer := <[t := a]> (initializer m);
     tensor_shape := tensor_shape m; tensor_sparsity := tensor_sparsity m |}.

Definition set_tensor_shape (t : string) (s : list nat) (m : ModelWrapper) : ModelWrapper :=
  {| graph_node := graph_node m; initializer := initializer m;
     tensor_shape := <[t := s]> (tensor_shape m); tensor_sparsity := tensor_sparsity m |}.

Definition set_tensor_sparsity (t : string) (v : mask_val) (m : ModelWrapper) : ModelWrapper :=
  {| graph_node := graph_node m; initializer := initializer m;
     tensor_shape := tensor_shape m; tensor_sparsity := <[t := v]> (tensor_sparsity m) |}.

(** The attribute set: the [k]-th node gets its [group] rewritten. *)
Definition set_node_group (k : nat) (g : Z) (m : ModelWrapper) : ModelWrapper :=
  {| graph_node := alter (set_group g) k (graph_node m); initializer := initializer m;
     tensor_shape := tensor_shape m; tensor_sparsity := tensor_sparsity m |}.

(** Modelled from the spec: the per-tensor consumer lookup of the store
    (section 6), which is not among the sources: the first node, in
    stored order, that reads the tensor. *)
Definition find_consumer (m : ModelWrapper) (t : string) : option NodeProto :=
  snd <$> list_find (fun n => t ∈ input n) (graph_node m).

(** Modelled from the spec: the nodes of one operator kind, in the
    fixed node order of the store (section 6). *)
Definition get_nodes_by_op_type (m : ModelWrapper) (op : string) : list NodeProto :=
  filter (fun n => op_type n = op) (graph_node m).

(** ** The monad of a pass: in-place state, and exceptions *)

Definition M (A : Type) : Type := ModelWrapper -> ModelWrapper * Result A.

#[global] Instance M_ret : MRet M := fun _ a m => (m, Ok a).

#[global] Instance M_bind : MBind M := fun _ _ k c m =>
  match c m with
  | (m', Ok a) => k a m'
  | (m', Raise e) => (m', Raise e)
  end.

Definition lift {A} (r : Result A) : M A := fun m => (m, r).
Definition gets {A} (f : ModelWrapper -> A) : M A := fun m => (m, Ok (f m)).
Definition modify (f : ModelWrapper -> ModelWrapper) : M unit := fun m => (f m, Ok tt).

(** [for x in l: flag |= body(x)], from an initial flag. *)
Fixpoint for_or {A} (l : list A) (body : A -> M bool) (flag : bool) : M bool :=
  match l with
  | [] => mret flag
  | x :: r => b ← body x; for_or r body (flag || b)
  end.

(** [for x, y in zip(names, masks): model.set_tensor_sparsity(x, y)]. *)
Fixpoint write_masks (l : list (string * gset elem)) : M unit :=
  match l with
  | [] => mret tt
  | (t, s) :: r => _ ← modify (set_tensor_sparsity t (MSet s)); write_masks r
  end.

(** ** The passes *)

Definition prune_spec_t : Type := list (string * mask_val).

Definition is_str (e : elem) : bool :=
  match e with EStr _ => true | EInt _ => false end.

Definition str_startswith (e : elem) (p : string) : bool :=
  match e with EStr s => PyStr.startswith s p | EInt _ => false end.

Section Passes.
Context {O : PySetOrder}.

(** The sanity check of [ApplyMasks.apply] on one entry of the prune
    spec: is [key] the second input of its consumer, a Conv or MatMul? *)
Definition is_dotprod_weight (m : ModelWrapper) (key : string) : Result bool :=
  match find_consumer m key with
  | Some c =>
      if bool_decide (op_type c ∈ ["Conv"; "MatMul"])
      then w ← of_option (input c !! 1%nat) IndexError; Ok (bool_decide (w = key))
      else Ok false
  | None => Ok false
  end.

Definition check_weight_mask (val : mask_val) : Result unit :=
  l ← py_list val;
  val_check ← of_option (l !! 0%nat) IndexError;
  _ ← py_assert (is_str val_check) "Weight masks must be strings";
  py_assert (str_startswith val_check "i" || str_startswith val_check "o")
    "Weight masks must be formatted iX or oX".

Definition apply_mask_entry (entry : string * mask_val) : M unit :=
  let '(key, val) := entry in
  t_has_init ← gets (fun m => bool_decide (is_Some (get_initializer m key)));
  t_fc_cnv_w ← (fun m => (m, is_dotprod_weight m key));
  _ ← (if (t_fc_cnv_w && t_has_init)%bool then lift (check_weight_mask val) else mret tt);
  modify (set_tensor_sparsity key val).

Fixpoint for_each {A} (l : list A) (body : A -> M unit) : M unit :=
  match l with
  | [] => mret tt
  | x :: r => _ ← body x; for_each r body
  end.

(** [ApplyMasks(prune_spec).apply]. *)
Definition ApplyMasks_apply (prune_spec : prune_spec_t) : M bool :=
  _ ← for_each prune_spec apply_mask_entry;
  mret false.

(** The body of the loop of [PropagateMasks.apply] for one node; the
    result is what the node contributes to [need_rerun]. *)
Definition propagate_node (node : NodeProto) : M bool :=
  raw_in ← gets (fun m => get_tensor_sparsity m <$> input node);
  raw_out ← gets (fun m => get_tensor_sparsity m <$> output node);
  node_masks_in ← lift (rmap ensure_masktype_is_set raw_in);
  node_masks_out ← lift (rmap ensure_masktype_is_set raw_out);
  '(new_in, new_out) ←
     lift (update_node_mask node (MSet <$> node_masks_in) (MSet <$> node_masks_out));
  let in_changed := bool_decide (new_in ≠ node_masks_in) in
  let out_changed := bool_decide (new_out ≠ node_masks_out) in
  _ ← write_masks (zip (input node) new_in);
  _ ← write_masks (zip (output node) new_out);
  mret (in_changed || out_changed)%bool.

(** [PropagateMasks().apply]. *)
Definition PropagateMasks_apply : M bool :=
  nodes ← gets graph_node;
  for_or nodes propagate_node false.

(** [[int(x.replace(p, "")) for x in mask if x.startswith(p)]]. *)
Definition decode_list (p : ascii) (mask : mask_val) : Result (list elem) :=
  xs ← py_list mask;
  l ← rmap (decode_entry p) xs;
  Ok (omap (M := list) id l).

Definition shape_arg (s : option (list nat)) : tensor_or_shape :=
  match s with Some l => ArgShape l | None => ArgNone end.

(** The two ways a result of [remove_masked_tensor_channels] is used. *)
Definition as_array (t : tensor_or_shape) : Result ndarray :=
  match t with ArgArray a => Ok a | _ => Raise TypeError end.
Definition as_shape (t : tensor_or_shape) : Result (list nat) :=
  match t with ArgShape s => Ok s | _ => Raise TypeError end.

(** [io_shp[1]]. *)
Definition shape_item (s : option (list nat)) (i : nat) : Result nat :=
  match s with
  | None => Raise TypeError
  | Some l => of_option (l !! i) IndexError
  end.

(** [mask is None or mask == {}]. *)
Definition mask_is_skipped (mask : mask_val) : bool :=
  match mask with
  | MNone => true
  | MDict [] => true
  | _ => false
  end.

(** The new initializer of a tensor of a [MatMul] node. *)
Definition remove_matmul (io_t : ndarray) (mask : mask_val) : Result ndarray :=
  i_mask ← decode_list "i" mask;
  o_mask ← decode_list "o" mask;
  new_t ← remove_masked_tensor_channels (ArgArray io_t) (MList i_mask) 0 ≫= as_array;
  remove_masked_tensor_channels (ArgArray new_t) (MList o_mask) 1 ≫= as_array.

(** The new initializer of a tensor of a [Conv] node, and the new value
    of the [group] attribute when the node is depthwise. *)
Definition remove_conv (node : NodeProto) (io_t : ndarray) (io_shp : option (list nat))
    (mask : mask_val) : Result (ndarray * option Z) :=
  i_mask ← decode_list "i" mask;
  o_mask ← decode_list "o" mask;
  ifm_w ← shape_item io_shp 1;
  groups ← get_group node;
  _ ← py_assert (bool_decide (groups = 1) || bool_decide (ifm_w = 1%nat))
        "Unknown grouped conv setting";
  let depthwise := bool_decide (1 < groups) in
  if depthwise then
    new_t ← remove_masked_tensor_channels (ArgArray io_t) (MList o_mask) 0 ≫= as_array;
    n ← of_option (shape new_t !! 0%nat) IndexError;
    Ok (new_t, Some (Z.of_nat n))
  else
    new_t ← remove_masked_tensor_channels (ArgArray io_t) (MList i_mask) 1 ≫= as_array;
    new_t ← remove_masked_tensor_channels (ArgArray new_t) (MList o_mask) 0 ≫= as_array;
    Ok (new_t, None).

(** The new initializer of a tensor of any other node. *)
Definition remove_plain (io_t : ndarray) (mask : mask_val) : Result ndarray :=
  let axis := if bool_decide (2 <= Np.ndim io_t)%nat then 1%nat else 0%nat in
  remove_masked_tensor_channels (ArgArray io_t) mask axis ≫= as_array.

(** The body of the inner loop of [RemoveMaskedChannels.apply] for the
    tensor [ioname] of the [k]-th node; the result tells whether the
    tensor was handled ([need_rerun = True]) or skipped ([continue]). *)
Definition remove_tensor (k : nat) (ioname : string) : M bool :=
  node ← (fun m => (m, of_option (graph_node m !! k) IndexError));
  io_t ← gets (fun m => get_initializer m ioname);
  io_shp ← gets (fun m => get_tensor_shape m ioname);
  mask ← gets (fun m => get_tensor_sparsity m ioname);
  if mask_is_skipped mask then mret false
  else
    _ ← match io_t with
        | None =>
            new_shp ← lift (remove_masked_tensor_channels (shape_arg io_shp) mask 1
                             ≫= as_shape);
            modify (set_tensor_shape ioname new_shp)
        | Some io_t =>
            if bool_decide (op_type node = "MatMul") then
              new_t ← lift (remove_matmul io_t mask);
              modify (set_initializer ioname new_t)
            else if bool_decide (op_type node = "Conv") then
              '(new_t, new_group) ← lift (remove_conv node io_t io_shp mask);
              _ ← match new_group with
                  | Some g => modify (set_node_group k g)
                  | None => mret tt
                  end;
              modify (set_initializer ioname new_t)
            else
              new_t ← lift (remove_plain io_t mask);
              modify (set_initializer ioname new_t)
        end;
    _ ← modify (set_tensor_sparsity ioname (MDict []));
    mret true.

(** The body of the outer loop, for the [k]-th node. *)
Definition remove_node (k : nat) : M bool :=
  node ← (fun m => (m, of_option (graph_node m !! k) IndexError));
  for_or (input node ++ output node)%list (remove_tensor k) false.

(** [RemoveMaskedChannels().apply]. *)
Definition RemoveMaskedChannels_apply : M bool :=
  n ← gets (fun m => length (graph_node m));
  for_or (seq 0 n) remove_node false.

End Passes.

(** ** The orchestrator *)

Inductive Transformation :=
  | ApplyMasks (prune_spec : prune_spec_t)
  | PropagateMasks
  | RemoveMaskedChannels.

(** The [apply] method of each transformation. *)
Definition Transformation_apply {O : PySetOrder} (t : Transformation) : M bool :=
  match t with
  | ApplyMasks prune_spec => ApplyMasks_apply prune_spec
  | PropagateMasks => PropagateMasks_apply
  | RemoveMaskedChannels => RemoveMaskedChannels_apply
  end.

(** [PruneChannels.apply] hands each stage to [model.transform], a
    method of the model store that is not among the sources.  The
    orchestrator is therefore a program over that call: it ends with a
    result, or asks for a transformation of a model and goes on with
    the model it gets back. *)
Inductive Prog (A : Type) :=
  | Return (r : Result A)
  | Transform (t : Transformation) (model : ModelWrapper) (k : ModelWrapper -> Prog A).
Arguments Return {A} r.
Arguments Transform {A} t model k.

(** [[x for x in nodes if model.get_initializer(x.input[1]) is None]]. *)
Fixpoint dyn_weight_nodes (model : ModelWrapper) (nodes : list NodeProto)
    : Result (list NodeProto) :=
  match nodes with
  | [] => Ok []
  | x :: r =>
      w ← of_option (input x !! 1%nat) IndexError;
      rest ← dyn_weight_nodes model r;
      Ok (if get_initializer model w is None then x :: rest else rest)
  end.

(** The two checks that open [PruneChannels.apply]. *)
Definition check_patterns (model : ModelWrapper) : Result unit :=
  let conv_nodes := get_nodes_by_op_type model "Conv" in
  let matmul_nodes := get_nodes_by_op_type model "MatMul" in
  let convs_with_bias := filter (fun x => length (input x) = 3%nat) conv_nodes in
  _ ← py_assert (negb (bool_decide (0 < length convs_with_bias)%nat))
        ("Please extract bias from Conv nodes: " +:+ PyStr.repr_names (name <$> convs_with_bias));
  let dotprod_nodes := (conv_nodes ++ matmul_nodes)%list in
  dotprod_nodes_dyn_w ← dyn_weight_nodes model dotprod_nodes;
  py_assert (negb (bool_decide (0 < length dotprod_nodes_dyn_w)%nat))
    ("Please ensure MatMul and Conv nodes have static weights: "
       +:+ PyStr.repr_names (name <$> dotprod_nodes_dyn_w)).

(** [PruneChannels(prune_spec).apply]. *)
Definition PruneChannels_apply (prune_spec : prune_spec_t) (model : ModelWrapper)
    : Prog (ModelWrapper * bool) :=
  match check_patterns model with
  | Raise e => Return (Raise e)
  | Ok _ =>
      Transform (ApplyMasks prune_spec) model (fun model =>
      Transform PropagateMasks model (fun model =>
      Transform RemoveMaskedChannels model (fun model =>
      Return (Ok (model, false)))))
  end.

(** Running a program against an implementation of [model.transform]:
    the transformations it was asked for, in order, and the outcome. *)
Fixpoint run {A} (transform : Transformation -> ModelWrapper -> Result ModelWrapper)
    (p : Prog A) : list Transformation * Result A :=
  match p with
  | Return r => ([], r)
  | Transform t model k =>
      match transform t model with
      | Ok model' => let '(trace, r) := run transform (k model') in (t :: trace, r)
      | Raise e => ([t], Raise e)
      end
  end.

(** Modelled from the spec: [ModelWrapper.transform] is not among the
    sources; sections 2 and 4.4 have the orchestrator run each stage
    once per invocation, so this [transform] applies the stage once and
    hands back the model. *)
Definition transform_once {O : PySetOrder} (t : Transformation) (model : ModelWrapper)
    : Result ModelWrapper :=
  match Transformation_apply t model with
  | (model', Ok _) => Ok model'
  | (_, Raise e) => Raise e
  end.

(** * The vocabulary of the statements *)

(** The plain mask with the channel indices [S], and the weight-mask
    entries that stand for the indices [S] on the side [p]. *)
Definition plain (S : gset Z) : gset elem := set_map EInt S.

Definition encoding (p : ascii) (S : gset Z) : gset elem :=
  set_map (fun z => EStr (String p (PyStr.fmt_d z))) S.

(** The channel indices among the entries of a mask. *)
Definition indices (s : gset elem) : gset Z :=
  list_to_set (omap (fun e => match e with EInt z => Some z | EStr _ => None end) (elements s)).

(** A dot-product node that is not depthwise: a MatMul, or a Conv whose
    [group] is at most 1; and a depthwise one: a Conv whose [group]
    exceeds 1. *)
Definition dense_dotprod (node : NodeProto) : Prop :=
  op_type node = "MatMul" \/
  (op_type node = "Conv" /\ (exists g, group node = Some g /\ g <= 1)).

Definition depthwise_conv (node : NodeProto) : Prop :=
  op_type node = "Conv" /\ (exists g, group node = Some g /\ 1 < g).

(** The model [m] with its sparsity annotations replaced by [σ]. *)
Definition with_sparsity (m : ModelWrapper) (σ : gmap string mask_val) : ModelWrapper :=
  {| graph_node := graph_node m; initializer := initializer m;
     tensor_shape := tensor_shape m; tensor_sparsity := σ |}.

(** The sparsity map after [for x, y in zip(names, masks): set(x, y)]. *)
Definition written (l : list (string * gset elem)) (σ : gmap string mask_val)
    : gmap string mask_val :=
  foldl (fun acc p => <[p.1 := MSet p.2]> acc) σ l.

(** The masks a node reads at the start of its step. *)
Definition masks_read (m : ModelWrapper) (names : list string) : Result (list (gset elem)) :=
  rmap ensure_masktype_is_set (get_tensor_sparsity m <$> names).

(** The model once the masks of the entries [l] are installed. *)
Definition installed (l : prune_spec_t) (m : ModelWrapper) : ModelWrapper :=
  foldl (fun acc e => set_tensor_sparsity e.1 e.2 acc) m l.

(** Rank 0, or a single element in total. *)
Definition scalar_like (a : ndarray) : Prop :=
  Np.ndim a = 0%nat \/ Np.prod (shape a) = 1%nat.

#[global] Instance scalar_like_dec a : Decision (scalar_like a).
Proof. unfold scalar_like. apply _. Defined.

(** When a MatMul or Conv node gets as far as the deletion: the mask
    decodes on both sides and, for a Conv, the recorded shape has an
    axis 1, the group attribute is there and passes the check, and a
    depthwise weight has an axis 0 to read the new group from. *)
Definition reaches_deletion {O : PySetOrder} (node : NodeProto) (io_t : ndarray)
    (io_shp : option (list nat)) (mask : mask_val) : Prop :=
  if bool_decide (op_type node = "MatMul") then
    is_ok (decode_list "i" mask) = true /\ is_ok (decode_list "o" mask) = true
  else if bool_decide (op_type node = "Conv") then
    is_ok (decode_list "i" mask) = true /\ is_ok (decode_list "o" mask) = true
    /\ exists ifm_w g, shape_item io_shp 1 = Ok ifm_w /\ group node = Some g
                       /\ (g = 1 \/ ifm_w = 1%nat) /\ (1 < g -> (0 < Np.ndim io_t)%nat)
  else True.

(** The parts of the model that are not sparsity annotations. *)
Definition same_structure (m m' : ModelWrapper) : Prop :=
  graph_node m' = graph_node m /\ initializer m' = initializer m
  /\ tensor_shape m' = tensor_shape m.

(** Two models whose masks agree once [None] is read as the empty set. *)
Definition mask_equiv (m m' : ModelWrapper) : Prop :=
  forall t, ensure_masktype_is_set (get_tensor_sparsity m' t)
            = ensure_masktype_is_set (get_tensor_sparsity m t).

(** The tensors a node refers to. *)
Definition io_names (node : NodeProto) : list string := input node ++ output node.

(** [t] is a tensor of some node of the graph. *)
Definition referenced (m : ModelWrapper) (t : string) : Prop :=
  exists node, node ∈ graph_node m /\ t ∈ io_names node.

(** What Removal never rewrites in a node: everything but [group]. *)
Definition node_sig (n : NodeProto) : string * string * list string * list string :=
  (name n, op_type n, input n, output n).

(** How a model can differ from an earlier one after steps of Removal:
    the nodes are the same up to their [group], and a mask is either
    what it was or the empty dict. *)
Definition removal_step (m m' : ModelWrapper) : Prop :=
  node_sig <$> graph_node m' = node_sig <$> graph_node m
  /\ forall t, get_tensor_sparsity m' t = get_tensor_sparsity m t
               \/ get_tensor_sparsity m' t = MDict [].

(** An index that a deletion along an axis of extent [n] accepts. *)
Definition valid_index (n : nat) (e : elem) : Prop :=
  match e with
  | EInt z => - Z.of_nat n <= z < Z.of_nat n
  | EStr _ => False
  end.

(** What a result of [remove_masked_tensor_channels] on an array tells
    about shapes. *)
Definition shape_of_result (r : tensor_or_shape) : tensor_or_shape :=
  match r with
  | ArgArray a => ArgShape (shape a)
  | other => other
  end.

(** [t] is the weight operand, the second input, of a MatMul or Conv
    node of the graph. *)
Definition weight_of (m : ModelWrapper) (t : string) : Prop :=
  exists node, node ∈ graph_node m /\ op_type node ∈ dotprod_ops
               /\ input node !! 1%nat = Some t.

(** * Concrete graphs *)

Module Concrete.
#[local] Existing Instance canonical_order.

Definition relu_node : NodeProto := mk_node "act" "Relu" ["x"] ["y"] None.
Definition add_node : NodeProto := mk_node "sum" "Add" ["x"; "b"] ["y"] None.
Definition conv_node (g : Z) : NodeProto := mk_node "conv" "Conv" ["x"; "conv_w"] ["y"] (Some g).

Definition one_node (node : NodeProto) (masks : list (string * mask_val)) : ModelWrapper :=
  {| graph_node := [node]; initializer := ∅; tensor_shape := ∅;
     tensor_sparsity := list_to_map masks |}.

(** A convolution with 8 output channels and a 1 x 1 kernel whose
    weight has [per_group] input channels per group. *)
Definition conv_model (g : Z) (per_group in_channels : nat)
    (masks : list (string * mask_val)) : ModelWrapper :=
  {| graph_node := [conv_node g];
     initializer := {[ "conv_w" := mk_ndarray [8; per_group; 1; 1]%nat
                                      (Z.of_nat <$> seq 0 (8 * per_group)) ]};
     tensor_shape := {[ "x" := [1; in_channels; 2; 2]%nat;
                        "conv_w" := [8; per_group; 1; 1]%nat;
                        "y" := [1; 8; 2; 2]%nat ]};
     tensor_sparsity := list_to_map masks |}.

(** The axis-1 extent of the data input of the [k]-th node. *)
Definition input_channels (m : ModelWrapper) (k : nat) : option nat :=
  node ← graph_node m !! k;
  x ← input node !! 0%nat;
  s ← get_tensor_shape m x;
  s !! 1%nat.

(** A Mul by a constant scale kept in a one-element array. *)
Definition scale_model (masks : list (string * mask_val)) : ModelWrapper :=
  {| graph_node := [mk_node "scale" "Mul" ["x"; "s"] ["y"] None];
     initializer := {[ "s" := mk_ndarray [1]%nat [3] ]};
     tensor_shape := {[ "x" := [1; 4]%nat; "s" := [1]%nat; "y" := [1; 4]%nat ]};
     tensor_sparsity := list_to_map masks |}.

Definition matrix (rows cols : nat) : ndarray :=
  mk_ndarray [rows; cols] (Z.of_nat <$> seq 0 (rows * cols)).

(** Input -> MatMul(w1 : 3 x 4) -> Relu -> MatMul(w2 : 4 x 2) -> Output *)
Definition mlp : ModelWrapper :=
  {| graph_node :=
       [mk_node "fc1" "MatMul" ["x"; "w1"] ["h"] None;
        mk_node "act" "Relu" ["h"] ["a"] None;
        mk_node "fc2" "MatMul" ["a"; "w2"] ["y"] None];
     initializer := {[ "w1" := matrix 3 4; "w2" := matrix 4 2 ]};
     tensor_shape := {[ "x" := [1; 3]%nat; "h" := [1; 4]%nat; "a" := [1; 4]%nat;
                        "y" := [1; 2]%nat; "w1" := [3; 4]%nat; "w2" := [4; 2]%nat ]};
     tensor_sparsity := ∅ |}.

Definition pruned : list Transformation * Result (ModelWrapper * bool) :=
  run transform_once (PruneChannels_apply [("w1", MSet (strs ["o1"; "o3"]))] mlp).

(** A MatMul whose data input is itself a constant, a 1 x 1 array. *)
Definition const_matmul : ModelWrapper :=
  {| graph_node := [mk_node "fc" "MatMul" ["s"; "w"] ["y"] None];
     initializer := {[ "s" := mk_ndarray [1; 1]%nat [3]; "w" := matrix 1 2 ]};
     tensor_shape := {[ "s" := [1; 1]%nat; "w" := [1; 2]%nat; "y" := [1; 2]%nat ]};
     tensor_sparsity := ∅ |}.

(** The same model once [{"i0"}] is seeded on the weight and one
    propagation sweep has run. *)
Definition const_matmul_swept : ModelWrapper :=
  (PropagateMasks_apply
     (ApplyMasks_apply [("w", MSet (strs ["i0"]))] const_matmul).1).1.


End Concrete.

Module EmptySets.
#[local] Existing Instance canonical_order.

(** x -> Relu -> y, two tensors of shape (1, 4), no mask anywhere. *)
Definition relu_graph : ModelWrapper :=
  {| graph_node := [mk_node "act" "Relu" ["x"] ["y"] None];
     initializer := ∅;
     tensor_shape := {[ "x" := [1; 4]%nat; "y" := [1; 4]%nat ]};
     tensor_sparsity := ∅ |}.

(** The same graph once a propagation sweep has run over it: every
    tensor carries the empty set. *)
Definition relu_swept : ModelWrapper := (PropagateMasks_apply relu_graph).1.

(** x + b -> y on vectors of length 4, swept the same way. *)
Definition add_graph : ModelWrapper :=
  {| graph_node := [mk_node "sum" "Add" ["x"; "b"] ["y"] None];
     initializer := ∅;
     tensor_shape := {[ "x" := [4]%nat; "b" := [4]%nat; "y" := [4]%nat ]};
     tensor_sparsity := ∅ |}.

Definition add_swept : ModelWrapper := (PropagateMasks_apply add_graph).1.

End EmptySets.

Module ConcreteMore.
#[local] Existing Instance canonical_order.
Import Concrete.

(** A convolution with a fused bias input. *)
Definition biased_conv : NodeProto := mk_node "conv" "Conv" ["x"; "w"; "b"] ["y"] (Some 1).

(** A convolution without a [group] attribute. *)
Definition groupless_conv : NodeProto := mk_node "conv" "Conv" ["x"; "w"] ["y"] None.

(** That convolution with a masked weight, over the recorded shapes
    given. *)
Definition groupless_model (shapes : gmap string (list nat)) : ModelWrapper :=
  {| graph_node := [groupless_conv];
     initializer := {[ "w" := mk_ndarray [8; 4; 1; 1]%nat (Z.of_nat <$> seq 0 32) ]};
     tensor_shape := shapes;
     tensor_sparsity := {[ "w" := MSet (strs ["o1"]) ]} |}.

(** An operator outside the three classes. *)
Definition reshape_node : NodeProto := mk_node "flat" "Reshape" ["x"] ["y"] None.

(** The dense convolution with a mask on its data input and on its
    weight. *)
Definition masked_conv : ModelWrapper :=
  conv_model 1 4 4 [("x", MSet (ints [2])); ("conv_w", MSet (strs ["o1"; "i0"]))].

(** The model of [EmptySets.relu_swept] after a removal sweep. *)
Definition relu_removed : ModelWrapper :=
  (RemoveMaskedChannels_apply EmptySets.relu_swept).1.

End ConcreteMore.

Import Concrete.

(** * Running the definitions *)

Module Examples_remove.
#[local] Existing Instance canonical_order.

(** Spec section 8, shape arithmetic: (N, 8, H, W) with mask {1, 3}. *)
Example shape_arithmetic :
  remove_masked_tensor_channels (ArgShape [2; 8; 3; 3]%nat) (MSet (ints [1; 3])) 1
  = Ok (ArgShape [2; 6; 3; 3]%nat).
Proof. vm_compute. reflexivity. Qed.

(** Row 1 of a 3 x 2 matrix is deleted. *)
Example delete_row :
  remove_masked_tensor_channels
    (ArgArray (mk_ndarray [3; 2]%nat [10; 11; 20; 21; 30; 31])) (MList [EInt 1]) 0
  = Ok (ArgArray (mk_ndarray [2; 2]%nat [10; 11; 30; 31])).
Proof. vm_compute. reflexivity. Qed.

(** Column -1 of the same matrix. *)
Example delete_col :
  remove_masked_tensor_channels
    (ArgArray (mk_ndarray [3; 2]%nat [10; 11; 20; 21; 30; 31])) (MList [EInt (-1)]) 1
  = Ok (ArgArray (mk_ndarray [3; 1]%nat [10; 20; 30])).
Proof. vm_compute. reflexivity. Qed.

Example delete_out_of_range :
  remove_masked_tensor_channels
    (ArgArray (mk_ndarray [3; 2]%nat [10; 11; 20; 21; 30; 31])) (MList [EInt 2]) 1
  = Raise IndexError.
Proof. vm_compute. reflexivity. Qed.

End Examples_remove.

Module Examples_transfer.
#[local] Existing Instance canonical_order.

Example int_plain : PyStr.int "12" = Some 12.
Proof. reflexivity. Qed.
Example int_padded : PyStr.int " -0_7 " = Some (-7).
Proof. reflexivity. Qed.
Example int_bad : PyStr.int "1__2" = None /\ PyStr.int "" = None /\ PyStr.int "o3" = None.
Proof. repeat split; reflexivity. Qed.
Example fmt_examples : PyStr.fmt_d 0 = "0" /\ PyStr.fmt_d 130 = "130" /\ PyStr.fmt_d (-4) = "-4".
Proof. repeat split; reflexivity. Qed.

Example run_dense_conv :
  update_node_mask (mk_node "c" "Conv" ["x"; "w"] ["y"] (Some 1))
    [MSet (ints [2]); MSet (strs ["o1"; "i0"])] [MNone]
  = Ok ([ints [0; 2]; strs ["i0"; "i2"; "o1"]], [ints [1]]).
Proof. vm_compute. reflexivity. Qed.

Example run_depthwise_conv :
  update_node_mask (mk_node "c" "Conv" ["x"; "w"] ["y"] (Some 8))
    [MSet (ints [2]); MSet (strs ["o1"; "i0"])] [MNone]
  = Ok ([ints [0; 1; 2]; strs ["o0"; "o1"; "o2"]], [ints [0; 1; 2]]).
Proof. vm_compute. reflexivity. Qed.

Example run_relu :
  update_node_mask (mk_node "r" "Relu" ["x"] ["y"] None) [MSet (ints [2])] [MSet (ints [5])]
  = Ok ([ints [2; 5]], [ints [2; 5]]).
Proof. vm_compute. reflexivity. Qed.

Example run_add :
  update_node_mask (mk_node "a" "Add" ["x"; "b"] ["y"] None)
    [MSet (ints [2]); MNone] [MSet (ints [5])]
  = Ok ([ints [2; 5]; ints [2; 5]], [ints [5]]).
Proof. vm_compute. reflexivity. Qed.

End Examples_transfer.

Module Examples_pipeline.
#[local] Existing Instance canonical_order.

Example pruned_w1 :
  (fun m => get_initializer m.1 "w1") <$> pruned.2
  = Ok (Some (mk_ndarray [3; 2]%nat [0; 2; 4; 6; 8; 10])).
Proof. vm_compute. reflexivity. Qed.

Example pruned_w2 :
  (fun m => get_initializer m.1 "w2") <$> pruned.2
  = Ok (Some (mk_ndarray [2; 2]%nat [0; 1; 4; 5])).
Proof. vm_compute. reflexivity. Qed.

Example pruned_shapes :
  (fun m => (fun t => get_tensor_shape m.1 t) <$> ["x"; "h"; "a"; "y"]) <$> pruned.2
  = Ok [Some [1; 3]; Some [1; 2]; Some [1; 2]; Some [1; 2]]%nat.
Proof. vm_compute. reflexivity. Qed.

End Examples_pipeline.

(** * Facts about the string encoding of weight masks *)

Module PyStrFacts.
Import PyStr.

Lemma string_of_uint_digits (u : Decimal.uint) :
  digits_only (NilEmpty.string_of_uint u) = true.
Proof. induction u; simpl; auto. Qed.

Lemma string_of_uint_nonempty (u : Decimal.uint) :
  u <> Decimal.Nil -> NilEmpty.string_of_uint u <> EmptyString.
Proof. destruct u; simpl; congruence. Qed.

Lemma digit_not_space a : is_digit a = true -> is_space a = false.
Proof.
  unfold is_digit, is_space. intros H.
  apply andb_true_iff in H as [H1 H2]. apply Nat.leb_le in H1, H2.
  apply orb_false_iff; split; apply andb_false_iff.
  - right. apply Nat.leb_gt. lia.
  - right. apply Nat.leb_gt. lia.
Qed.

Lemma digit_not_underscore a : is_digit a = true -> Ascii.eqb a "_" = false.
Proof.
  intros H. apply Ascii.eqb_neq. intros ->. discriminate H.
Qed.

Lemma lstrip_digits x : digits_only x = true -> lstrip x = x.
Proof.
  destruct x as [|a r]; simpl; [done|].
  intros [Ha _]%andb_true_iff. by rewrite (digit_not_space _ Ha).
Qed.

Lemma rstrip_digits x : digits_only x = true -> rstrip x = x.
Proof.
  induction x as [|a r IH]; simpl; [done|].
  intros [Ha Hr]%andb_true_iff. rewrite (IH Hr), (digit_not_space _ Ha).
  by destruct r.
Qed.

Lemma digit_run_digits x :
  digits_only x = true -> digit_run true x = Some x.
Proof.
  induction x as [|a r IH]; simpl; [done|].
  intros [Ha Hr]%andb_true_iff.
  by rewrite (digit_not_underscore _ Ha), Ha, (IH Hr).
Qed.

Lemma digit_run_start x :
  digits_only x = true -> x <> EmptyString -> digit_run false x = Some x.
Proof.
  destruct x as [|a r]; simpl; [done|].
  intros [Ha Hr]%andb_true_iff _.
  by rewrite (digit_not_underscore _ Ha), Ha, (digit_run_digits _ Hr).
Qed.

(** [int] on the digits of a non-empty decimal numeral. *)
Lemma int_of_uint (u : Decimal.uint) :
  u <> Decimal.Nil ->
  int (NilEmpty.string_of_uint u) = Some (Z.of_int (Decimal.Pos u)).
Proof.
  intros Hu. unfold int.
  pose proof (string_of_uint_digits u) as Hd.
  pose proof (string_of_uint_nonempty u Hu) as Hne.
  rewrite (lstrip_digits _ Hd), (rstrip_digits _ Hd).
  assert (Hs : split_sign (NilEmpty.string_of_uint u) = (false, NilEmpty.string_of_uint u)).
  { destruct (NilEmpty.string_of_uint u) as [|a r]; [done|]. simpl.
    assert (Ha : is_digit a = true) by (simpl in Hd; by apply andb_true_iff in Hd as [? _]).
    destruct (Ascii.eqb a "-") eqn:E1; [apply Ascii.eqb_eq in E1 as ->; discriminate Ha|].
    destruct (Ascii.eqb a "+") eqn:E2; [apply Ascii.eqb_eq in E2 as ->; discriminate Ha|].
    done. }
  rewrite Hs, (digit_run_start _ Hd Hne). simpl. by rewrite NilEmpty.usu.
Qed.

Lemma int_of_neg_uint (u : Decimal.uint) :
  u <> Decimal.Nil ->
  int (String "-" (NilEmpty.string_of_uint u)) = Some (Z.of_int (Decimal.Neg u)).
Proof.
  intros Hu. unfold int.
  pose proof (string_of_uint_digits u) as Hd.
  pose proof (string_of_uint_nonempty u Hu) as Hne.
  change (lstrip (String "-" ?s)) with (String "-" s).
  assert (Hr : rstrip (String "-" (NilEmpty.string_of_uint u))
               = String "-" (NilEmpty.string_of_uint u)).
  { simpl. rewrite (rstrip_digits _ Hd).
    by destruct (NilEmpty.string_of_uint u). }
  rewrite Hr. unfold split_sign. rewrite Ascii.eqb_refl.
  rewrite (digit_run_start _ Hd Hne). simpl. by rewrite NilEmpty.usu.
Qed.

(** Parsing what ["%d"] printed gives the number back. *)
Lemma int_fmt_d (z : Z) : int (fmt_d z) = Some z.
Proof.
  unfold fmt_d. rewrite <- (DecimalZ.of_to z) at 2.
  destruct z as [|p|p]; simpl Z.to_int.
  - reflexivity.
  - pose proof (DecimalPos.Unsigned.to_uint_nonnil p) as Hp.
    unfold NilZero.string_of_int, NilZero.string_of_uint.
    destruct (Pos.to_uint p) eqn:E; try done; rewrite <- E in *;
      by apply int_of_uint.
  - pose proof (DecimalPos.Unsigned.to_uint_nonnil p) as Hp.
    unfold NilZero.string_of_int, NilZero.string_of_uint.
    destruct (Pos.to_uint p) eqn:E; try done; rewrite <- E in *;
      by apply int_of_neg_uint.
Qed.

Lemma digits_numeric x : digits_only x = true -> numeric_only x = true.
Proof.
  induction x as [|a r IH]; simpl; [done|].
  intros [-> Hr]%andb_true_iff. by rewrite (IH Hr).
Qed.

Lemma string_of_uint_numeric (u : Decimal.uint) :
  numeric_only (NilZero.string_of_uint u) = true.
Proof.
  assert (H : numeric_only (NilEmpty.string_of_uint u) = true)
    by apply digits_numeric, string_of_uint_digits.
  by destruct u.
Qed.

Lemma fmt_d_numeric (z : Z) : numeric_only (fmt_d z) = true.
Proof.
  unfold fmt_d, NilZero.string_of_int.
  destruct (Z.to_int z) as [u|u]; [apply string_of_uint_numeric|].
  change (numeric_only (NilZero.string_of_uint u) = true).
  apply string_of_uint_numeric.
Qed.

Lemma side_i : side_letter "i".
Proof. split; [reflexivity | discriminate]. Qed.

Lemma side_o : side_letter "o".
Proof. split; [reflexivity | discriminate]. Qed.

Lemma replace_del_numeric p x :
  side_letter p -> numeric_only x = true -> replace_del p x = x.
Proof.
  intros [Hp1 Hp2]. induction x as [|a r IH]; simpl; [done|].
  intros [Ha Hr]%andb_true_iff. rewrite (IH Hr).
  destruct (Ascii.eqb a p) eqn:E; [|done].
  apply Ascii.eqb_eq in E as ->. rewrite Hp1 in Ha. simpl in Ha.
  by apply Ascii.eqb_eq in Ha.
Qed.

Lemma startswith_same p x : startswith (String p x) (String p EmptyString) = true.
Proof. unfold startswith. simpl. destruct (ascii_dec p p); [by destruct x | done]. Qed.

Lemma startswith_other p q x :
  p <> q -> startswith (String p x) (String q EmptyString) = false.
Proof.
  intros Hne. unfold startswith. simpl. destruct (ascii_dec q p); [by subst | done].
Qed.

End PyStrFacts.

(** * Facts about comprehensions and about the two mask encodings *)

Lemma elem_of_plain (S : gset Z) (e : elem) : e ∈ plain S <-> exists z, e = EInt z /\ z ∈ S.
Proof. unfold plain. by rewrite elem_of_map. Qed.

Lemma elem_of_plain_int (S : gset Z) (z : Z) : EInt z ∈ plain S <-> z ∈ S.
Proof.
  rewrite elem_of_plain. split; [by intros (? & [= <-] & ?) | eauto].
Qed.

Lemma elem_of_encoding p (S : gset Z) (e : elem) :
  e ∈ encoding p S <-> exists z, e = EStr (String p (PyStr.fmt_d z)) /\ z ∈ S.
Proof. unfold encoding. by rewrite elem_of_map. Qed.

Lemma plain_union (S T : gset Z) : plain (S ∪ T) = plain S ∪ plain T.
Proof.
  unfold plain. apply set_eq. intros e. rewrite elem_of_union, !elem_of_map.
  setoid_rewrite elem_of_union. naive_solver.
Qed.

Lemma plain_empty : plain ∅ = ∅.
Proof.
  unfold plain. apply set_eq. intros e. rewrite elem_of_map.
  split; [by intros (? & _ & ?%not_elem_of_empty) | by intros ?%not_elem_of_empty].
Qed.

Lemma encoding_empty p : encoding p ∅ = ∅.
Proof.
  unfold encoding. apply set_eq. intros e. rewrite elem_of_map.
  split; [by intros (? & _ & ?%not_elem_of_empty) | by intros ?%not_elem_of_empty].
Qed.

Lemma plain_subseteq (S T : gset Z) : S ⊆ T <-> plain S ⊆ plain T.
Proof.
  split.
  - intros H e. rewrite !elem_of_plain. intros (z & -> & Hz). eauto.
  - intros H z Hz. apply elem_of_plain_int, H, elem_of_plain_int, Hz.
Qed.

Lemma plain_inj (S T : gset Z) : plain S = plain T -> S = T.
Proof.
  intros H. apply set_eq. intros z. by rewrite <- !elem_of_plain_int, H.
Qed.

Section RmapFacts.
Context {A B : Type}.
Implicit Types (f : A -> Result B) (g : A -> B) (l : list A).

Lemma rmap_ok_map f g l :
  (forall x, x ∈ l -> f x = Ok (g x)) -> rmap f l = Ok (g <$> l).
Proof.
  induction l as [|x r IH]; intros H; simpl; [done|].
  rewrite (H x) by left. simpl.
  rewrite IH by (intros; apply H; by right). done.
Qed.

Lemma rmap_Ok_Forall2 f l ys :
  rmap f l = Ok ys -> Forall2 (fun x y => f x = Ok y) l ys.
Proof.
  revert ys. induction l as [|x r IH]; simpl; intros ys H.
  - injection H as <-. constructor.
  - destruct (f x) as [y|] eqn:E; simpl in H; [|done].
    destruct (rmap f r) as [ys'|] eqn:E'; simpl in H; [|done].
    injection H as <-. constructor; auto.
Qed.

Lemma rmap_Ok_elem f l ys y :
  rmap f l = Ok ys -> y ∈ ys <-> exists x, x ∈ l /\ f x = Ok y.
Proof.
  intros H%rmap_Ok_Forall2. induction H as [|x y' l' ys' Hxy _ IH].
  - split; [by intros ?%elem_of_nil | by intros (? & ?%elem_of_nil & _)].
  - rewrite elem_of_cons, IH. split.
    + intros [->|(x' & ? & ?)]; [exists x | exists x']; split; auto; by constructor.
    + intros (x' & [->|?]%elem_of_cons & Hx'); [left; congruence | right; eauto].
Qed.

Lemma rmap_Raise_elem f l e :
  rmap f l = Raise e -> exists x, x ∈ l /\ f x = Raise e.
Proof.
  induction l as [|x r IH]; simpl; [done|].
  destruct (f x) as [y|e'] eqn:E; simpl.
  - destruct (rmap f r) as [ys|e''] eqn:E'; simpl; [done|].
    intros [= ->]. destruct IH as (x' & ? & ?); [done|].
    exists x'. split; [by right | done].
  - intros [= ->]. exists x. split; [by left | done].
Qed.

Lemma rmap_length f l ys : rmap f l = Ok ys -> length ys = length l.
Proof. intros H%rmap_Ok_Forall2. symmetry. by eapply Forall2_length. Qed.

End RmapFacts.

Lemma rmap_ensure_sets (l : list (gset elem)) :
  rmap ensure_masktype_is_set (MSet <$> l) = Ok l.
Proof.
  induction l as [|s r IH]; [done|].
  rewrite fmap_cons. cbn [rmap ensure_masktype_is_set]. by rewrite IH.
Qed.

Section EncodingFacts.
Context {O : PySetOrder}.
Import PyStrFacts.

Lemma elem_of_set_iter (s : gset elem) (x : elem) : x ∈ set_iter s <-> x ∈ s.
Proof. by rewrite set_iter_perm, elem_of_elements. Qed.

(** What decoding produces. *)
Lemma decode_side_elem p (w r : gset elem) (e : elem) :
  decode_side p w = Ok r ->
  e ∈ r <-> exists x, x ∈ w /\ decode_entry p x = Ok (Some e).
Proof.
  unfold decode_side. intros H.
  destruct (rmap (decode_entry p) (set_iter w)) as [l|] eqn:E; simpl in H; [|done].
  injection H as <-. rewrite elem_of_list_to_set, list_elem_of_omap.
  split.
  - intros (o & Ho & Hid). simpl in Hid. subst o.
    apply (rmap_Ok_elem _ _ _ _ E) in Ho as (x & Hx & Hfx).
    exists x. by rewrite <- elem_of_set_iter.
  - intros (x & Hx & Hfx). exists (Some e). split; [|done].
    apply (rmap_Ok_elem _ _ _ _ E). exists x. by rewrite elem_of_set_iter.
Qed.

Lemma decode_entry_int p x e : decode_entry p x = Ok (Some e) -> exists z, e = EInt z.
Proof.
  destruct x as [z|s]; simpl; [done|].
  destruct (PyStr.startswith _ _); [|done].
  destruct (PyStr.int _) as [z|]; simpl; [|done].
  intros [= <-]. eauto.
Qed.

(** A decoded side holds channel indices only. *)
Lemma decode_side_plain p (w r : gset elem) :
  decode_side p w = Ok r -> exists S : gset Z, r = plain S.
Proof.
  intros H.
  exists (list_to_set (omap (fun e => match e with EInt z => Some z | _ => None end)
                        (elements r))).
  apply set_eq. intros e. rewrite elem_of_plain. split.
  - intros He. pose proof He as He'.
    apply (decode_side_elem _ _ _ _ H) in He' as (x & _ & [z ->]%decode_entry_int).
    exists z. split; [done|]. rewrite elem_of_list_to_set, list_elem_of_omap.
    exists (EInt z). by rewrite elem_of_elements.
  - intros (z & -> & Hz). rewrite elem_of_list_to_set, list_elem_of_omap in Hz.
    destruct Hz as ([z'|s] & Hin & Heq); [|done].
    injection Heq as ->. by apply elem_of_elements in Hin.
Qed.

Lemma decode_entry_encoded p z :
  PyStr.side_letter p ->
  decode_entry p (EStr (String p (PyStr.fmt_d z))) = Ok (Some (EInt z)).
Proof.
  intros Hp. unfold decode_entry. rewrite startswith_same.
  cbn [PyStr.replace_del]. rewrite Ascii.eqb_refl.
  by rewrite (replace_del_numeric _ _ Hp (fmt_d_numeric z)), int_fmt_d.
Qed.

Lemma decode_entry_other p q z :
  p <> q -> decode_entry p (EStr (String q (PyStr.fmt_d z))) = Ok None.
Proof. intros Hne. unfold decode_entry. by rewrite startswith_other. Qed.

(** Decoding a canonical weight mask gives back the two index sets. *)
Lemma decode_encoding p q (S T : gset Z) :
  PyStr.side_letter p -> p <> q ->
  decode_side p (encoding p S ∪ encoding q T) = Ok (plain S).
Proof.
  intros Hp Hne. unfold decode_side.
  set (g := fun x => match decode_entry p x with Ok o => o | Raise _ => None end).
  rewrite (rmap_ok_map _ g).
  - simpl. f_equal. apply set_eq. intros e.
    rewrite elem_of_list_to_set, list_elem_of_omap, elem_of_plain. split.
    + intros (o & Ho & Hid). simpl in Hid. subst o.
      apply list_elem_of_fmap in Ho as (x & Hgx & Hx).
      apply elem_of_set_iter, elem_of_union in Hx as [Hx|Hx];
        apply elem_of_encoding in Hx as (z & -> & Hz); unfold g in Hgx.
      * rewrite decode_entry_encoded in Hgx by done. injection Hgx as ->. eauto.
      * by rewrite decode_entry_other in Hgx.
    + intros (z & -> & Hz). exists (Some (EInt z)). split; [|done].
      apply list_elem_of_fmap. exists (EStr (String p (PyStr.fmt_d z))). split.
      * unfold g. by rewrite decode_entry_encoded.
      * apply elem_of_set_iter, elem_of_union. left. apply elem_of_encoding. eauto.
  - intros x [Hx|Hx]%elem_of_set_iter%elem_of_union;
      apply elem_of_encoding in Hx as (z & -> & Hz); unfold g.
    + by rewrite decode_entry_encoded.
    + by rewrite decode_entry_other.
Qed.

(** Encoding a set of channel indices. *)
Lemma encode_side_plain p (S : gset Z) :
  encode_side p (plain S) = Ok (encoding p S).
Proof.
  unfold encode_side.
  set (g := fun x => match x with
                     | EInt z => EStr (String p (PyStr.fmt_d z))
                     | EStr _ => x
                     end).
  rewrite (rmap_ok_map _ g).
  - simpl. f_equal. apply set_eq. intros e.
    rewrite elem_of_list_to_set, list_elem_of_fmap, elem_of_encoding. split.
    + intros (x & -> & (z & -> & Hz)%elem_of_set_iter%elem_of_plain). eauto.
    + intros (z & -> & Hz). exists (EInt z). split; [done|].
      by apply elem_of_set_iter, elem_of_plain_int.
  - by intros x (z & -> & Hz)%elem_of_set_iter%elem_of_plain.
Qed.

End EncodingFacts.

(** * The transfer function, class by class *)

Lemma bwdonly_not_bidirectional (op : string) :
  op ∈ eltwise_ops_bwdonly -> op ∉ eltwise_ops_bidirectional.
Proof.
  unfold eltwise_ops_bwdonly. intros H.
  repeat (apply elem_of_cons in H as [->|H]); try by apply elem_of_nil in H.
  all: by apply (bool_decide_unpack _).
Qed.

Lemma dotprod_not_eltwise (op : string) :
  op ∈ dotprod_ops -> (op ∉ eltwise_ops_bidirectional) /\ (op ∉ eltwise_ops_bwdonly).
Proof.
  unfold dotprod_ops. intros H.
  repeat (apply elem_of_cons in H as [->|H]); try by apply elem_of_nil in H.
  all: split; by apply (bool_decide_unpack _).
Qed.

Section TransferFacts.
Context {O : PySetOrder}.
Implicit Types (node : NodeProto) (ins outs : list (gset elem)).

Lemma update_bidirectional node masks_in masks_out ins outs :
  op_type node ∈ eltwise_ops_bidirectional ->
  rmap ensure_masktype_is_set masks_in = Ok ins ->
  rmap ensure_masktype_is_set masks_out = Ok outs ->
  update_node_mask node masks_in masks_out
  = Ok ((fun _ => ⋃ ins ∪ ⋃ outs) <$> ins, (fun _ => ⋃ ins ∪ ⋃ outs) <$> outs).
Proof.
  intros Hop Hin Hout. unfold update_node_mask. rewrite Hin, Hout. simpl.
  by rewrite bool_decide_eq_true_2.
Qed.

Lemma update_bwdonly node masks_in masks_out ins outs :
  op_type node ∈ eltwise_ops_bwdonly ->
  rmap ensure_masktype_is_set masks_in = Ok ins ->
  rmap ensure_masktype_is_set masks_out = Ok outs ->
  update_node_mask node masks_in masks_out
  = Ok ((fun _ => ⋃ ins ∪ ⋃ outs) <$> ins, outs).
Proof.
  intros Hop Hin Hout. unfold update_node_mask. rewrite Hin, Hout. simpl.
  rewrite bool_decide_eq_false_2 by by apply bwdonly_not_bidirectional.
  by rewrite bool_decide_eq_true_2.
Qed.

Lemma update_unknown node masks_in masks_out ins outs :
  op_type node ∉ eltwise_ops_bidirectional ->
  op_type node ∉ eltwise_ops_bwdonly ->
  op_type node ∉ dotprod_ops ->
  rmap ensure_masktype_is_set masks_in = Ok ins ->
  rmap ensure_masktype_is_set masks_out = Ok outs ->
  update_node_mask node masks_in masks_out = Ok (ins, outs).
Proof.
  intros H1 H2 H3 Hin Hout. unfold update_node_mask. rewrite Hin, Hout. simpl.
  by rewrite !bool_decide_eq_false_2.
Qed.

Lemma dense_dotprod_op node : dense_dotprod node -> op_type node ∈ dotprod_ops.
Proof. intros [->|[-> _]]; by apply (bool_decide_unpack _). Qed.

Lemma dense_not_depthwise node :
  dense_dotprod node ->
  (if bool_decide (op_type node = "Conv")
   then groups ← get_group node; Ok (bool_decide (1 < groups))
   else Ok false) = Ok false.
Proof.
  intros [H|[H (g & Hg & Hle)]]; rewrite H.
  - done.
  - rewrite bool_decide_eq_true_2 by done. unfold get_group. rewrite Hg. simpl.
    by rewrite bool_decide_eq_false_2 by lia.
Qed.

Lemma depthwise_is_depthwise node :
  depthwise_conv node ->
  (if bool_decide (op_type node = "Conv")
   then groups ← get_group node; Ok (bool_decide (1 < groups))
   else Ok false) = Ok true.
Proof.
  intros [H (g & Hg & Hlt)]. rewrite H.
  rewrite bool_decide_eq_true_2 by done. unfold get_group. rewrite Hg. simpl.
  by rewrite bool_decide_eq_true_2 by lia.
Qed.

Lemma update_dense node masks_in masks_out (I Oset Win Wout : gset Z) w rest_in rest_out :
  dense_dotprod node ->
  rmap ensure_masktype_is_set masks_in = Ok (plain I :: w :: rest_in) ->
  rmap ensure_masktype_is_set masks_out = Ok (plain Oset :: rest_out) ->
  decode_side "i" w = Ok (plain Win) ->
  decode_side "o" w = Ok (plain Wout) ->
  update_node_mask node masks_in masks_out
  = Ok ([plain (Win ∪ I); encoding "i" (Win ∪ I) ∪ encoding "o" (Wout ∪ Oset)],
        [plain (Wout ∪ Oset)]).
Proof.
  intros Hd Hin Hout Hwi Hwo. unfold update_node_mask. rewrite Hin, Hout. simpl.
  destruct (dotprod_not_eltwise _ (dense_dotprod_op _ Hd)) as [H1 H2].
  rewrite !bool_decide_eq_false_2 by done.
  rewrite bool_decide_eq_true_2 by by apply dense_dotprod_op.
  rewrite (dense_not_depthwise _ Hd). simpl.
  rewrite Hwi, Hwo. simpl.
  rewrite <- !plain_union, !encode_side_plain. done.
Qed.

Lemma update_depthwise node masks_in masks_out (I Oset Win Wout : gset Z) w rest_in rest_out :
  depthwise_conv node ->
  rmap ensure_masktype_is_set masks_in = Ok (plain I :: w :: rest_in) ->
  rmap ensure_masktype_is_set masks_out = Ok (plain Oset :: rest_out) ->
  decode_side "i" w = Ok (plain Win) ->
  decode_side "o" w = Ok (plain Wout) ->
  update_node_mask node masks_in masks_out
  = Ok ([plain ((Win ∪ I) ∪ (Wout ∪ Oset)); encoding "o" ((Win ∪ I) ∪ (Wout ∪ Oset))],
        [plain ((Win ∪ I) ∪ (Wout ∪ Oset))]).
Proof.
  intros Hd Hin Hout Hwi Hwo. unfold update_node_mask. rewrite Hin, Hout. simpl.
  assert (Hop : op_type node ∈ dotprod_ops)
    by (destruct Hd as [-> _]; by apply (bool_decide_unpack _)).
  destruct (dotprod_not_eltwise _ Hop) as [H1 H2].
  rewrite !bool_decide_eq_false_2 by done.
  rewrite bool_decide_eq_true_2 by done.
  rewrite (depthwise_is_depthwise _ Hd). simpl.
  rewrite Hwi, Hwo. simpl.
  rewrite <- !plain_union, !encode_side_plain. done.
Qed.

End TransferFacts.

(** * One node of a propagation sweep, on the model *)

Lemma with_sparsity_same m : with_sparsity m (tensor_sparsity m) = m.
Proof. by destruct m. Qed.

Lemma write_masks_written l m :
  write_masks l m = (with_sparsity m (written l (tensor_sparsity m)), Ok tt).
Proof.
  revert m. induction l as [|[t s] r IH]; intros m; simpl.
  - by rewrite with_sparsity_same.
  - unfold mbind, M_bind, modify. rewrite IH. done.
Qed.

Lemma written_notin l σ t : t ∉ l.*1 -> written l σ !! t = σ !! t.
Proof.
  revert σ. induction l as [|[t' s'] r IH]; intros σ Ht; [done|].
  rewrite fmap_cons, not_elem_of_cons in Ht. destruct Ht as [Hne Ht].
  change (written r (<[t' := MSet s']> σ) !! t = σ !! t).
  rewrite IH by done. by rewrite lookup_insert_ne.
Qed.

(** When every write to [t] carries the same mask [s], [t] ends with [s]. *)
Lemma written_in l σ t s :
  t ∈ l.*1 -> (forall s', (t, s') ∈ l -> s' = s) -> written l σ !! t = Some (MSet s).
Proof.
  revert σ. induction l as [|[t' s'] r IH]; intros σ Ht Hs.
  - by apply elem_of_nil in Ht.
  - change (written r (<[t' := MSet s']> σ) !! t = Some (MSet s)).
    destruct (decide (t ∈ r.*1)) as [Hr|Hr].
    + apply IH; [done|]. intros s'' H. apply Hs. by right.
    + rewrite fmap_cons, elem_of_cons in Ht. destruct Ht as [Ht|Ht]; [|done].
      simpl in Ht. subst t'.
      rewrite written_notin by done. rewrite lookup_insert_eq.
      rewrite (Hs s') by left. done.
Qed.

Lemma elem_of_zip_l {A B} (l : list A) (k : list B) a b : (a, b) ∈ zip l k -> a ∈ l.
Proof.
  revert k. induction l as [|x r IH]; intros [|y k] H; simpl in H;
    try by apply elem_of_nil in H.
  apply elem_of_cons in H as [[= -> ->]|H]; [by left | right; eauto].
Qed.

Lemma elem_of_zip_r {A B} (l : list A) (k : list B) a b : (a, b) ∈ zip l k -> b ∈ k.
Proof.
  revert k. induction l as [|x r IH]; intros [|y k] H; simpl in H;
    try by apply elem_of_nil in H.
  apply elem_of_cons in H as [[= -> ->]|H]; [by left | right; eauto].
Qed.

Section NodeStep.
Context {O : PySetOrder}.

Lemma masks_read_length m names l : masks_read m names = Ok l -> length l = length names.
Proof. intros H%rmap_length. by rewrite length_fmap in H. Qed.

Lemma propagate_node_run node m ins outs new_in new_out :
  masks_read m (input node) = Ok ins ->
  masks_read m (output node) = Ok outs ->
  update_node_mask node (MSet <$> ins) (MSet <$> outs) = Ok (new_in, new_out) ->
  propagate_node node m
  = (with_sparsity m
       (written (zip (output node) new_out)
          (written (zip (input node) new_in) (tensor_sparsity m))),
     Ok (bool_decide (new_in ≠ ins) || bool_decide (new_out ≠ outs))).
Proof.
  unfold masks_read. intros Hin Hout Hupd.
  unfold propagate_node, mbind, M_bind, gets, lift, mret, M_ret.
  rewrite Hin, Hout, Hupd. by rewrite !write_masks_written.
Qed.

(** The mask of [t] after the step, when every write to [t] carries [s]. *)
Lemma get_written_in l σ m t s :
  t ∈ l.*1 -> (forall s', (t, s') ∈ l -> s' = s) ->
  get_tensor_sparsity (with_sparsity m (written l σ)) t = MSet s.
Proof.
  intros H1 H2. unfold get_tensor_sparsity. simpl. by rewrite (written_in _ _ _ s).
Qed.

End NodeStep.

Section NodeStepFacts.
Context {O : PySetOrder}.

Lemma masks_read_zip m names l t s :
  masks_read m names = Ok l -> (t, s) ∈ zip names l ->
  ensure_masktype_is_set (get_tensor_sparsity m t) = Ok s.
Proof.
  unfold masks_read. intros H%rmap_Ok_Forall2. revert l H.
  induction names as [|n names IH]; intros l H Hin.
  - by apply elem_of_nil in Hin.
  - rewrite fmap_cons in H. inversion H as [|? y ? l' Hy Hl]; subst.
    simpl in Hin. apply elem_of_cons in Hin as [[= -> ->]|Hin]; [done|].
    by apply (IH l').
Qed.

Lemma const_zip_writes {A} (names : list string) (l : list A) (U : gset elem) t s :
  (t, s) ∈ zip names ((fun _ => U) <$> l) -> s = U.
Proof.
  intros H%elem_of_zip_r. by apply list_elem_of_fmap in H as (? & -> & _).
Qed.

Lemma elem_of_union_list_subseteq (Xs : list (gset elem)) (X : gset elem) :
  X ∈ Xs -> X ⊆ ⋃ Xs.
Proof. intros H x Hx. apply elem_of_union_list. eauto. Qed.

Lemma dotprod_written m σ x wn rest y rest_o (a b c : gset elem) :
  x <> wn -> y <> x -> y <> wn ->
  let m' := with_sparsity m
              (written (zip (y :: rest_o) [c]) (written (zip (x :: wn :: rest) [a; b]) σ)) in
  get_tensor_sparsity m' x = MSet a
  /\ get_tensor_sparsity m' wn = MSet b
  /\ get_tensor_sparsity m' y = MSet c.
Proof.
  intros H1 H2 H3. unfold get_tensor_sparsity. simpl.
  assert (Z1 : zip rest_o (@nil (gset elem)) = []) by by destruct rest_o.
  assert (Z2 : zip rest (@nil (gset elem)) = []) by by destruct rest.
  rewrite Z1, Z2. unfold written. simpl.
  repeat split; by simplify_map_eq.
Qed.

End NodeStepFacts.

Lemma elem_of_indices (s : gset elem) (z : Z) : z ∈ indices s <-> EInt z ∈ s.
Proof.
  unfold indices. rewrite elem_of_list_to_set, list_elem_of_omap. split.
  - intros ([z'|?] & Hin & Heq); [|done]. injection Heq as ->. by apply elem_of_elements.
  - intros H. exists (EInt z). by rewrite elem_of_elements.
Qed.

Lemma all_int_plain (s : gset elem) :
  (forall x, x ∈ s -> exists z, x = EInt z) -> s = plain (indices s).
Proof.
  intros H. apply set_eq. intros e. rewrite elem_of_plain. split.
  - intros He. destruct (H e He) as [z ->]. exists z. by rewrite elem_of_indices.
  - intros (z & -> & Hz). by apply elem_of_indices.
Qed.

Lemma subseteq_plain (s : gset elem) (S : gset Z) : s ⊆ plain S -> exists S', s = plain S'.
Proof.
  intros H. exists (indices s). apply all_int_plain.
  intros x Hx. apply H, elem_of_plain in Hx as (z & -> & _). eauto.
Qed.

Section InversionFacts.
Context {O : PySetOrder}.

Lemma encode_side_Ok_plain p (s r : gset elem) :
  encode_side p s = Ok r -> exists S, s = plain S.
Proof.
  unfold encode_side. intros H.
  destruct (rmap (encode_entry p) (set_iter s)) as [l|] eqn:E; [|done].
  exists (indices s). apply all_int_plain. intros x Hx.
  apply rmap_Ok_Forall2 in E.
  apply elem_of_set_iter, list_elem_of_lookup in Hx as [i Hi].
  destruct (Forall2_lookup_l _ _ _ _ _ E Hi) as (y & _ & Hy).
  destruct x as [z|?]; [eauto | done].
Qed.

Lemma decode_side_Ok_plain p (w r : gset elem) :
  decode_side p w = Ok r -> exists S, decode_side p w = Ok (plain S).
Proof. intros H. destruct (decode_side_plain _ _ _ H) as [S ->]. eauto. Qed.

(** What a successful dot-product step was given. *)
Lemma update_dotprod_inv (node : NodeProto) (ins outs new_in new_out : list (gset elem)) :
  op_type node ∈ dotprod_ops ->
  update_node_mask node (MSet <$> ins) (MSet <$> outs) = Ok (new_in, new_out) ->
  exists (I Oset Win Wout : gset Z) w rest_in rest_out,
    ins = plain I :: w :: rest_in /\ outs = plain Oset :: rest_out
    /\ decode_side "i" w = Ok (plain Win) /\ decode_side "o" w = Ok (plain Wout)
    /\ (dense_dotprod node \/ depthwise_conv node).
Proof.
  intros Hop. destruct (dotprod_not_eltwise _ Hop) as [H1 H2].
  unfold update_node_mask. rewrite !rmap_ensure_sets. simpl.
  rewrite !bool_decide_eq_false_2 by done. rewrite bool_decide_eq_true_2 by done.
  set (dw := if bool_decide (op_type node = "Conv") then _ else _).
  destruct dw as [is_dw|] eqn:Edw; [|done]. simpl.
  destruct ins as [|i [|w rest_in]]; try done. simpl.
  destruct (decode_side "i" w) as [r1|] eqn:E1; [|done].
  destruct (decode_side "o" w) as [r2|] eqn:E2; [|done]. simpl.
  destruct outs as [|o rest_out]; [done|]. simpl.
  destruct (decode_side_plain _ _ _ E1) as [Win ->].
  destruct (decode_side_plain _ _ _ E2) as [Wout ->].
  assert (Hclass : is_dw = true /\ depthwise_conv node \/ is_dw = false /\ dense_dotprod node).
  { subst dw. unfold dense_dotprod, depthwise_conv.
    destruct (bool_decide (op_type node = "Conv")) eqn:Ec.
    - apply bool_decide_eq_true in Ec. unfold get_group in Edw.
      destruct (group node) as [g|] eqn:Eg; [|done]. simpl in Edw.
      injection Edw as <-. destruct (bool_decide (1 < g)) eqn:Eb.
      + apply bool_decide_eq_true in Eb. left. eauto 10.
      + apply bool_decide_eq_false in Eb. right. split; [done|]. right.
        split; [done|]. exists g. split; [done | lia].
    - apply bool_decide_eq_false in Ec. injection Edw as <-. right. split; [done|]. left.
      unfold dotprod_ops in Hop.
      repeat (apply elem_of_cons in Hop as [Hop|Hop]); try done.
      by apply elem_of_nil in Hop. }
  intros H.
  assert (Hplain : exists I Oset, i = plain I /\ o = plain Oset).
  { destruct Hclass as [[-> _]|[-> _]].
    - destruct (encode_side "o" _) as [r|] eqn:E; [|done].
      apply encode_side_Ok_plain in E as [S ES].
      destruct (subseteq_plain i S) as [I ->]; [rewrite <- ES; set_solver|].
      destruct (subseteq_plain o S) as [Oset ->]; [rewrite <- ES; set_solver|]. eauto.
    - destruct (encode_side "i" _) as [r|] eqn:E; [|done]. simpl in H.
      destruct (encode_side "o" _) as [r'|] eqn:E'; [|done].
      apply encode_side_Ok_plain in E as [S ES].
      apply encode_side_Ok_plain in E' as [S' ES'].
      destruct (subseteq_plain i S) as [I ->]; [rewrite <- ES; set_solver|].
      destruct (subseteq_plain o S') as [Oset ->]; [rewrite <- ES'; set_solver|]. eauto. }
  destruct Hplain as (I & Oset & -> & ->).
  exists I, Oset, Win, Wout, w, rest_in, rest_out.
  repeat split; try done. destruct Hclass as [[_ ?]|[_ ?]]; auto.
Qed.

End InversionFacts.

(** * The claims *)

Section Claims.
Context {O : PySetOrder}.

(** C7. Bidirectional elementwise operators (Mul, Div, MultiThreshold,
    Quant, Relu): the step computes the union [U] of all the input and
    output masks read at its start, returns [U] at every input and
    output position, and once the step has run on the model every input
    and output tensor of the node carries [U], so these masks are
    pairwise equal. *)
Theorem C7_bidirectional_union (node : NodeProto) (m : ModelWrapper)
    (ins outs : list (gset elem)) :
  op_type node ∈ eltwise_ops_bidirectional ->
  masks_read m (input node) = Ok ins ->
  masks_read m (output node) = Ok outs ->
  let U := ⋃ ins ∪ ⋃ outs in
  update_node_mask node (MSet <$> ins) (MSet <$> outs)
    = Ok (replicate (length (input node)) U, replicate (length (output node)) U)
  /\ exists m' changed,
       propagate_node node m = (m', Ok changed)
       /\ (forall t, t ∈ input node ++ output node -> get_tensor_sparsity m' t = MSet U)
       /\ (forall t1 t2, t1 ∈ input node ++ output node -> t2 ∈ input node ++ output node ->
             get_tensor_sparsity m' t1 = get_tensor_sparsity m' t2).
Proof.
  intros Hop Hin Hout U.
  pose proof (update_bidirectional node _ _ ins outs Hop
                (rmap_ensure_sets ins) (rmap_ensure_sets outs)) as Hupd.
  fold U in Hupd.
  pose proof (masks_read_length _ _ _ Hin) as Lin.
  pose proof (masks_read_length _ _ _ Hout) as Lout.
  split.
  { rewrite Hupd, <- Lin, <- Lout.
    by rewrite (const_fmap _ ins U), (const_fmap _ outs U) by done. }
  eexists _, _. split; [by apply (propagate_node_run _ _ ins outs)|].
  assert (Hall : forall t, t ∈ input node ++ output node ->
            get_tensor_sparsity
              (with_sparsity m
                 (written (zip (output node) ((fun _ => U) <$> outs))
                    (written (zip (input node) ((fun _ => U) <$> ins)) (tensor_sparsity m))))
              t = MSet U).
  { intros t Ht. destruct (decide (t ∈ output node)) as [Hto|Hto].
    - apply get_written_in.
      + rewrite fst_zip; [done|]. rewrite length_fmap. lia.
      + intros s' Hs'. by eapply const_zip_writes.
    - apply elem_of_app in Ht as [Hti|]; [|done].
      unfold get_tensor_sparsity. simpl.
      rewrite written_notin by (rewrite fst_zip; [done | rewrite length_fmap; lia]).
      rewrite (written_in _ _ _ U); [done| |].
      + rewrite fst_zip; [done|]. rewrite length_fmap. lia.
      + intros s' Hs'. by eapply const_zip_writes. }
  split; [exact Hall|].
  intros t1 t2 H1 H2. by rewrite !Hall.
Qed.

(** C8. Backward-only elementwise operators (Add, Sub,
    BatchNormalization): the step returns the union [U] of all the input
    and output masks at every input position and returns the output
    masks as they were read; on the model, every output tensor carries
    the mask that was read for it, and every input tensor that is not
    also an output carries [U]. *)
Theorem C8_backward_only (node : NodeProto) (m : ModelWrapper)
    (ins outs : list (gset elem)) :
  op_type node ∈ eltwise_ops_bwdonly ->
  masks_read m (input node) = Ok ins ->
  masks_read m (output node) = Ok outs ->
  let U := ⋃ ins ∪ ⋃ outs in
  update_node_mask node (MSet <$> ins) (MSet <$> outs)
    = Ok (replicate (length (input node)) U, outs)
  /\ exists m' changed,
       propagate_node node m = (m', Ok changed)
       /\ (forall t, t ∈ output node ->
             exists s, ensure_masktype_is_set (get_tensor_sparsity m t) = Ok s
                       /\ get_tensor_sparsity m' t = MSet s)
       /\ (forall t, t ∈ input node -> t ∉ output node -> get_tensor_sparsity m' t = MSet U).
Proof.
  intros Hop Hin Hout U.
  pose proof (update_bwdonly node _ _ ins outs Hop
                (rmap_ensure_sets ins) (rmap_ensure_sets outs)) as Hupd.
  fold U in Hupd.
  pose proof (masks_read_length _ _ _ Hin) as Lin.
  pose proof (masks_read_length _ _ _ Hout) as Lout.
  split.
  { rewrite Hupd, <- Lin. by rewrite (const_fmap _ ins U) by done. }
  eexists _, _. split; [by apply (propagate_node_run _ _ ins outs)|].
  split.
  - intros t Ht.
    assert (Hz : t ∈ (zip (output node) outs).*1) by (rewrite fst_zip; [done | lia]).
    apply list_elem_of_fmap in Hz as ([t' s] & Heq & Hts). simpl in Heq. subst t'.
    exists s. split; [by eapply masks_read_zip|].
    apply get_written_in.
    + rewrite fst_zip; [done | lia].
    + intros s' Hs'. pose proof (masks_read_zip _ _ _ _ _ Hout Hs') as E1.
      pose proof (masks_read_zip _ _ _ _ _ Hout Hts) as E2. congruence.
  - intros t Hti Hto. unfold get_tensor_sparsity. simpl.
    rewrite written_notin by (rewrite fst_zip; [done | lia]).
    rewrite (written_in _ _ _ U); [done| |].
    + rewrite fst_zip; [done|]. rewrite length_fmap. lia.
    + intros s' Hs'. by eapply const_zip_writes.
Qed.

(** C4. A dot-product node that is not depthwise (a MatMul, or a Conv
    whose group is at most 1): the step sets the data-input mask to
    merged_in, the indices decoded from the input side of the weight
    mask together with the input mask read, and the output mask to
    merged_out, likewise for the output side.  The two stay apart: an
    index that is in neither input-side mask is not in the new input
    mask, and conversely.  The new weight mask is the i-prefixed
    encoding of merged_in together with the o-prefixed encoding of
    merged_out, and decodes back to the two sets. *)
Theorem C4_dense_decoupled (node : NodeProto) (m : ModelWrapper)
    (x wn y : string) (rest rest_o : list string)
    (I Oset Win Wout : gset Z) (w : gset elem) (rest_in rest_out : list (gset elem)) :
  dense_dotprod node ->
  input node = x :: wn :: rest -> output node = y :: rest_o ->
  x <> wn -> y <> x -> y <> wn ->
  masks_read m (input node) = Ok (plain I :: w :: rest_in) ->
  masks_read m (output node) = Ok (plain Oset :: rest_out) ->
  decode_side "i" w = Ok (plain Win) ->
  decode_side "o" w = Ok (plain Wout) ->
  let merged_in := Win ∪ I in
  let merged_out := Wout ∪ Oset in
  let new_w := encoding "i" merged_in ∪ encoding "o" merged_out in
  update_node_mask node (MSet <$> (plain I :: w :: rest_in)) (MSet <$> (plain Oset :: rest_out))
    = Ok ([plain merged_in; new_w], [plain merged_out])
  /\ (exists m' changed,
        propagate_node node m = (m', Ok changed)
        /\ get_tensor_sparsity m' x = MSet (plain merged_in)
        /\ get_tensor_sparsity m' y = MSet (plain merged_out)
        /\ get_tensor_sparsity m' wn = MSet new_w)
  /\ (forall z, z ∉ Win -> z ∉ I -> EInt z ∉ plain merged_in)
  /\ (forall z, z ∉ Wout -> z ∉ Oset -> EInt z ∉ plain merged_out)
  /\ decode_side "i" new_w = Ok (plain merged_in)
  /\ decode_side "o" new_w = Ok (plain merged_out).
Proof.
  intros Hd Hi Ho Hxw Hyx Hyw Hin Hout Hwi Hwo merged_in merged_out new_w.
  pose proof (update_dense node _ _ I Oset Win Wout w rest_in rest_out Hd
                (rmap_ensure_sets _) (rmap_ensure_sets _) Hwi Hwo) as Hupd.
  split; [exact Hupd|]. split.
  { eexists _, _. split; [by eapply propagate_node_run|].
    rewrite Hi, Ho.
    destruct (dotprod_written m (tensor_sparsity m) x wn rest y rest_o
                (plain merged_in) new_w (plain merged_out) Hxw Hyx Hyw) as (Hx & Hw & Hy).
    done. }
  split; [|split; [|split]].
  - intros z H1 H2. rewrite elem_of_plain_int. unfold merged_in. set_solver.
  - intros z H1 H2. rewrite elem_of_plain_int. unfold merged_out. set_solver.
  - apply decode_encoding; [apply PyStrFacts.side_i | done].
  - unfold new_w. rewrite (union_comm_L (encoding "i" _)).
    apply decode_encoding; [apply PyStrFacts.side_o | done].
Qed.

(** C3. A Conv node whose group attribute exceeds 1: after the step the
    data-input mask and the output mask are the same set, the union of
    everything read on both sides; the new weight mask is the
    o-prefixed encoding of that set, so its output side decodes to the
    same set, its input side decodes to the empty set, and each of its
    entries is an o-prefixed string. *)
Theorem C3_depthwise_coupling (node : NodeProto) (m : ModelWrapper)
    (x wn y : string) (rest rest_o : list string)
    (I Oset Win Wout : gset Z) (w : gset elem) (rest_in rest_out : list (gset elem)) :
  depthwise_conv node ->
  input node = x :: wn :: rest -> output node = y :: rest_o ->
  x <> wn -> y <> x -> y <> wn ->
  masks_read m (input node) = Ok (plain I :: w :: rest_in) ->
  masks_read m (output node) = Ok (plain Oset :: rest_out) ->
  decode_side "i" w = Ok (plain Win) ->
  decode_side "o" w = Ok (plain Wout) ->
  let merged := (Win ∪ I) ∪ (Wout ∪ Oset) in
  exists m' changed new_w,
    propagate_node node m = (m', Ok changed)
    /\ get_tensor_sparsity m' x = MSet (plain merged)
    /\ get_tensor_sparsity m' y = MSet (plain merged)
    /\ get_tensor_sparsity m' wn = MSet new_w
    /\ decode_side "o" new_w = Ok (plain merged)
    /\ decode_side "i" new_w = Ok ∅
    /\ (forall e, e ∈ new_w -> exists z, e = EStr (String "o" (PyStr.fmt_d z))).
Proof.
  intros Hd Hi Ho Hxw Hyx Hyw Hin Hout Hwi Hwo merged.
  pose proof (update_depthwise node _ _ I Oset Win Wout w rest_in rest_out Hd
                (rmap_ensure_sets _) (rmap_ensure_sets _) Hwi Hwo) as Hupd.
  fold merged in Hupd.
  eexists _, _, (encoding "o" merged).
  split; [by eapply propagate_node_run|].
  rewrite Hi, Ho.
  destruct (dotprod_written m (tensor_sparsity m) x wn rest y rest_o
              (plain merged) (encoding "o" merged) (plain merged) Hxw Hyx Hyw)
    as (Hx & Hw & Hy).
  split; [done|]. split; [done|]. split; [done|].
  split; [|split].
  - pose proof (decode_encoding "o" "i" merged ∅ PyStrFacts.side_o) as H.
    rewrite encoding_empty, union_empty_r_L in H. by apply H.
  - pose proof (decode_encoding "i" "o" ∅ merged PyStrFacts.side_i) as H.
    rewrite encoding_empty, union_empty_l_L, plain_empty in H. by apply H.
  - intros e (z & -> & _)%elem_of_encoding. eauto.
Qed.

(** C1, as amended. Whenever a step returns, every output mask it
    returns contains the mask read at that position, and so does every
    input mask except the weight operand (position 1) of a MatMul or
    Conv.  The weight mask is rebuilt from the decoded index sets: on a
    node that is not depthwise its two decoded sides each contain the
    side decoded before, and its canonical entries are kept; on a
    depthwise Conv the decoded output side contains both sides decoded
    before and the decoded input side is empty. *)
Theorem C1_masks_grow (node : NodeProto) (ins outs new_in new_out : list (gset elem)) :
  update_node_mask node (MSet <$> ins) (MSet <$> outs) = Ok (new_in, new_out) ->
  (forall k old new, outs !! k = Some old -> new_out !! k = Some new -> old ⊆ new)
  /\ (forall k old new, ins !! k = Some old -> new_in !! k = Some new ->
        (op_type node ∈ dotprod_ops -> k <> 1%nat) -> old ⊆ new)
  /\ (op_type node ∈ dotprod_ops ->
      exists (Win Wout Win' Wout' : gset Z) (w new_w : gset elem),
        ins !! 1%nat = Some w /\ new_in !! 1%nat = Some new_w
        /\ decode_side "i" w = Ok (plain Win) /\ decode_side "o" w = Ok (plain Wout)
        /\ decode_side "i" new_w = Ok (plain Win')
        /\ decode_side "o" new_w = Ok (plain Wout')
        /\ (dense_dotprod node \/ depthwise_conv node)
        /\ (dense_dotprod node ->
              Win ⊆ Win' /\ Wout ⊆ Wout'
              /\ forall z, (EStr (String "i" (PyStr.fmt_d z)) ∈ w ->
                             EStr (String "i" (PyStr.fmt_d z)) ∈ new_w)
                        /\ (EStr (String "o" (PyStr.fmt_d z)) ∈ w ->
                             EStr (String "o" (PyStr.fmt_d z)) ∈ new_w))
        /\ (depthwise_conv node -> Win ∪ Wout ⊆ Wout' /\ Win' = ∅)).
Proof.
  intros Hupd.
  destruct (decide (op_type node ∈ dotprod_ops)) as [Hdot|Hdot].
  - destruct (update_dotprod_inv _ _ _ _ _ Hdot Hupd)
      as (I & Oset & Win & Wout & w & rest_in & rest_out & -> & -> & Hwi & Hwo & Hcls).
    assert (Hexcl : dense_dotprod node -> depthwise_conv node -> False).
    { intros [Hm|[_ (g & Hg & Hle)]] [Hc (g' & Hg' & Hlt)]; [congruence|].
      rewrite Hg in Hg'. injection Hg' as <-. lia. }
    destruct Hcls as [Hd|Hd].
    + rewrite (update_dense _ _ _ I Oset Win Wout w rest_in rest_out Hd
                 (rmap_ensure_sets _) (rmap_ensure_sets _) Hwi Hwo) in Hupd.
      injection Hupd as <- <-.
      split; [|split].
      * intros [|k] old new; simpl; [|by destruct k].
        intros [= <-] [= <-]. rewrite plain_union. set_solver.
      * intros [|[|k]] old new; simpl; try by destruct k.
        -- intros [= <-] [= <-] _. rewrite plain_union. set_solver.
        -- intros _ _ Hk. by destruct (Hk Hdot).
      * intros _. exists Win, Wout, (Win ∪ I), (Wout ∪ Oset), w,
          (encoding "i" (Win ∪ I) ∪ encoding "o" (Wout ∪ Oset)).
        split; [done|]. split; [done|]. split; [done|]. split; [done|].
        split; [apply decode_encoding; [apply PyStrFacts.side_i | done]|].
        split; [rewrite (union_comm_L (encoding "i" _));
                apply decode_encoding; [apply PyStrFacts.side_o | done]|].
        split; [by left|]. split; [|by intros ?; exfalso; auto].
        intros _. split; [set_solver|]. split; [set_solver|].
        intros z. split; intros Hz.
        -- apply elem_of_union. left. apply elem_of_encoding. exists z. split; [done|].
           apply elem_of_union. left. apply elem_of_plain_int.
           apply (decode_side_elem _ _ _ _ Hwi). eexists. split; [exact Hz|].
           apply decode_entry_encoded, PyStrFacts.side_i.
        -- apply elem_of_union. right. apply elem_of_encoding. exists z. split; [done|].
           apply elem_of_union. left. apply elem_of_plain_int.
           apply (decode_side_elem _ _ _ _ Hwo). eexists. split; [exact Hz|].
           apply decode_entry_encoded, PyStrFacts.side_o.
    + rewrite (update_depthwise _ _ _ I Oset Win Wout w rest_in rest_out Hd
                 (rmap_ensure_sets _) (rmap_ensure_sets _) Hwi Hwo) in Hupd.
      injection Hupd as <- <-.
      split; [|split].
      * intros [|k] old new; simpl; [|by destruct k].
        intros [= <-] [= <-]. rewrite !plain_union. set_solver.
      * intros [|[|k]] old new; simpl; try by destruct k.
        -- intros [= <-] [= <-] _. rewrite !plain_union. set_solver.
        -- intros _ _ Hk. by destruct (Hk Hdot).
      * intros _. exists Win, Wout, ∅, ((Win ∪ I) ∪ (Wout ∪ Oset)), w,
          (encoding "o" ((Win ∪ I) ∪ (Wout ∪ Oset))).
        split; [done|]. split; [done|]. split; [done|]. split; [done|].
        split.
        { pose proof (decode_encoding "i" "o" ∅ ((Win ∪ I) ∪ (Wout ∪ Oset))
                        PyStrFacts.side_i) as H.
          rewrite encoding_empty, union_empty_l_L in H. by apply H. }
        split.
        { pose proof (decode_encoding "o" "i" ((Win ∪ I) ∪ (Wout ∪ Oset)) ∅
                        PyStrFacts.side_o) as H.
          rewrite encoding_empty, union_empty_r_L in H. by apply H. }
        split; [by right|]. split; [by intros ?; exfalso; auto|].
        intros _. split; [set_solver | done].
  - split; [|split; [|done]].
    + destruct (decide (op_type node ∈ eltwise_ops_bidirectional)) as [Hb|Hb].
      * rewrite (update_bidirectional _ _ _ ins outs Hb
                   (rmap_ensure_sets _) (rmap_ensure_sets _)) in Hupd.
        injection Hupd as <- <-. intros k old new Hold Hnew.
        rewrite list_lookup_fmap, Hold in Hnew. injection Hnew as <-.
        etrans; [apply elem_of_union_list_subseteq; by eapply list_elem_of_lookup_2|].
        set_solver.
      * destruct (decide (op_type node ∈ eltwise_ops_bwdonly)) as [Hw|Hw].
        -- rewrite (update_bwdonly _ _ _ ins outs Hw
                      (rmap_ensure_sets _) (rmap_ensure_sets _)) in Hupd.
           injection Hupd as <- <-. intros k old new Hold Hnew. congruence.
        -- rewrite (update_unknown _ _ _ ins outs Hb Hw Hdot
                      (rmap_ensure_sets _) (rmap_ensure_sets _)) in Hupd.
           injection Hupd as <- <-. intros k old new Hold Hnew. congruence.
    + intros k old new Hold Hnew _.
      assert (Hcase : new = old \/ new = ⋃ ins ∪ ⋃ outs).
      { destruct (decide (op_type node ∈ eltwise_ops_bidirectional)) as [Hb|Hb].
        - rewrite (update_bidirectional _ _ _ ins outs Hb
                     (rmap_ensure_sets _) (rmap_ensure_sets _)) in Hupd.
          injection Hupd as <- <-.
          rewrite list_lookup_fmap, Hold in Hnew. injection Hnew as <-. by right.
        - destruct (decide (op_type node ∈ eltwise_ops_bwdonly)) as [Hw|Hw].
          + rewrite (update_bwdonly _ _ _ ins outs Hw
                       (rmap_ensure_sets _) (rmap_ensure_sets _)) in Hupd.
            injection Hupd as <- <-.
            rewrite list_lookup_fmap, Hold in Hnew. injection Hnew as <-. by right.
          + rewrite (update_unknown _ _ _ ins outs Hb Hw Hdot
                       (rmap_ensure_sets _) (rmap_ensure_sets _)) in Hupd.
            injection Hupd as <- <-. left. congruence. }
      destruct Hcase as [->| ->]; [done|].
      etrans; [apply elem_of_union_list_subseteq; by eapply list_elem_of_lookup_2|].
      set_solver.
Qed.

End Claims.

(** * Seeding *)

Lemma installed_graph l m : graph_node (installed l m) = graph_node m.
Proof. revert m. induction l as [|e l IH]; intros m; [done|]. simpl. by rewrite IH. Qed.

Lemma installed_initializer l m : initializer (installed l m) = initializer m.
Proof. revert m. induction l as [|e l IH]; intros m; [done|]. simpl. by rewrite IH. Qed.

Lemma installed_shape l m : tensor_shape (installed l m) = tensor_shape m.
Proof. revert m. induction l as [|e l IH]; intros m; [done|]. simpl. by rewrite IH. Qed.

Section SeedingFacts.
Context {O : PySetOrder}.

Lemma apply_mask_entry_Ok e m m' :
  apply_mask_entry e m = (m', Ok tt) -> m' = set_tensor_sparsity e.1 e.2 m.
Proof.
  destruct e as [key val]. unfold apply_mask_entry, mbind, M_bind, gets, lift, modify.
  destruct (is_dotprod_weight m key) as [b|]; [|done].
  destruct (b && _)%bool; simpl.
  - destruct (check_weight_mask val); [|done]. by intros [= <-].
  - by intros [= <-].
Qed.

Lemma apply_mask_entry_Raise e m m' err :
  apply_mask_entry e m = (m', Raise err) -> m' = m.
Proof.
  destruct e as [key val]. unfold apply_mask_entry, mbind, M_bind, gets, lift, modify.
  destruct (is_dotprod_weight m key) as [b|]; [|by intros [= <- _]].
  destruct (b && _)%bool; simpl.
  - destruct (check_weight_mask val); [done | by intros [= <- _]].
  - done.
Qed.

Lemma for_each_installed l m m' :
  for_each l apply_mask_entry m = (m', Ok tt) -> m' = installed l m.
Proof.
  revert m. induction l as [|e l IH]; intros m; simpl.
  - by intros [= <-].
  - unfold mbind, M_bind. destruct (apply_mask_entry e m) as [m1 [[]|]] eqn:E; [|done].
    apply apply_mask_entry_Ok in E as ->. apply IH.
Qed.

Lemma for_each_app {A} (l k : list A) (body : A -> M unit) m :
  for_each (l ++ k) body m
  = match for_each l body m with
    | (m1, Ok _) => for_each k body m1
    | (m1, Raise e) => (m1, Raise e)
    end.
Proof.
  revert m. induction l as [|x l IH]; intros m; simpl; [done|].
  unfold mbind, M_bind. destruct (body x m) as [m1 [[]|]]; [apply IH | done].
Qed.

(** The check looks at the first element of the mask and at its first
    letter, nothing else. *)
Lemma check_weight_mask_Ok val :
  check_weight_mask val = Ok tt <->
  exists l s, py_list val = Ok l /\ l !! 0%nat = Some (EStr s)
              /\ (PyStr.startswith s "i" = true \/ PyStr.startswith s "o" = true).
Proof.
  unfold check_weight_mask. split.
  - destruct (py_list val) as [l|]; [|done]. simpl.
    destruct (l !! 0%nat) as [[z|s]|] eqn:El; try done. simpl.
    unfold py_assert. destruct (_ || _)%bool eqn:E; [|done].
    intros _. exists l, s. split; [done|]. split; [done|]. by apply orb_true_iff in E.
  - intros (l & s & -> & Hl & Hs). simpl. rewrite Hl. simpl.
    unfold py_assert. by apply orb_true_iff in Hs as ->.
Qed.

Lemma check_weight_mask_None : check_weight_mask MNone = Raise TypeError.
Proof. done. Qed.

Lemma check_weight_mask_empty val :
  py_list val = Ok [] -> check_weight_mask val = Raise IndexError.
Proof. unfold check_weight_mask. by intros ->. Qed.

Lemma check_weight_mask_not_str val x l :
  py_list val = Ok (x :: l) -> is_str x = false ->
  check_weight_mask val = Raise (AssertionError "Weight masks must be strings").
Proof. unfold check_weight_mask. intros -> Hx. simpl. by rewrite Hx. Qed.

Lemma check_weight_mask_letter val s l :
  py_list val = Ok (EStr s :: l) ->
  PyStr.startswith s "i" = false -> PyStr.startswith s "o" = false ->
  check_weight_mask val = Raise (AssertionError "Weight masks must be formatted iX or oX").
Proof.
  unfold check_weight_mask. intros -> Hi Ho. simpl.
  change (str_startswith (EStr s) "i") with (PyStr.startswith s "i").
  change (str_startswith (EStr s) "o") with (PyStr.startswith s "o").
  by rewrite Hi, Ho.
Qed.

End SeedingFacts.

Section ClaimSeeding.
Context {O : PySetOrder}.

(** C2, as amended. Let the entry [(key, val)] of the prune spec name a
    tensor that has an initializer and is the second input of its first
    consumer, a Conv or MatMul, and let the entries before it have been
    seeded.  Seeding checks the first element of [val] and nothing else:
    it has to be a string that starts with "i" or with "o".  When it is,
    the entry is installed like any other.  In every other case the pass
    raises, and the model then holds the masks of the entries that came
    before and nothing of this entry or of the later ones.  The error is
    a [TypeError] when [val] is [None], an [IndexError] when [val] is
    empty, the assertion error "Weight masks must be strings" when the
    first element is not a string, and the assertion error "Weight masks
    must be formatted iX or oX" when it is a string with another first
    letter. *)
Theorem C2_seeding_check (pre post : prune_spec_t) (key : string) (val : mask_val)
    (m m1 : ModelWrapper) :
  is_dotprod_weight m key = Ok true ->
  is_Some (get_initializer m key) ->
  for_each pre apply_mask_entry m = (m1, Ok tt) ->
  m1 = installed pre m
  /\ (check_weight_mask val = Ok tt ->
        for_each (pre ++ [(key, val)]) apply_mask_entry m
        = (set_tensor_sparsity key val m1, Ok tt))
  /\ (forall err, check_weight_mask val = Raise err ->
        ApplyMasks_apply (pre ++ (key, val) :: post) m = (m1, Raise err))
  /\ (check_weight_mask val = Ok tt <->
        exists l s, py_list val = Ok l /\ l !! 0%nat = Some (EStr s)
                    /\ (PyStr.startswith s "i" = true \/ PyStr.startswith s "o" = true))
  /\ (val = MNone -> check_weight_mask val = Raise TypeError)
  /\ (py_list val = Ok [] -> check_weight_mask val = Raise IndexError)
  /\ (forall x l, py_list val = Ok (x :: l) -> is_str x = false ->
        check_weight_mask val = Raise (AssertionError "Weight masks must be strings"))
  /\ (forall s l, py_list val = Ok (EStr s :: l) ->
        PyStr.startswith s "i" = false -> PyStr.startswith s "o" = false ->
        check_weight_mask val
        = Raise (AssertionError "Weight masks must be formatted iX or oX")).
Proof.
  intros Hw Hinit Hpre.
  pose proof (for_each_installed _ _ _ Hpre) as Hm1.
  assert (Hw1 : is_dotprod_weight m1 key = Ok true).
  { rewrite <- Hw. unfold is_dotprod_weight, find_consumer.
    by rewrite Hm1, installed_graph. }
  assert (Hinit1 : bool_decide (is_Some (get_initializer m1 key)) = true).
  { apply bool_decide_eq_true. unfold get_initializer.
    by rewrite Hm1, installed_initializer. }
  split; [done|]. split; [|split; [|split; [|split; [|split; [|split]]]]].
  - intros Hc. rewrite for_each_app, Hpre. simpl.
    unfold mbind, M_bind, gets, lift, modify, mret, M_ret.
    by rewrite Hw1, Hinit1, Hc.
  - intros err Hc. unfold ApplyMasks_apply, mbind, M_bind.
    rewrite for_each_app, Hpre. simpl.
    unfold mbind, M_bind, gets, lift, modify, mret, M_ret.
    by rewrite Hw1, Hinit1, Hc.
  - apply check_weight_mask_Ok.
  - intros ->. apply check_weight_mask_None.
  - apply check_weight_mask_empty.
  - apply check_weight_mask_not_str.
  - apply check_weight_mask_letter.
Qed.

End ClaimSeeding.

(** * Removal *)

Lemma for_or_fixed {A} (l : list A) (body : A -> M bool) (m : ModelWrapper) (flag : bool) :
  (forall x, x ∈ l -> body x m = (m, Ok false)) ->
  for_or l body flag m = (m, Ok flag).
Proof.
  revert flag. induction l as [|x l IH]; intros flag H; simpl; [done|].
  unfold mbind, M_bind. rewrite (H x) by left.
  rewrite orb_false_r. apply IH. intros y Hy. apply H. by right.
Qed.

Section RemovalFacts.
Context {O : PySetOrder}.

Lemma py_list_not_skipped mask :
  mask_is_skipped mask = false -> exists l, py_list mask = Ok l.
Proof. destruct mask; simpl; eauto. done. Qed.

Lemma rmtc_scalar a mask axis l :
  scalar_like a -> py_list mask = Ok l ->
  remove_masked_tensor_channels (ArgArray a) mask axis = Ok (ArgArray a).
Proof.
  intros Hs Hl. unfold remove_masked_tensor_channels. rewrite Hl. simpl.
  assert (E : bool_decide (Np.ndim a = 0%nat) || bool_decide (Np.prod (shape a) = 1%nat) = true).
  { apply orb_true_iff. destruct Hs; [left | right]; by apply bool_decide_eq_true. }
  by rewrite E.
Qed.

Lemma remove_plain_scalar a mask :
  scalar_like a -> mask_is_skipped mask = false -> remove_plain a mask = Ok a.
Proof.
  intros Hs [l Hl]%py_list_not_skipped. unfold remove_plain.
  by rewrite (rmtc_scalar _ _ _ l).
Qed.

Lemma remove_matmul_scalar a mask li lo :
  scalar_like a -> decode_list "i" mask = Ok li -> decode_list "o" mask = Ok lo ->
  remove_matmul a mask = Ok a.
Proof.
  intros Hs Hi Ho. unfold remove_matmul. rewrite Hi, Ho. simpl.
  rewrite (rmtc_scalar _ _ _ li) by done. simpl.
  by rewrite (rmtc_scalar _ _ _ lo).
Qed.

(** The group check of the Conv branch, and what follows it. *)
Lemma remove_conv_checked node io_t io_shp mask i_mask o_mask ifm_w g :
  decode_list "i" mask = Ok i_mask -> decode_list "o" mask = Ok o_mask ->
  shape_item io_shp 1 = Ok ifm_w -> group node = Some g ->
  remove_conv node io_t io_shp mask
  = if bool_decide (g = 1) || bool_decide (ifm_w = 1%nat) then
      if bool_decide (1 < g) then
        new_t ← remove_masked_tensor_channels (ArgArray io_t) (MList o_mask) 0 ≫= as_array;
        n ← of_option (shape new_t !! 0%nat) IndexError;
        Ok (new_t, Some (Z.of_nat n))
      else
        new_t ← remove_masked_tensor_channels (ArgArray io_t) (MList i_mask) 1 ≫= as_array;
        new_t ← remove_masked_tensor_channels (ArgArray new_t) (MList o_mask) 0 ≫= as_array;
        Ok (new_t, None)
    else Raise (AssertionError "Unknown grouped conv setting").
Proof.
  intros Hi Ho Hs Hg. unfold remove_conv, get_group. rewrite Hi, Ho, Hs, Hg. simpl.
  unfold py_assert. by destruct (_ || _)%bool.
Qed.

Lemma remove_conv_scalar node a io_shp mask i_mask o_mask ifm_w g :
  scalar_like a ->
  decode_list "i" mask = Ok i_mask -> decode_list "o" mask = Ok o_mask ->
  shape_item io_shp 1 = Ok ifm_w -> group node = Some g ->
  g = 1 \/ ifm_w = 1%nat ->
  remove_conv node a io_shp mask
  = if bool_decide (1 < g)
    then n ← of_option (shape a !! 0%nat) IndexError; Ok (a, Some (Z.of_nat n))
    else Ok (a, None).
Proof.
  intros Hsc Hi Ho Hs Hg Hchk.
  rewrite (remove_conv_checked _ _ _ _ i_mask o_mask ifm_w g) by done.
  assert (E : bool_decide (g = 1) || bool_decide (ifm_w = 1%nat) = true).
  { apply orb_true_iff. destruct Hchk; [left | right]; by apply bool_decide_eq_true. }
  rewrite E. destruct (bool_decide (1 < g)).
  - by rewrite (rmtc_scalar _ _ _ o_mask).
  - rewrite (rmtc_scalar _ _ _ i_mask) by done. simpl.
    by rewrite (rmtc_scalar _ _ _ o_mask).
Qed.

Lemma remove_tensor_skipped k ioname m node :
  graph_node m !! k = Some node ->
  mask_is_skipped (get_tensor_sparsity m ioname) = true ->
  remove_tensor k ioname m = (m, Ok false).
Proof.
  intros Hk Hskip. unfold remove_tensor, mbind, M_bind, gets. rewrite Hk. simpl.
  by rewrite Hskip.
Qed.

(** Removal on a model whose masks are all [None] or the cleared
    value [{}]: nothing is touched and no change is reported. *)
Lemma removal_noop_when_cleared m :
  (forall t, mask_is_skipped (get_tensor_sparsity m t) = true) ->
  RemoveMaskedChannels_apply m = (m, Ok false).
Proof.
  intros Hall. unfold RemoveMaskedChannels_apply, mbind, M_bind, gets.
  apply for_or_fixed. intros k Hk%elem_of_seq.
  destruct (lookup_lt_is_Some_2 (graph_node m) k) as [node Hnode]; [lia|].
  unfold remove_node, mbind, M_bind. rewrite Hnode. simpl.
  apply for_or_fixed. intros t _. by eapply remove_tensor_skipped.
Qed.

End RemovalFacts.

Section ClaimsRemoval.
Context {O : PySetOrder}.

(** The group check as the code writes it: on the group attribute and
    on the axis-1 extent [ifm_w] of the recorded shape of the tensor
    being handled. *)
Lemma conv_group_check (k : nat) (node : NodeProto) (ioname : string) (io_t : ndarray)
    (shp : list nat) (i_mask o_mask : list elem) (ifm_w : nat) (g : Z) (m : ModelWrapper) :
  graph_node m !! k = Some node -> op_type node = "Conv" ->
  get_initializer m ioname = Some io_t ->
  get_tensor_shape m ioname = Some shp ->
  mask_is_skipped (get_tensor_sparsity m ioname) = false ->
  decode_list "i" (get_tensor_sparsity m ioname) = Ok i_mask ->
  decode_list "o" (get_tensor_sparsity m ioname) = Ok o_mask ->
  shp !! 1%nat = Some ifm_w -> group node = Some g ->
  (g <> 1 /\ ifm_w <> 1%nat ->
     remove_tensor k ioname m = (m, Raise (AssertionError "Unknown grouped conv setting")))
  /\ (g = 1 \/ ifm_w = 1%nat ->
       remove_conv node io_t (Some shp) (get_tensor_sparsity m ioname)
       = if bool_decide (1 < g) then
           new_t ← remove_masked_tensor_channels (ArgArray io_t) (MList o_mask) 0 ≫= as_array;
           n ← of_option (shape new_t !! 0%nat) IndexError;
           Ok (new_t, Some (Z.of_nat n))
         else
           new_t ← remove_masked_tensor_channels (ArgArray io_t) (MList i_mask) 1 ≫= as_array;
           new_t ← remove_masked_tensor_channels (ArgArray new_t) (MList o_mask) 0 ≫= as_array;
           Ok (new_t, None))
  /\ (forall m' r, remove_tensor k ioname m = (m', Ok r) -> g = 1 \/ ifm_w = 1%nat).
Proof.
  intros Hk Hop Hinit Hshp Hskip Hi Ho Hw Hg.
  assert (Hsi : shape_item (Some shp) 1 = Ok ifm_w) by (simpl; by rewrite Hw).
  pose proof (remove_conv_checked node io_t (Some shp) _ i_mask o_mask ifm_w g
                Hi Ho Hsi Hg) as Hconv.
  assert (Hrun : forall e,
            remove_conv node io_t (Some shp) (get_tensor_sparsity m ioname) = Raise e ->
            remove_tensor k ioname m = (m, Raise e)).
  { intros e He. unfold remove_tensor, mbind, M_bind, gets, lift.
    rewrite Hk. simpl. rewrite Hskip, Hinit, Hop. simpl.
    rewrite Hshp, He. done. }
  split; [|split].
  - intros [H1 H2]. apply Hrun. rewrite Hconv.
    by rewrite !bool_decide_eq_false_2 by done.
  - intros Hc. rewrite Hconv.
    assert (E : bool_decide (g = 1) || bool_decide (ifm_w = 1%nat) = true).
    { apply orb_true_iff. destruct Hc; [left | right]; by apply bool_decide_eq_true. }
    by rewrite E.
  - intros m' r Hr.
    destruct (decide (g = 1)) as [|Hg1]; [by left|].
    destruct (decide (ifm_w = 1%nat)) as [|Hw1]; [by right|].
    rewrite (Hrun (AssertionError "Unknown grouped conv setting")) in Hr; [done|].
    rewrite Hconv. by rewrite !bool_decide_eq_false_2 by done.
Qed.

(** C5. Removal on the weight of a Conv node, a tensor with an
    initializer and a mask that decodes.  The weight of a convolution
    over [C] input channels in [g] groups has [C / g] channels along its
    axis 1, so [C] is that extent times [g], with [g] at least 1.  When
    [g] is neither 1 nor [C], Removal raises the assertion error
    "Unknown grouped conv setting" and leaves the model as it was.  When
    [g] is 1 or [C] it goes on to the deletion, the depthwise one for a
    group above 1 and the dense one otherwise.  Removal gets through
    for these two settings only. *)
Theorem C5_group_check (k : nat) (node : NodeProto) (ioname : string) (io_t : ndarray)
    (shp : list nat) (i_mask o_mask : list elem) (ifm_w : nat) (g C : Z)
    (m : ModelWrapper) :
  graph_node m !! k = Some node -> op_type node = "Conv" ->
  get_initializer m ioname = Some io_t ->
  get_tensor_shape m ioname = Some shp ->
  mask_is_skipped (get_tensor_sparsity m ioname) = false ->
  decode_list "i" (get_tensor_sparsity m ioname) = Ok i_mask ->
  decode_list "o" (get_tensor_sparsity m ioname) = Ok o_mask ->
  shp !! 1%nat = Some ifm_w -> group node = Some g ->
  1 <= g -> C = Z.of_nat ifm_w * g ->
  (g <> 1 /\ g <> C ->
     remove_tensor k ioname m = (m, Raise (AssertionError "Unknown grouped conv setting")))
  /\ (g = 1 \/ g = C ->
       remove_conv node io_t (Some shp) (get_tensor_sparsity m ioname)
       = if bool_decide (1 < g) then
           new_t ← remove_masked_tensor_channels (ArgArray io_t) (MList o_mask) 0 ≫= as_array;
           n ← of_option (shape new_t !! 0%nat) IndexError;
           Ok (new_t, Some (Z.of_nat n))
         else
           new_t ← remove_masked_tensor_channels (ArgArray io_t) (MList i_mask) 1 ≫= as_array;
           new_t ← remove_masked_tensor_channels (ArgArray new_t) (MList o_mask) 0 ≫= as_array;
           Ok (new_t, None))
  /\ (forall m' r, remove_tensor k ioname m = (m', Ok r) -> g = 1 \/ g = C).
Proof.
  intros Hk Hop Hinit Hshp Hskip Hi Ho Hw Hg Hge HC.
  destruct (conv_group_check k node ioname io_t shp i_mask o_mask ifm_w g m
              Hk Hop Hinit Hshp Hskip Hi Ho Hw Hg) as (Hfail & Hgo & Honly).
  assert (Hto : g = 1 \/ g = C -> g = 1 \/ ifm_w = 1%nat).
  { intros [-> | HgC]; [by left|]. right. nia. }
  assert (Hfrom : g = 1 \/ ifm_w = 1%nat -> g = 1 \/ g = C).
  { intros [-> | ->]; [by left|]. right. lia. }
  split; [|split].
  - intros [H1 H2]. apply Hfail. split; [done|].
    intros Hone. apply H2. destruct (Hfrom (or_intror Hone)); done.
  - intros Hc. by apply Hgo, Hto.
  - intros m' r Hr. by eapply Hfrom, Honly.
Qed.

(** X21. The exemption of one-element tensors, where Removal reaches
    it.  An initializer of rank 0 or with a single element whose mask
    Removal does not skip, under a node of any operator other than
    MatMul and Conv, and under a MatMul or Conv once the mask decodes
    and the Conv checks pass: the pass handles the tensor, whatever the
    mask holds; every initializer and every recorded shape is as before,
    the mask of the tensor is the empty dict, the other masks are
    untouched, and the tensor counts as changed. *)
Theorem X21_scalar_exemption (k : nat) (node : NodeProto) (ioname : string)
    (io_t : ndarray) (mask : mask_val) (m : ModelWrapper) :
  graph_node m !! k = Some node ->
  get_initializer m ioname = Some io_t ->
  scalar_like io_t ->
  get_tensor_sparsity m ioname = mask ->
  mask_is_skipped mask = false ->
  reaches_deletion node io_t (get_tensor_shape m ioname) mask ->
  exists m',
    remove_tensor k ioname m = (m', Ok true)
    /\ initializer m' = initializer m
    /\ tensor_shape m' = tensor_shape m
    /\ get_tensor_sparsity m' ioname = MDict []
    /\ (forall t, t <> ioname -> get_tensor_sparsity m' t = get_tensor_sparsity m t).
Proof.
  intros Hk Hinit Hsc Hmask Hskip Hreach.
  unfold remove_tensor, mbind, M_bind, gets, lift, modify, mret, M_ret.
  rewrite Hk. simpl. rewrite Hmask, Hskip, Hinit.
  assert (Hid : <[ioname := io_t]> (initializer m) = initializer m)
    by by apply insert_id.
  unfold reaches_deletion in Hreach.
  destruct (bool_decide (op_type node = "MatMul")) eqn:Emm.
  - destruct Hreach as [Hi Ho].
    destruct (decode_list "i" mask) as [li|] eqn:Eli; [|done].
    destruct (decode_list "o" mask) as [lo|] eqn:Elo; [|done].
    rewrite (remove_matmul_scalar _ _ li lo) by done.
    eexists. split; [done|]. simpl. unfold get_tensor_sparsity. simpl.
    repeat split; try done; [by rewrite lookup_insert_eq|].
    intros t Ht. by rewrite lookup_insert_ne.
  - destruct (bool_decide (op_type node = "Conv")) eqn:Ecv.
    + destruct Hreach as (Hi & Ho & ifm_w & g & Hsi & Hg & Hchk & Hrank).
      destruct (decode_list "i" mask) as [li|] eqn:Eli; [|done].
      destruct (decode_list "o" mask) as [lo|] eqn:Elo; [|done].
      rewrite (remove_conv_scalar _ _ _ _ li lo ifm_w g) by done.
      destruct (bool_decide (1 < g)) eqn:Edw.
      * apply bool_decide_eq_true in Edw. specialize (Hrank Edw).
        destruct (shape io_t) as [|n rest] eqn:Eshape;
          [unfold Np.ndim in Hrank; rewrite Eshape in Hrank; simpl in Hrank; lia|].
        simpl. eexists. split; [done|]. simpl. unfold get_tensor_sparsity. simpl.
        repeat split; try done; [by rewrite lookup_insert_eq|].
        intros t Ht. by rewrite lookup_insert_ne.
      * simpl. eexists. split; [done|]. simpl. unfold get_tensor_sparsity. simpl.
        repeat split; try done; [by rewrite lookup_insert_eq|].
        intros t Ht. by rewrite lookup_insert_ne.
    + rewrite (remove_plain_scalar _ _ Hsc Hskip).
      eexists. split; [done|]. simpl. unfold get_tensor_sparsity. simpl.
      repeat split; try done; [by rewrite lookup_insert_eq|].
      intros t Ht. by rewrite lookup_insert_ne.
Qed.

End ClaimsRemoval.

(** * The orchestrator *)


(** C9, on the code. After a propagation sweep over a graph without
    masks every tensor carries the empty set.  Removal does not skip
    an empty set: on that graph it rewrites both masks to the empty
    dict and reports a change, while shapes stay as they were. *)
Theorem C9_empty_sets_report_change :
  PropagateMasks_apply (O := canonical_order) EmptySets.relu_graph
    = (EmptySets.relu_swept, Ok false)
  /\ (forall t, ensure_masktype_is_set (get_tensor_sparsity EmptySets.relu_swept t) = Ok ∅)
  /\ exists m',
       RemoveMaskedChannels_apply (O := canonical_order) EmptySets.relu_swept = (m', Ok true)
       /\ tensor_shape m' = tensor_shape EmptySets.relu_swept
       /\ get_tensor_sparsity EmptySets.relu_swept "x" = MSet ∅
       /\ get_tensor_sparsity m' "x" = MDict []
       /\ get_tensor_sparsity m' "y" = MDict [].
Proof.
  split; [by vm_compute|]. split.
  - intros t. unfold get_tensor_sparsity.
    change (tensor_sparsity EmptySets.relu_swept)
      with (<["y" := MSet ∅]> (<["x" := MSet ∅]> (∅ : gmap string mask_val))).
    destruct (decide (t = "y")) as [->|Hy]; [by rewrite lookup_insert_eq|].
    rewrite lookup_insert_ne by done.
    destruct (decide (t = "x")) as [->|Hx]; [by rewrite lookup_insert_eq|].
    by rewrite lookup_insert_ne, lookup_empty by done.
  - eexists. split; [by vm_compute|]. by vm_compute.
Qed.

(** On vectors the same sweep stops with an error: the empty deletion
    is still asked along axis 1, which a vector does not have. *)
Example removal_on_swept_vectors :
  (RemoveMaskedChannels_apply (O := canonical_order) EmptySets.add_swept).2 = Raise AxisError.
Proof. by vm_compute. Qed.

(** * The claims on concrete graphs *)

(** C1 as the claim states it fails on a depthwise convolution whose
    weight mask has an input-side entry: the weight mask read is
    {"i3"}, the one written back is {"o3"}. *)
Lemma C1_counterexample :
  ~ (forall (node : NodeProto) (ins outs new_in new_out : list (gset elem)),
       update_node_mask (O := canonical_order) node (MSet <$> ins) (MSet <$> outs)
         = Ok (new_in, new_out) ->
       forall k old new, ins !! k = Some old -> new_in !! k = Some new -> old ⊆ new).
Proof.
  intros H.
  specialize (H (conv_node 8) [∅; strs ["i3"]] [∅] [ints [3]; strs ["o3"]] [ints [3]]).
  assert (Hsub : strs ["i3"] ⊆ strs ["o3"]).
  { apply (H ltac:(by vm_compute) 1%nat); reflexivity. }
  assert (Hin : EStr "i3" ∈ strs ["o3"]) by (apply Hsub; by vm_compute).
  revert Hin. by vm_compute.
Qed.

Lemma C1_witness :
  update_node_mask (O := canonical_order) (conv_node 1)
    (MSet <$> [ints [2]; strs ["o1"; "i0"]]) (MSet <$> [∅])
  = Ok ([ints [0; 2]; strs ["i0"; "i2"; "o1"]], [ints [1]])
  /\ ints [2] ⊆ ints [0; 2] /\ (∅ : gset elem) ⊆ ints [1].
Proof.
  assert (H : update_node_mask (O := canonical_order) (conv_node 1)
                (MSet <$> [ints [2]; strs ["o1"; "i0"]]) (MSet <$> [∅])
              = Ok ([ints [0; 2]; strs ["i0"; "i2"; "o1"]], [ints [1]]))
    by (vm_compute; reflexivity).
  destruct (C1_masks_grow (O := canonical_order) _ _ _ _ _ H) as (Hout & Hin & _).
  split; [exact H|]. split.
  - apply (Hin 0%nat); [reflexivity | reflexivity | discriminate].
  - apply (Hout 0%nat); reflexivity.
Defined.

(** C2 as the claim states it fails in each of its three parts: only
    the first element of the mask is looked at; the error carries a
    fixed message; and the entries before the refused one are already
    installed when the error is raised. *)
Lemma C2_counterexample :
  ApplyMasks_apply (O := canonical_order)
    [("x", MSet (ints [1])); ("conv_w", MSet (ints [1; 2]))] (conv_model 1 4 4 [])
  = (set_tensor_sparsity "x" (MSet (ints [1])) (conv_model 1 4 4 []),
     Raise (AssertionError "Weight masks must be strings"))
  /\ get_tensor_sparsity (conv_model 1 4 4 []) "x" = MNone
  /\ get_tensor_sparsity (set_tensor_sparsity "x" (MSet (ints [1])) (conv_model 1 4 4 [])) "x"
     = MSet (ints [1])
  /\ ApplyMasks_apply (O := canonical_order)
       [("conv_w", MList [EStr "i1"; EInt 2; EStr "left"])] (conv_model 1 4 4 [])
     = (set_tensor_sparsity "conv_w" (MList [EStr "i1"; EInt 2; EStr "left"])
          (conv_model 1 4 4 []),
        Ok false).
Proof. repeat split; vm_compute; reflexivity. Qed.

Lemma C2_witness :
  ApplyMasks_apply (O := canonical_order)
    ([("x", MSet (ints [1]))] ++ ("conv_w", MSet (ints [1; 2])) :: [("y", MSet (ints [0]))])
    (conv_model 1 4 4 [])
  = (installed [("x", MSet (ints [1]))] (conv_model 1 4 4 []),
     Raise (AssertionError "Weight masks must be strings"))
  /\ ApplyMasks_apply (O := canonical_order)
       ([("x", MSet (ints [1]))] ++ ("conv_w", MSet ∅) :: [("y", MSet (ints [0]))])
       (conv_model 1 4 4 [])
     = (installed [("x", MSet (ints [1]))] (conv_model 1 4 4 []), Raise IndexError)
  /\ ApplyMasks_apply (O := canonical_order)
       ([("x", MSet (ints [1]))] ++ ("conv_w", MNone) :: [("y", MSet (ints [0]))])
       (conv_model 1 4 4 [])
     = (installed [("x", MSet (ints [1]))] (conv_model 1 4 4 []), Raise TypeError).
Proof.
  split; [|split].
  - destruct (C2_seeding_check (O := canonical_order)
                [("x", MSet (ints [1]))] [("y", MSet (ints [0]))] "conv_w" (MSet (ints [1; 2]))
                (conv_model 1 4 4 []) (installed [("x", MSet (ints [1]))] (conv_model 1 4 4 [])))
      as (_ & _ & Hraise & _ & _ & _ & Hstr & _).
    + vm_compute; reflexivity.
    + eexists; vm_compute; reflexivity.
    + vm_compute; reflexivity.
    + apply Hraise. apply (Hstr (EInt 2) [EInt 1]); vm_compute; reflexivity.
  - destruct (C2_seeding_check (O := canonical_order)
                [("x", MSet (ints [1]))] [("y", MSet (ints [0]))] "conv_w" (MSet ∅)
                (conv_model 1 4 4 []) (installed [("x", MSet (ints [1]))] (conv_model 1 4 4 [])))
      as (_ & _ & Hraise & _ & _ & Hempty & _).
    + vm_compute; reflexivity.
    + eexists; vm_compute; reflexivity.
    + vm_compute; reflexivity.
    + apply Hraise. apply Hempty. vm_compute; reflexivity.
  - destruct (C2_seeding_check (O := canonical_order)
                [("x", MSet (ints [1]))] [("y", MSet (ints [0]))] "conv_w" MNone
                (conv_model 1 4 4 []) (installed [("x", MSet (ints [1]))] (conv_model 1 4 4 [])))
      as (_ & _ & Hraise & _ & Hnone & _).
    + vm_compute; reflexivity.
    + eexists; vm_compute; reflexivity.
    + vm_compute; reflexivity.
    + apply Hraise. apply Hnone. reflexivity.
Defined.

Lemma C3_witness :
  exists m' changed,
    propagate_node (O := canonical_order) (conv_node 8)
      (conv_model 8 1 8 [("x", MSet (ints [2])); ("conv_w", MSet (strs ["o1"; "i0"]))])
    = (m', Ok changed)
    /\ get_tensor_sparsity m' "x" = MSet (ints [0; 1; 2])
    /\ get_tensor_sparsity m' "y" = MSet (ints [0; 1; 2])
    /\ get_tensor_sparsity m' "conv_w" = MSet (strs ["o0"; "o1"; "o2"]).
Proof.
  destruct (C3_depthwise_coupling (O := canonical_order) (conv_node 8)
              (conv_model 8 1 8 [("x", MSet (ints [2])); ("conv_w", MSet (strs ["o1"; "i0"]))])
              "x" "conv_w" "y" [] [] {[2]} ∅ {[0]} {[1]} (strs ["o1"; "i0"]) [] [])
    as (m' & changed & new_w & Hrun & Hx & Hy & Hw & _).
  - split; [reflexivity|]. exists 8. split; [reflexivity | lia].
  - reflexivity.
  - reflexivity.
  - discriminate.
  - discriminate.
  - discriminate.
  - vm_compute; reflexivity.
  - vm_compute; reflexivity.
  - vm_compute; reflexivity.
  - vm_compute; reflexivity.
  - exists m', changed. split; [exact Hrun|].
    rewrite Hx, Hy. split; [vm_compute; reflexivity|]. split; [vm_compute; reflexivity|].
    clear -Hrun. vm_compute in Hrun. injection Hrun as <- _.
    vm_compute. reflexivity.
Defined.

Lemma C4_witness :
  exists m' changed,
    propagate_node (O := canonical_order) (conv_node 1)
      (conv_model 1 4 4 [("x", MSet (ints [2])); ("conv_w", MSet (strs ["o1"; "i0"]))])
    = (m', Ok changed)
    /\ get_tensor_sparsity m' "x" = MSet (ints [0; 2])
    /\ get_tensor_sparsity m' "y" = MSet (ints [1])
    /\ get_tensor_sparsity m' "conv_w" = MSet (strs ["i0"; "i2"; "o1"]).
Proof.
  destruct (C4_dense_decoupled (O := canonical_order) (conv_node 1)
              (conv_model 1 4 4 [("x", MSet (ints [2])); ("conv_w", MSet (strs ["o1"; "i0"]))])
              "x" "conv_w" "y" [] [] {[2]} ∅ {[0]} {[1]} (strs ["o1"; "i0"]) [] [])
    as (_ & (m' & changed & Hrun & Hx & Hy & Hw) & _).
  - right. split; [reflexivity|]. exists 1. split; [reflexivity | lia].
  - reflexivity.
  - reflexivity.
  - discriminate.
  - discriminate.
  - discriminate.
  - vm_compute; reflexivity.
  - vm_compute; reflexivity.
  - vm_compute; reflexivity.
  - vm_compute; reflexivity.
  - exists m', changed. split; [exact Hrun|].
    rewrite Hx, Hy, Hw. repeat split; vm_compute; reflexivity.
Defined.

Lemma C5_witness :
  input_channels (conv_model 2 4 8 [("conv_w", MSet (strs ["o1"]))]) 0 = Some 8%nat
  /\ remove_tensor (O := canonical_order) 0 "conv_w"
       (conv_model 2 4 8 [("conv_w", MSet (strs ["o1"]))])
     = (conv_model 2 4 8 [("conv_w", MSet (strs ["o1"]))],
        Raise (AssertionError "Unknown grouped conv setting")).
Proof.
  split; [reflexivity|].
  destruct (C5_group_check (O := canonical_order) 0 (conv_node 2) "conv_w"
              (mk_ndarray [8; 4; 1; 1]%nat (Z.of_nat <$> seq 0 32))
              [8; 4; 1; 1]%nat [] [EInt 1] 4 2 8
              (conv_model 2 4 8 [("conv_w", MSet (strs ["o1"]))]))
    as (Hfail & _).
  - reflexivity.
  - reflexivity.
  - vm_compute; reflexivity.
  - vm_compute; reflexivity.
  - vm_compute; reflexivity.
  - vm_compute; reflexivity.
  - vm_compute; reflexivity.
  - reflexivity.
  - reflexivity.
  - lia.
  - reflexivity.
  - apply Hfail. split; [lia | lia].
Defined.

Lemma C7_witness :
  exists m' changed,
    propagate_node (O := canonical_order) relu_node
      (one_node relu_node [("x", MSet (ints [2])); ("y", MSet (ints [5]))])
    = (m', Ok changed)
    /\ get_tensor_sparsity m' "x" = MSet (ints [2; 5])
    /\ get_tensor_sparsity m' "y" = MSet (ints [2; 5]).
Proof.
  destruct (C7_bidirectional_union (O := canonical_order) relu_node
              (one_node relu_node [("x", MSet (ints [2])); ("y", MSet (ints [5]))])
              [ints [2]] [ints [5]])
    as (_ & m' & changed & Hrun & Hall & _).
  - by apply (bool_decide_unpack _).
  - vm_compute; reflexivity.
  - vm_compute; reflexivity.
  - exists m', changed. split; [exact Hrun|].
    rewrite !Hall by (by apply (bool_decide_unpack _)).
    split; vm_compute; reflexivity.
Defined.

Lemma C8_witness :
  exists m' changed,
    propagate_node (O := canonical_order) add_node
      (one_node add_node [("x", MSet (ints [2])); ("y", MSet (ints [5]))])
    = (m', Ok changed)
    /\ get_tensor_sparsity m' "x" = MSet (ints [2; 5])
    /\ get_tensor_sparsity m' "b" = MSet (ints [2; 5])
    /\ get_tensor_sparsity m' "y" = MSet (ints [5]).
Proof.
  destruct (C8_backward_only (O := canonical_order) add_node
              (one_node add_node [("x", MSet (ints [2])); ("y", MSet (ints [5]))])
              [ints [2]; ∅] [ints [5]])
    as (_ & m' & changed & Hrun & Hout & Hin).
  - by apply (bool_decide_unpack _).
  - vm_compute; reflexivity.
  - vm_compute; reflexivity.
  - exists m', changed. split; [exact Hrun|].
    rewrite !Hin by (by apply (bool_decide_unpack _)).
    split; [vm_compute; reflexivity|]. split; [vm_compute; reflexivity|].
    destruct (Hout "y" ltac:(by apply (bool_decide_unpack _))) as (s & Hs & ->).
    vm_compute in Hs. by injection Hs as <-.
Defined.

(** C10, on the code. A MatMul whose data input [s] is a constant with
    one element and whose weight is seeded with {"i0"}: the propagation
    sweep writes the plain mask {0} on [s].  Removal takes the MatMul
    branch for every masked initializer of the node, reads the mask of
    [s] as prefixed strings and raises on the integer 0, before the
    exemption of one-element tensors is reached: the mask of [s] is not
    cleared and no change is reported.  The same mask on the one-element
    constant of a Mul node is handled as the claim says: the tensor
    stays, the mask is cleared, a change is reported. *)
Theorem C10_exemption_not_reached :
  get_initializer const_matmul_swept "s" = Some (mk_ndarray [1; 1]%nat [3])
  /\ scalar_like (mk_ndarray [1; 1]%nat [3])
  /\ get_tensor_sparsity const_matmul_swept "s" = MSet (ints [0])
  /\ mask_is_skipped (get_tensor_sparsity const_matmul_swept "s") = false
  /\ remove_tensor (O := canonical_order) 0 "s" const_matmul_swept
     = (const_matmul_swept, Raise AttributeError)
  /\ RemoveMaskedChannels_apply (O := canonical_order) const_matmul_swept
     = (const_matmul_swept, Raise AttributeError)
  /\ (exists m',
        remove_tensor (O := canonical_order) 0 "s" (scale_model [("s", MSet (ints [0]))])
        = (m', Ok true)
        /\ get_initializer m' "s" = Some (mk_ndarray [1]%nat [3])
        /\ get_tensor_shape m' "s" = Some [1]%nat
        /\ get_tensor_sparsity m' "s" = MDict []).
Proof.
  split; [vm_compute; reflexivity|]. split; [right; reflexivity|].
  split; [vm_compute; reflexivity|]. split; [vm_compute; reflexivity|].
  split; [vm_compute; reflexivity|]. split; [vm_compute; reflexivity|].
  eexists. split; [vm_compute; reflexivity|]. repeat split; vm_compute; reflexivity.
Qed.

Lemma X21_witness :
  exists m',
    remove_tensor (O := canonical_order) 0 "s"
      (scale_model [("s", MSet ({[EInt 7; EStr "anything"]}))])
    = (m', Ok true)
    /\ get_initializer m' "s" = Some (mk_ndarray [1]%nat [3])
    /\ get_tensor_shape m' "s" = Some [1]%nat
    /\ get_tensor_sparsity m' "s" = MDict [].
Proof.
  destruct (X21_scalar_exemption (O := canonical_order) 0
              (mk_node "scale" "Mul" ["x"; "s"] ["y"] None) "s"
              (mk_ndarray [1]%nat [3]) (MSet ({[EInt 7; EStr "anything"]}))
              (scale_model [("s", MSet ({[EInt 7; EStr "anything"]}))]))
    as (m' & Hrun & Hinit & Hshape & Hmask & _).
  - reflexivity.
  - vm_compute; reflexivity.
  - right. reflexivity.
  - vm_compute; reflexivity.
  - reflexivity.
  - exact I.
  - exists m'. split; [exact Hrun|].
    unfold get_initializer, get_tensor_shape. rewrite Hinit, Hshape, Hmask.
    repeat split; vm_compute; reflexivity.
Defined.


(** * Further properties of the transfer function *)

Lemma union_list_const {A} (l : list A) (U : gset elem) :
  l <> [] -> ⋃ ((fun _ => U) <$> l) = U.
Proof.
  induction l as [|x [|y l] IH]; intros Hne; [done| |].
  - simpl. by rewrite union_empty_r_L.
  - rewrite fmap_cons. simpl in *. rewrite IH by done. by rewrite union_idemp_L.
Qed.

Lemma fmap_const_twice {A} (l : list A) (U V : gset elem) :
  (l <> [] -> V = U) ->
  (fun _ => V) <$> ((fun _ => U) <$> l) = (fun _ => U) <$> l.
Proof.
  intros H. destruct l as [|x l]; [done|].
  rewrite H by done. rewrite <- list_fmap_compose. done.
Qed.

Section TransferMore.
Context {O : PySetOrder}.

(** X1. A step of the transfer function is idempotent: run again on
    the masks it returned, it returns them unchanged, whatever the
    operator. *)
Theorem X1_step_idempotent (node : NodeProto) (ins outs new_in new_out : list (gset elem)) :
  update_node_mask node (MSet <$> ins) (MSet <$> outs) = Ok (new_in, new_out) ->
  update_node_mask node (MSet <$> new_in) (MSet <$> new_out) = Ok (new_in, new_out).
Proof.
  intros Hupd.
  destruct (decide (op_type node ∈ dotprod_ops)) as [Hdot|Hdot].
  - destruct (update_dotprod_inv _ _ _ _ _ Hdot Hupd)
      as (I & Oset & Win & Wout & w & rest_in & rest_out & -> & -> & Hwi & Hwo & Hcls).
    destruct Hcls as [Hd|Hd].
    + rewrite (update_dense _ _ _ I Oset Win Wout w rest_in rest_out Hd
                 (rmap_ensure_sets _) (rmap_ensure_sets _) Hwi Hwo) in Hupd.
      injection Hupd as <- <-.
      rewrite (update_dense _ _ _ (Win ∪ I) (Wout ∪ Oset) (Win ∪ I) (Wout ∪ Oset)
                 (encoding "i" (Win ∪ I) ∪ encoding "o" (Wout ∪ Oset)) [] [] Hd
                 (rmap_ensure_sets _) (rmap_ensure_sets _)).
      * by rewrite !union_idemp_L.
      * apply decode_encoding; [apply PyStrFacts.side_i | done].
      * rewrite (union_comm_L (encoding "i" _)).
        apply decode_encoding; [apply PyStrFacts.side_o | done].
    + rewrite (update_depthwise _ _ _ I Oset Win Wout w rest_in rest_out Hd
                 (rmap_ensure_sets _) (rmap_ensure_sets _) Hwi Hwo) in Hupd.
      injection Hupd as <- <-.
      set (merged := (Win ∪ I) ∪ (Wout ∪ Oset)).
      rewrite (update_depthwise _ _ _ merged merged ∅ merged (encoding "o" merged) [] [] Hd
                 (rmap_ensure_sets _) (rmap_ensure_sets _)).
      * replace ((∅ ∪ merged) ∪ (merged ∪ merged)) with merged by set_solver. done.
      * pose proof (decode_encoding "i" "o" ∅ merged PyStrFacts.side_i) as H.
        rewrite encoding_empty, union_empty_l_L in H. by apply H.
      * pose proof (decode_encoding "o" "i" merged ∅ PyStrFacts.side_o) as H.
        rewrite encoding_empty, union_empty_r_L in H. by apply H.
  - destruct (decide (op_type node ∈ eltwise_ops_bidirectional)) as [Hb|Hb].
    + rewrite (update_bidirectional _ _ _ ins outs Hb
                 (rmap_ensure_sets _) (rmap_ensure_sets _)) in Hupd.
      injection Hupd as <- <-.
      rewrite (update_bidirectional _ _ _ _ _ Hb (rmap_ensure_sets _) (rmap_ensure_sets _)).
      set (U := ⋃ ins ∪ ⋃ outs).
      assert (HU : ins <> [] \/ outs <> [] ->
                   ⋃ ((fun _ => U) <$> ins) ∪ ⋃ ((fun _ => U) <$> outs) = U).
      { intros _. destruct ins as [|i ins], outs as [|o outs].
        - unfold U. simpl. set_solver.
        - rewrite (union_list_const (o :: outs)) by done. simpl. set_solver.
        - rewrite (union_list_const (i :: ins)) by done. simpl. set_solver.
        - rewrite (union_list_const (i :: ins)), (union_list_const (o :: outs)) by done.
          set_solver. }
      f_equal. f_equal; apply fmap_const_twice; intros ?; apply HU; auto.
    + destruct (decide (op_type node ∈ eltwise_ops_bwdonly)) as [Hw|Hw].
      * rewrite (update_bwdonly _ _ _ ins outs Hw
                   (rmap_ensure_sets _) (rmap_ensure_sets _)) in Hupd.
        injection Hupd as <- <-.
        rewrite (update_bwdonly _ _ _ _ _ Hw (rmap_ensure_sets _) (rmap_ensure_sets _)).
        f_equal. f_equal. apply fmap_const_twice. intros Hne.
        rewrite (union_list_const ins) by done. set_solver.
      * rewrite (update_unknown _ _ _ ins outs Hb Hw Hdot
                   (rmap_ensure_sets _) (rmap_ensure_sets _)) in Hupd.
        injection Hupd as <- <-.
        by apply update_unknown; auto using rmap_ensure_sets.
Qed.

End TransferMore.

(** * Further properties of the propagation sweep *)

Lemma for_or_invariant {A} (Inv : ModelWrapper -> Prop) (l : list A) (body : A -> M bool)
    (flag : bool) (m m' : ModelWrapper) (r : Result bool) :
  Inv m ->
  (forall x m1 m2 r1, x ∈ l -> Inv m1 -> body x m1 = (m2, r1) -> Inv m2) ->
  for_or l body flag m = (m', r) -> Inv m'.
Proof.
  revert flag m. induction l as [|x l IH]; intros flag m Hm Hstep; simpl.
  - by intros [= <- _].
  - unfold mbind, M_bind. destruct (body x m) as [m1 [b|e]] eqn:E.
    + apply IH.
      * eapply Hstep; [by left | exact Hm | exact E].
      * intros y ? ? ? Hy. apply Hstep. by right.
    + intros [= <- _]. eapply Hstep; [by left | exact Hm | exact E].
Qed.

Lemma for_or_flag {A} (l : list A) (body : A -> M bool) (flag : bool) m m' b :
  for_or l body flag m = (m', Ok b) -> flag = true -> b = true.
Proof.
  revert flag m. induction l as [|x l IH]; intros flag m; simpl.
  - intros [= _ <-]. done.
  - unfold mbind, M_bind. destruct (body x m) as [m1 [b1|e]]; [|done].
    intros H ->. by eapply IH.
Qed.

Lemma same_structure_refl m : same_structure m m.
Proof. done. Qed.

Lemma same_structure_trans m1 m2 m3 :
  same_structure m1 m2 -> same_structure m2 m3 -> same_structure m1 m3.
Proof. intros (? & ? & ?) (? & ? & ?). repeat split; congruence. Qed.

Lemma mask_equiv_trans m1 m2 m3 : mask_equiv m1 m2 -> mask_equiv m2 m3 -> mask_equiv m1 m3.
Proof. intros H1 H2 t. by rewrite H2, H1. Qed.

Lemma rmap_fmap_ext {A B C} (f f' : B -> Result C) (g g' : A -> B) (l : list A) :
  (forall x, x ∈ l -> f (g x) = f' (g' x)) -> rmap f (g <$> l) = rmap f' (g' <$> l).
Proof.
  induction l as [|x l IH]; intros H; [done|].
  rewrite !fmap_cons. simpl. rewrite (H x) by left.
  rewrite IH; [done|]. intros y Hy. apply H. by right.
Qed.

Lemma masks_read_equiv m m' names : mask_equiv m m' -> masks_read m' names = masks_read m names.
Proof. intros H. unfold masks_read. apply rmap_fmap_ext. intros t _. apply H. Qed.

Lemma masks_read_names m names l t :
  masks_read m names = Ok l -> t ∈ names ->
  exists s, ensure_masktype_is_set (get_tensor_sparsity m t) = Ok s.
Proof.
  intros H Ht.
  assert (Hz : t ∈ (zip names l).*1).
  { rewrite fst_zip; [done|]. apply masks_read_length in H. lia. }
  apply list_elem_of_fmap in Hz as ([t' s] & -> & Hts).
  exists s. by eapply masks_read_zip.
Qed.

Lemma not_elem_of_fst_zip {A B} `{EqDecision A} (l : list A) (k : list B) (t : A) :
  t ∉ l -> t ∉ (zip l k).*1.
Proof.
  intros Ht ([a b] & -> & Hp)%list_elem_of_fmap. apply Ht. by eapply elem_of_zip_l.
Qed.

Section SweepFacts.
Context {O : PySetOrder}.

(** The two ways a node step ends. *)
Lemma propagate_node_cases node m m' r :
  propagate_node node m = (m', r) ->
  (m' = m /\ exists e, r = Raise e) \/
  (exists ins outs new_in new_out,
     masks_read m (input node) = Ok ins /\ masks_read m (output node) = Ok outs
     /\ update_node_mask node (MSet <$> ins) (MSet <$> outs) = Ok (new_in, new_out)
     /\ m' = with_sparsity m
               (written (zip (output node) new_out)
                  (written (zip (input node) new_in) (tensor_sparsity m)))
     /\ r = Ok (bool_decide (new_in ≠ ins) || bool_decide (new_out ≠ outs))).
Proof.
  destruct (masks_read m (input node)) as [ins|e] eqn:Ein.
  - destruct (masks_read m (output node)) as [outs|e] eqn:Eout.
    + destruct (update_node_mask node (MSet <$> ins) (MSet <$> outs)) as [[new_in new_out]|e]
        eqn:Eupd.
      * rewrite (propagate_node_run _ _ _ _ _ _ Ein Eout Eupd). intros [= <- <-].
        right. by exists ins, outs, new_in, new_out.
      * unfold masks_read in *.
        unfold propagate_node, mbind, M_bind, gets, lift. rewrite Ein, Eout, Eupd.
        intros [= <- <-]. left. eauto.
    + unfold masks_read in *.
      unfold propagate_node, mbind, M_bind, gets, lift. rewrite Ein, Eout.
      intros [= <- <-]. left. eauto.
  - unfold masks_read in *.
    unfold propagate_node, mbind, M_bind, gets, lift. rewrite Ein.
    intros [= <- <-]. left. eauto.
Qed.

Lemma propagate_node_frame node m m' r :
  propagate_node node m = (m', r) ->
  same_structure m m'
  /\ forall t, t ∉ io_names node -> get_tensor_sparsity m' t = get_tensor_sparsity m t.
Proof.
  intros [[-> _]|(ins & outs & new_in & new_out & _ & _ & _ & -> & _)]%propagate_node_cases.
  - done.
  - split; [done|]. intros t Ht. unfold io_names in Ht.
    apply not_elem_of_app in Ht as [Hi Ho].
    unfold get_tensor_sparsity. simpl.
    by rewrite !written_notin by by apply not_elem_of_fst_zip.
Qed.

(** X2. A propagation sweep, however it ends, leaves the node list,
    the initializers and the recorded shapes as they were, and leaves
    alone the mask of every tensor that no node refers to. *)
Theorem X2_sweep_frame (m m' : ModelWrapper) (r : Result bool) :
  PropagateMasks_apply m = (m', r) ->
  same_structure m m'
  /\ forall t, ~ referenced m t -> get_tensor_sparsity m' t = get_tensor_sparsity m t.
Proof.
  unfold PropagateMasks_apply, mbind, M_bind, gets. intros H.
  apply (for_or_invariant
           (fun m1 => same_structure m m1
                      /\ forall t, ~ referenced m t ->
                                   get_tensor_sparsity m1 t = get_tensor_sparsity m t)) in H.
  - exact H.
  - done.
  - intros node m1 m2 r1 Hnode [Hs Hf] Hstep.
    apply propagate_node_frame in Hstep as [Hs' Hf'].
    split; [by eapply same_structure_trans|].
    intros t Ht. rewrite Hf' by (intros Hin; apply Ht; by exists node). by apply Hf.
Qed.

Lemma propagate_node_unchanged node m m' :
  propagate_node node m = (m', Ok false) ->
  mask_equiv m m'
  /\ exists ins outs,
       masks_read m (input node) = Ok ins /\ masks_read m (output node) = Ok outs
       /\ update_node_mask node (MSet <$> ins) (MSet <$> outs) = Ok (ins, outs).
Proof.
  intros [[_ [e ?]]|(ins & outs & new_in & new_out & Hin & Hout & Hupd & -> & Hr)]
    %propagate_node_cases; [done|].
  injection Hr as Hr. symmetry in Hr. apply orb_false_iff in Hr as [H1 H2].
  apply bool_decide_eq_false in H1, H2.
  apply dec_stable in H1, H2. subst new_in new_out.
  split; [|by exists ins, outs].
  pose proof (masks_read_length _ _ _ Hin) as Lin.
  pose proof (masks_read_length _ _ _ Hout) as Lout.
  intros t. unfold get_tensor_sparsity at 1. simpl.
  destruct (decide (t ∈ output node)) as [Hto|Hto].
  - assert (Hz : t ∈ (zip (output node) outs).*1) by (rewrite fst_zip; [done | lia]).
    pose proof Hz as Hz'.
    apply list_elem_of_fmap in Hz' as ([t' s] & Heq & Hts). simpl in Heq. subst t'.
    rewrite (written_in _ _ _ s); [| done |].
    + simpl. symmetry. exact (masks_read_zip _ _ _ _ _ Hout Hts).
    + intros s' Hs'. pose proof (masks_read_zip _ _ _ _ _ Hout Hs').
      pose proof (masks_read_zip _ _ _ _ _ Hout Hts). congruence.
  - rewrite written_notin by (rewrite fst_zip; [done | lia]).
    destruct (decide (t ∈ input node)) as [Hti|Hti].
    + assert (Hz : t ∈ (zip (input node) ins).*1) by (rewrite fst_zip; [done | lia]).
      pose proof Hz as Hz'.
      apply list_elem_of_fmap in Hz' as ([t' s] & Heq & Hts). simpl in Heq. subst t'.
      rewrite (written_in _ _ _ s); [| done |].
      * simpl. symmetry. exact (masks_read_zip _ _ _ _ _ Hin Hts).
      * intros s' Hs'. pose proof (masks_read_zip _ _ _ _ _ Hin Hs').
        pose proof (masks_read_zip _ _ _ _ _ Hin Hts). congruence.
    + by rewrite written_notin by (rewrite fst_zip; [done | lia]).
Qed.

Lemma sweep_unchanged (l : list NodeProto) (flag : bool) (m m' : ModelWrapper) :
  for_or l propagate_node flag m = (m', Ok false) ->
  flag = false /\ mask_equiv m m'
  /\ forall node, node ∈ l ->
       exists ins outs,
         masks_read m (input node) = Ok ins /\ masks_read m (output node) = Ok outs
         /\ update_node_mask node (MSet <$> ins) (MSet <$> outs) = Ok (ins, outs).
Proof.
  revert flag m. induction l as [|x l IH]; intros flag m; simpl.
  - intros [= <- ->]. repeat split. by intros ? ?%elem_of_nil.
  - unfold mbind, M_bind. destruct (propagate_node x m) as [m1 [b|e]] eqn:E; [|done].
    intros H. destruct (IH _ _ H) as (Hflag & Heq & Hfix).
    apply orb_false_iff in Hflag as [-> ->].
    destruct (propagate_node_unchanged _ _ _ E) as (Heq1 & ins & outs & Hin & Hout & Hupd).
    split; [done|]. split; [by eapply mask_equiv_trans|].
    intros node [->|Hnode]%elem_of_cons; [by exists ins, outs|].
    destruct (Hfix node Hnode) as (ins' & outs' & Hin' & Hout' & Hupd').
    exists ins', outs'. by rewrite <- !(masks_read_equiv m m1).
Qed.

(** X3. When a propagation sweep reports no change, it changed
    nothing: every mask is what it was, an absent mask being read as the
    empty set, and every node of the graph is at a fixed point of its
    transfer function. *)
Theorem X3_no_change_is_fixpoint (m m' : ModelWrapper) :
  PropagateMasks_apply m = (m', Ok false) ->
  same_structure m m' /\ mask_equiv m m'
  /\ forall node, node ∈ graph_node m ->
       exists ins outs,
         masks_read m (input node) = Ok ins /\ masks_read m (output node) = Ok outs
         /\ update_node_mask node (MSet <$> ins) (MSet <$> outs) = Ok (ins, outs).
Proof.
  intros H.
  assert (Hs : same_structure m m').
  { unfold PropagateMasks_apply, mbind, M_bind, gets in H.
    apply (for_or_invariant (same_structure m)) in H; [done | done |].
    intros node m1 m2 r1 _ Hs [Hs' _]%propagate_node_frame.
    by eapply same_structure_trans. }
  split; [done|].
  unfold PropagateMasks_apply, mbind, M_bind, gets in H.
  apply sweep_unchanged in H as (_ & Heq & Hfix). done.
Qed.

End SweepFacts.

Section SweepMore.
Context {O : PySetOrder}.

Lemma update_dotprod_lengths node ins outs new_in new_out :
  op_type node ∈ dotprod_ops ->
  update_node_mask node (MSet <$> ins) (MSet <$> outs) = Ok (new_in, new_out) ->
  length new_in = 2%nat /\ length new_out = 1%nat.
Proof.
  intros Hdot Hupd.
  destruct (update_dotprod_inv _ _ _ _ _ Hdot Hupd)
    as (I & Oset & Win & Wout & w & rest_in & rest_out & -> & -> & Hwi & Hwo & [Hd|Hd]).
  - rewrite (update_dense _ _ _ I Oset Win Wout w rest_in rest_out Hd
               (rmap_ensure_sets _) (rmap_ensure_sets _) Hwi Hwo) in Hupd.
    by injection Hupd as <- <-.
  - rewrite (update_depthwise _ _ _ I Oset Win Wout w rest_in rest_out Hd
               (rmap_ensure_sets _) (rmap_ensure_sets _) Hwi Hwo) in Hupd.
    by injection Hupd as <- <-.
Qed.

(** X4. A MatMul or Conv node that does not have exactly two inputs
    and one output keeps the sweep from ever reporting "no change": the
    step returns two input masks and one output mask, which never
    compare equal to the masks read. *)
Theorem X4_dotprod_arity (m m' : ModelWrapper) (node : NodeProto) :
  node ∈ graph_node m ->
  op_type node ∈ dotprod_ops ->
  length (input node) <> 2%nat \/ length (output node) <> 1%nat ->
  PropagateMasks_apply m <> (m', Ok false).
Proof.
  intros Hnode Hdot Harity H.
  unfold PropagateMasks_apply, mbind, M_bind, gets in H.
  apply sweep_unchanged in H as (_ & _ & Hfix).
  destruct (Hfix node Hnode) as (ins & outs & Hin & Hout & Hupd).
  destruct (update_dotprod_lengths _ _ _ _ _ Hdot Hupd) as [L1 L2].
  apply masks_read_length in Hin, Hout. lia.
Qed.

(** X5. A node step on a model in which one of the node's tensors
    carries a mask that is neither a set nor [None] (a list, or the
    dict that Removal leaves behind) raises "Cannot turn ... into set"
    and writes nothing. *)
Theorem X5_step_refuses_non_sets (node : NodeProto) (m : ModelWrapper) (t : string) (e0 : exn) :
  t ∈ io_names node ->
  ensure_masktype_is_set (get_tensor_sparsity m t) = Raise e0 ->
  exists bad, propagate_node node m = (m, Raise (CannotTurnIntoSet bad))
              /\ bad <> MNone /\ forall s, bad <> MSet s.
Proof.
  intros Ht Hbad.
  assert (Hraise : forall names l, masks_read m names = Raise l ->
            exists bad, l = CannotTurnIntoSet bad /\ bad <> MNone /\ forall s, bad <> MSet s).
  { intros names l (x & _ & Hx)%rmap_Raise_elem.
    destruct x; simpl in Hx; try done; injection Hx as <-; eauto. }
  unfold io_names in Ht.
  destruct (masks_read m (input node)) as [ins|e] eqn:Ein.
  - destruct (masks_read m (output node)) as [outs|e] eqn:Eout.
    + apply elem_of_app in Ht as [Ht|Ht].
      * destruct (masks_read_names _ _ _ _ Ein Ht) as [s Hs]. congruence.
      * destruct (masks_read_names _ _ _ _ Eout Ht) as [s Hs]. congruence.
    + destruct (Hraise _ _ Eout) as (bad & -> & ?). exists bad. split; [|done].
      unfold masks_read in *.
      unfold propagate_node, mbind, M_bind, gets, lift. by rewrite Ein, Eout.
  - destruct (Hraise _ _ Ein) as (bad & -> & ?). exists bad. split; [|done].
    unfold masks_read in *.
    unfold propagate_node, mbind, M_bind, gets, lift. by rewrite Ein.
Qed.

Lemma sweep_raises (l : list NodeProto) (flag : bool) (m : ModelWrapper) (t : string) e0 :
  (exists node, node ∈ l /\ t ∈ io_names node) ->
  ensure_masktype_is_set (get_tensor_sparsity m t) = Raise e0 ->
  exists m' e, for_or l propagate_node flag m = (m', Raise e).
Proof.
  revert flag m. induction l as [|x l IH]; intros flag m (node & Hnode & Ht) Hbad.
  - by apply elem_of_nil in Hnode.
  - simpl. unfold mbind, M_bind.
    destruct (propagate_node x m) as [m1 [b|e]] eqn:E; [|eauto].
    destruct (decide (t ∈ io_names x)) as [Htx|Htx].
    + apply propagate_node_cases in E
        as [[_ [e ?]]|(ins & outs & ? & ? & Hin & Hout & _)]; [done|].
      unfold io_names in Htx. apply elem_of_app in Htx as [Htx|Htx].
      * destruct (masks_read_names _ _ _ _ Hin Htx) as [s Hs]. congruence.
      * destruct (masks_read_names _ _ _ _ Hout Htx) as [s Hs]. congruence.
    + apply elem_of_cons in Hnode as [->|Hnode]; [done|].
      apply propagate_node_frame in E as [_ Hf].
      apply IH; [eauto|]. by rewrite Hf.
Qed.

(** X6. A node whose operator is in none of the three classes passes
    nothing on: its step reports no change and every mask stays what it
    was, an absent mask being read as the empty set. *)
Theorem X6_unknown_operator (node : NodeProto) (m : ModelWrapper) (ins outs : list (gset elem)) :
  op_type node ∉ eltwise_ops_bidirectional ->
  op_type node ∉ eltwise_ops_bwdonly ->
  op_type node ∉ dotprod_ops ->
  masks_read m (input node) = Ok ins ->
  masks_read m (output node) = Ok outs ->
  exists m', propagate_node node m = (m', Ok false)
             /\ same_structure m m' /\ mask_equiv m m'.
Proof.
  intros H1 H2 H3 Hin Hout.
  pose proof (update_unknown node _ _ ins outs H1 H2 H3
                (rmap_ensure_sets _) (rmap_ensure_sets _)) as Hupd.
  pose proof (propagate_node_run _ _ _ _ _ _ Hin Hout Hupd) as Hrun.
  rewrite !bool_decide_eq_false_2 in Hrun by (intros H; by apply H).
  eexists. split; [exact Hrun|]. split; [done|].
  by apply propagate_node_unchanged in Hrun as [? _].
Qed.

(** X7. A Conv node that has no [group] attribute is fatal to both
    passes.  The propagation step raises [AttributeError] before
    anything is written.  Removal, when it handles a masked initializer
    of that node whose mask decodes, raises as well and leaves the model
    as it was: the recorded shape of the tensor is read first, so the
    error is a [TypeError] when no shape is recorded, an [IndexError]
    when the shape has no axis 1, and the [AttributeError] of the
    missing attribute otherwise. *)
Theorem X7_conv_without_group (k : nat) (node : NodeProto) (m : ModelWrapper)
    (ins outs : list (gset elem)) :
  op_type node = "Conv" -> group node = None ->
  masks_read m (input node) = Ok ins ->
  masks_read m (output node) = Ok outs ->
  propagate_node node m = (m, Raise AttributeError)
  /\ forall ioname io_t i_mask o_mask,
       graph_node m !! k = Some node ->
       get_initializer m ioname = Some io_t ->
       mask_is_skipped (get_tensor_sparsity m ioname) = false ->
       decode_list "i" (get_tensor_sparsity m ioname) = Ok i_mask ->
       decode_list "o" (get_tensor_sparsity m ioname) = Ok o_mask ->
       remove_tensor k ioname m
       = (m, Raise match get_tensor_shape m ioname with
                   | None => TypeError
                   | Some shp => match shp !! 1%nat with
                                 | Some _ => AttributeError
                                 | None => IndexError
                                 end
                   end).
Proof.
  intros Hop Hg Hin Hout. split.
  - unfold masks_read in *.
    unfold propagate_node, mbind, M_bind, gets, lift. rewrite Hin, Hout.
    unfold update_node_mask. rewrite !rmap_ensure_sets. simpl.
    rewrite Hop. simpl. unfold get_group. by rewrite Hg.
  - intros ioname io_t i_mask o_mask Hk Hinit Hskip Hi Ho.
    unfold remove_tensor, mbind, M_bind, gets, lift.
    rewrite Hk. simpl. rewrite Hskip, Hinit, Hop. simpl.
    unfold remove_conv. rewrite Hi, Ho.
    destruct (get_tensor_shape m ioname) as [shp|]; simpl; [|done].
    destruct (shp !! 1%nat); simpl; [|done].
    unfold get_group. by rewrite Hg.
Qed.

End SweepMore.

(** * Further properties of Removal *)

Lemma node_sig_alter (g : Z) (k : nat) (l : list NodeProto) :
  node_sig <$> alter (set_group g) k l = node_sig <$> l.
Proof.
  revert k. induction l as [|n l IH]; intros [|k]; try done.
  change (node_sig n :: (node_sig <$> alter (set_group g) k l)
          = node_sig n :: (node_sig <$> l)).
  by rewrite IH.
Qed.

Lemma removal_step_refl m : removal_step m m.
Proof. split; [done | by left]. Qed.

Lemma removal_step_trans m1 m2 m3 :
  removal_step m1 m2 -> removal_step m2 m3 -> removal_step m1 m3.
Proof.
  intros [S1 M1] [S2 M2]. split; [congruence|].
  intros t. destruct (M2 t) as [-> | ->]; [apply M1 | by right].
Qed.

Lemma removal_step_skipped m m' t :
  removal_step m m' ->
  mask_is_skipped (get_tensor_sparsity m t) = true ->
  mask_is_skipped (get_tensor_sparsity m' t) = true.
Proof. intros [_ H] Hs. by destruct (H t) as [-> | ->]. Qed.

Lemma removal_step_cleared m m' t :
  removal_step m m' -> get_tensor_sparsity m t = MDict [] -> get_tensor_sparsity m' t = MDict [].
Proof. intros [_ H] Hs. destruct (H t) as [-> | ->]; done. Qed.

Lemma node_sig_lookup m m' k node :
  node_sig <$> graph_node m' = node_sig <$> graph_node m ->
  graph_node m !! k = Some node ->
  exists node', graph_node m' !! k = Some node' /\ node_sig node' = node_sig node.
Proof.
  intros Hs Hk.
  assert (H : (node_sig <$> graph_node m') !! k = Some (node_sig node))
    by (by rewrite Hs, list_lookup_fmap, Hk).
  rewrite list_lookup_fmap in H.
  destruct (graph_node m' !! k) as [node'|]; simpl in H; [|done].
  exists node'. split; [done | congruence].
Qed.

Lemma node_sig_io n n' : node_sig n' = node_sig n -> io_names n' = io_names n.
Proof. unfold node_sig, io_names. by intros [= _ _ -> ->]. Qed.

Section RemovalMore.
Context {O : PySetOrder}.

(** The ways the handling of one tensor ends. *)
Lemma remove_tensor_cases k t m m' r :
  remove_tensor k t m = (m', r) ->
  match r with
  | Raise _ => m' = m
  | Ok false => m' = m /\ mask_is_skipped (get_tensor_sparsity m t) = true
  | Ok true =>
      mask_is_skipped (get_tensor_sparsity m t) = false
      /\ get_tensor_sparsity m' t = MDict []
      /\ node_sig <$> graph_node m' = node_sig <$> graph_node m
      /\ forall t', t' <> t ->
           get_tensor_sparsity m' t' = get_tensor_sparsity m t'
           /\ get_initializer m' t' = get_initializer m t'
           /\ get_tensor_shape m' t' = get_tensor_shape m t'
  end.
Proof.
  unfold remove_tensor, mbind, M_bind, gets, lift, modify, mret, M_ret.
  destruct (graph_node m !! k) as [node|]; simpl; [|by intros [= <- <-]].
  destruct (mask_is_skipped (get_tensor_sparsity m t)) eqn:Hskip; [by intros [= <- <-]|].
  assert (Hfin : forall m1,
            node_sig <$> graph_node m1 = node_sig <$> graph_node m ->
            tensor_sparsity m1 = tensor_sparsity m ->
            (forall t', t' <> t -> get_initializer m1 t' = get_initializer m t'
                                   /\ get_tensor_shape m1 t' = get_tensor_shape m t') ->
            get_tensor_sparsity (set_tensor_sparsity t (MDict []) m1) t = MDict []
            /\ node_sig <$> graph_node (set_tensor_sparsity t (MDict []) m1)
               = node_sig <$> graph_node m
            /\ forall t', t' <> t ->
                 get_tensor_sparsity (set_tensor_sparsity t (MDict []) m1) t'
                 = get_tensor_sparsity m t'
                 /\ get_initializer (set_tensor_sparsity t (MDict []) m1) t'
                    = get_initializer m t'
                 /\ get_tensor_shape (set_tensor_sparsity t (MDict []) m1) t'
                    = get_tensor_shape m t').
  { intros m1 Hs Hm Hf. unfold get_tensor_sparsity at 1. simpl.
    rewrite lookup_insert_eq. split; [done|]. split; [done|].
    intros t' Ht'. split; [|by apply Hf].
    unfold get_tensor_sparsity. simpl. by rewrite lookup_insert_ne, Hm by done. }
  destruct (get_initializer m t) as [io_t|].
  - destruct (bool_decide (op_type node = "MatMul")).
    + destruct (remove_matmul io_t _) as [new_t|e]; [|by intros [= <- <-]].
      intros [= <- <-]. split; [done|]. apply Hfin; [done | done |].
      intros t' Ht'. unfold get_initializer. simpl. by rewrite lookup_insert_ne.
    + destruct (bool_decide (op_type node = "Conv")).
      * destruct (remove_conv node io_t _ _) as [[new_t [g|]]|e]; [| |by intros [= <- <-]].
        -- intros [= <- <-]. split; [done|]. apply Hfin; [apply node_sig_alter | done |].
           intros t' Ht'. unfold get_initializer. simpl. by rewrite lookup_insert_ne.
        -- intros [= <- <-]. split; [done|]. apply Hfin; [done | done |].
           intros t' Ht'. unfold get_initializer. simpl. by rewrite lookup_insert_ne.
      * destruct (remove_plain io_t _) as [new_t|e]; [|by intros [= <- <-]].
        intros [= <- <-]. split; [done|]. apply Hfin; [done | done |].
        intros t' Ht'. unfold get_initializer. simpl. by rewrite lookup_insert_ne.
  - destruct (remove_masked_tensor_channels (shape_arg (get_tensor_shape m t))
                (get_tensor_sparsity m t) 1) as [[new_shp|a|]|e];
      simpl; try by intros [= <- <-].
    intros [= <- <-]. split; [done|]. apply Hfin; [done | done |].
    intros t' Ht'. unfold get_tensor_shape. simpl. by rewrite lookup_insert_ne.
Qed.

Lemma remove_tensor_step k t m m' r :
  remove_tensor k t m = (m', r) -> removal_step m m'.
Proof.
  intros H%remove_tensor_cases. destruct r as [[|]|e].
  - destruct H as (_ & Ht & Hs & Hf). split; [done|].
    intros t'. destruct (decide (t' = t)) as [->|Hne]; [by right | left; by apply Hf].
  - destruct H as [-> _]. apply removal_step_refl.
  - subst. apply removal_step_refl.
Qed.

Lemma remove_node_step k m m' r : remove_node k m = (m', r) -> removal_step m m'.
Proof.
  unfold remove_node, mbind, M_bind.
  destruct (graph_node m !! k) as [node|]; simpl; [|intros [= <- _]; apply removal_step_refl].
  intros H. apply (for_or_invariant (removal_step m)) in H; [done | apply removal_step_refl |].
  intros t m1 m2 r1 _ Hs Hstep%remove_tensor_step. by eapply removal_step_trans.
Qed.

(** After the tensors [l] were handled without an error, each of them
    has a mask Removal skips. *)
Lemma remove_tensors_done k (l : list string) flag m m' b :
  for_or l (remove_tensor k) flag m = (m', Ok b) ->
  removal_step m m'
  /\ (forall t, t ∈ l -> mask_is_skipped (get_tensor_sparsity m' t) = true)
  /\ (b = false -> m' = m)
  /\ (b = true -> flag = true \/ exists t, t ∈ l /\ get_tensor_sparsity m' t = MDict []).
Proof.
  revert flag m. induction l as [|x l IH]; intros flag m; simpl.
  - intros [= <- <-]. split; [apply removal_step_refl|]. split; [by intros ? ?%elem_of_nil|].
    split; [done | by left].
  - unfold mbind, M_bind. destruct (remove_tensor k x m) as [m1 [b1|e]] eqn:E; [|done].
    intros H. destruct (IH _ _ H) as (Hstep & Hall & Hfalse & Htrue).
    pose proof (remove_tensor_step _ _ _ _ _ E) as Hstep1.
    pose proof (remove_tensor_cases _ _ _ _ _ E) as Hc.
    split; [by eapply removal_step_trans|]. split; [|split].
    + intros t [->|Ht]%elem_of_cons; [|by apply Hall].
      apply (removal_step_skipped m1); [done|].
      destruct b1; [by destruct Hc as (_ & -> & _) | by destruct Hc as [-> ?]].
    + intros ->. pose proof (for_or_flag _ _ _ _ _ _ H) as Hflag.
      destruct flag; [by specialize (Hflag eq_refl)|].
      destruct b1; [by specialize (Hflag eq_refl)|].
      rewrite Hfalse by done. by destruct Hc as [-> _].
    + intros Hb. destruct (Htrue Hb) as [Hf|(t & Ht & Hm)].
      * apply orb_true_iff in Hf as [-> | ->]; [by left|].
        right. exists x. split; [by left|].
        apply (removal_step_cleared m1); [done | by destruct Hc as (_ & ? & _)].
      * right. exists t. split; [by right | done].
Qed.

(** The same for the nodes with the indices [ks]. *)
Lemma remove_nodes_done (ks : list nat) flag m m' b :
  for_or ks remove_node flag m = (m', Ok b) ->
  removal_step m m'
  /\ (forall k node t, k ∈ ks -> graph_node m !! k = Some node -> t ∈ io_names node ->
        mask_is_skipped (get_tensor_sparsity m' t) = true)
  /\ (b = false -> m' = m)
  /\ (b = true -> flag = true \/
        exists k node t, k ∈ ks /\ graph_node m !! k = Some node /\ t ∈ io_names node
                         /\ get_tensor_sparsity m' t = MDict []).
Proof.
  revert flag m. induction ks as [|k ks IH]; intros flag m; simpl.
  - intros [= <- <-]. split; [apply removal_step_refl|].
    split; [by intros ? ? ? ?%elem_of_nil|]. split; [done | by left].
  - unfold mbind at 1, M_bind at 1.
    destruct (remove_node k m) as [m1 [b1|e]] eqn:E; [|done].
    intros H. destruct (IH _ _ H) as (Hstep & Hall & Hfalse & Htrue).
    pose proof (remove_node_step _ _ _ _ E) as Hstep1.
    assert (Hnode : forall node, graph_node m !! k = Some node ->
              (forall t, t ∈ io_names node ->
                 mask_is_skipped (get_tensor_sparsity m1 t) = true)
              /\ (b1 = false -> m1 = m)
              /\ (b1 = true -> exists t, t ∈ io_names node
                                         /\ get_tensor_sparsity m1 t = MDict [])).
    { intros node Hk. unfold remove_node, mbind, M_bind in E. rewrite Hk in E. simpl in E.
      apply remove_tensors_done in E as (_ & Ha & Hf & Ht).
      split; [exact Ha|]. split; [exact Hf|].
      intros Hb. by destruct (Ht Hb) as [?|?]. }
    split; [by eapply removal_step_trans|]. split; [|split].
    + intros k' node t [->|Hk']%elem_of_cons Hk Ht.
      * apply (removal_step_skipped m1); [done|]. by apply (Hnode node Hk).
      * destruct Hstep1 as [Hsig _].
        destruct (node_sig_lookup _ _ _ _ Hsig Hk) as (node' & Hk1 & Hio%node_sig_io).
        apply (Hall k' node' t Hk' Hk1). by rewrite Hio.
    + intros ->. pose proof (for_or_flag _ _ _ _ _ _ H) as Hflag.
      destruct flag; [by specialize (Hflag eq_refl)|].
      destruct b1; [by specialize (Hflag eq_refl)|].
      rewrite Hfalse by done.
      destruct (graph_node m !! k) as [node|] eqn:Hk.
      * by apply (Hnode node).
      * unfold remove_node, mbind, M_bind in E. by rewrite Hk in E.
    + intros Hb. destruct (Htrue Hb) as [Hf|(k' & node' & t & Hk' & Hk1 & Ht & Hm)].
      * apply orb_true_iff in Hf as [-> | ->]; [by left|].
        right. destruct (graph_node m !! k) as [node|] eqn:Hk.
        -- destruct (Hnode node eq_refl) as (_ & _ & Hex).
           destruct (Hex eq_refl) as (t & Ht & Hm).
           exists k, node, t. split; [by left|]. repeat split; try done.
           by apply (removal_step_cleared m1).
        -- unfold remove_node, mbind, M_bind in E. by rewrite Hk in E.
      * right. destruct Hstep1 as [Hsig _].
        assert (Hsig' : node_sig <$> graph_node m = node_sig <$> graph_node m1) by done.
        destruct (node_sig_lookup _ _ _ _ Hsig' Hk1) as (node & Hk0 & Hio%node_sig_io).
        exists k', node, t. split; [by right|]. rewrite Hio. done.
Qed.

End RemovalMore.

Lemma referenced_lookup m t :
  referenced m t <-> exists k node, graph_node m !! k = Some node /\ t ∈ io_names node.
Proof.
  unfold referenced. split.
  - intros (node & [k Hk]%list_elem_of_lookup & Ht). eauto.
  - intros (k & node & Hk & Ht). exists node. split; [|done].
    by eapply list_elem_of_lookup_2.
Qed.

Lemma referenced_sig m m' t :
  node_sig <$> graph_node m' = node_sig <$> graph_node m -> referenced m t -> referenced m' t.
Proof.
  intros Hs (k & node & Hk & Ht)%referenced_lookup. apply referenced_lookup.
  destruct (node_sig_lookup _ _ _ _ Hs Hk) as (node' & Hk' & Hio%node_sig_io).
  exists k, node'. by rewrite Hio.
Qed.

Section RemovalSweep.
Context {O : PySetOrder}.

Lemma removal_noop_referenced m :
  (forall t, referenced m t -> mask_is_skipped (get_tensor_sparsity m t) = true) ->
  RemoveMaskedChannels_apply m = (m, Ok false).
Proof.
  intros Hall. unfold RemoveMaskedChannels_apply, mbind, M_bind, gets.
  apply for_or_fixed. intros k Hk%elem_of_seq.
  destruct (lookup_lt_is_Some_2 (graph_node m) k) as [node Hnode]; [lia|].
  unfold remove_node, mbind, M_bind. rewrite Hnode. simpl.
  apply for_or_fixed. intros t Ht. eapply remove_tensor_skipped; [done|].
  apply Hall, referenced_lookup. eauto.
Qed.

Lemma removal_sweep_done m m' b :
  RemoveMaskedChannels_apply m = (m', Ok b) ->
  removal_step m m'
  /\ (forall t, referenced m t -> mask_is_skipped (get_tensor_sparsity m' t) = true)
  /\ (b = false -> m' = m)
  /\ (b = true -> exists t, referenced m t /\ get_tensor_sparsity m' t = MDict []).
Proof.
  unfold RemoveMaskedChannels_apply, mbind, M_bind, gets.
  intros (Hstep & Hall & Hfalse & Htrue)%remove_nodes_done.
  split; [done|]. split; [|split; [done|]].
  - intros t (k & node & Hk & Ht)%referenced_lookup.
    apply (Hall k node t); [|done|done].
    apply elem_of_seq. apply lookup_lt_Some in Hk. lia.
  - intros Hb. destruct (Htrue Hb) as [?|(k & node & t & _ & Hk & Ht & Hm)]; [done|].
    exists t. split; [|done]. apply referenced_lookup. eauto.
Qed.

(** X8. Removal is idempotent: once a sweep has gone through without
    an error, a second sweep over the result touches nothing and
    reports no change. *)
Theorem X8_removal_idempotent (m m' : ModelWrapper) (b : bool) :
  RemoveMaskedChannels_apply m = (m', Ok b) ->
  RemoveMaskedChannels_apply m' = (m', Ok false).
Proof.
  intros (Hstep & Hall & _)%removal_sweep_done.
  apply removal_noop_referenced. intros t Ht. apply Hall.
  destruct Hstep as [Hsig _]. by apply (referenced_sig m' m).
Qed.

(** X9. Removal reports no change exactly when the mask of every
    tensor that a node refers to is [None] or the empty dict, and then
    the model is left as it was. *)
Theorem X9_no_change_exactly_when_cleared (m : ModelWrapper) :
  (forall t, referenced m t -> mask_is_skipped (get_tensor_sparsity m t) = true)
  <-> exists m', RemoveMaskedChannels_apply m = (m', Ok false) /\ m' = m.
Proof.
  split.
  - intros H. exists m. split; [by apply removal_noop_referenced | done].
  - intros (m' & (_ & Hall & _)%removal_sweep_done & ->). exact Hall.
Qed.

Lemma remove_tensor_unreferenced k t m m' r t' :
  remove_tensor k t m = (m', r) -> t' <> t ->
  get_tensor_sparsity m' t' = get_tensor_sparsity m t'
  /\ get_initializer m' t' = get_initializer m t'
  /\ get_tensor_shape m' t' = get_tensor_shape m t'.
Proof.
  intros H%remove_tensor_cases Hne. destruct r as [[|]|e].
  - destruct H as (_ & _ & _ & Hf). by apply Hf.
  - by destruct H as [-> _].
  - by subst.
Qed.

(** X10. A removal sweep, however it ends, keeps every node with its
    name, operator, inputs and outputs (only a [group] can change),
    turns masks into nothing but the empty dict, and leaves alone the
    mask, the initializer and the recorded shape of every tensor that no
    node refers to. *)
Theorem X10_removal_frame (m m' : ModelWrapper) (r : Result bool) :
  RemoveMaskedChannels_apply m = (m', r) ->
  removal_step m m'
  /\ forall t, ~ referenced m t ->
       get_tensor_sparsity m' t = get_tensor_sparsity m t
       /\ get_initializer m' t = get_initializer m t
       /\ get_tensor_shape m' t = get_tensor_shape m t.
Proof.
  unfold RemoveMaskedChannels_apply, mbind, M_bind, gets. intros H.
  apply (for_or_invariant
           (fun m1 => removal_step m m1
                      /\ forall t, ~ referenced m t ->
                           get_tensor_sparsity m1 t = get_tensor_sparsity m t
                           /\ get_initializer m1 t = get_initializer m t
                           /\ get_tensor_shape m1 t = get_tensor_shape m t)) in H.
  - exact H.
  - split; [apply removal_step_refl | done].
  - intros k m1 m2 r1 _ [Hs Hf] Hnode.
    unfold remove_node, mbind, M_bind in Hnode.
    destruct (graph_node m1 !! k) as [node|] eqn:Hk; simpl in Hnode;
      [|by injection Hnode as <- _].
    apply (for_or_invariant
             (fun m3 => removal_step m m3
                        /\ forall t, ~ referenced m t ->
                             get_tensor_sparsity m3 t = get_tensor_sparsity m t
                             /\ get_initializer m3 t = get_initializer m t
                             /\ get_tensor_shape m3 t = get_tensor_shape m t)) in Hnode.
    + exact Hnode.
    + done.
    + intros t m3 m4 r3 Ht [Hs3 Hf3] Hstep. split.
      * eapply removal_step_trans; [exact Hs3|]. by eapply remove_tensor_step.
      * intros t' Ht'.
        assert (Hne : t' <> t).
        { intros ->. apply Ht'. destruct Hs as [Hsig _].
          apply (referenced_sig m1 m); [done|]. apply referenced_lookup. eauto. }
        destruct (remove_tensor_unreferenced _ _ _ _ _ _ Hstep Hne) as (-> & -> & ->).
        by apply Hf3.
Qed.

(** X11. Removal and then Propagation do not compose: after a removal
    sweep that reported a change, some tensor of the graph carries the
    empty dict, and a propagation sweep over that model raises. *)
Theorem X11_propagation_after_removal (m m' : ModelWrapper) :
  RemoveMaskedChannels_apply m = (m', Ok true) ->
  (exists t, referenced m' t /\ get_tensor_sparsity m' t = MDict [])
  /\ exists m'' e, PropagateMasks_apply m' = (m'', Raise e).
Proof.
  intros (Hstep & _ & _ & Htrue)%removal_sweep_done.
  destruct (Htrue eq_refl) as (t & Ht & Hm).
  destruct Hstep as [Hsig _].
  assert (Ht' : referenced m' t) by by apply (referenced_sig m m').
  split; [eauto|].
  unfold PropagateMasks_apply, mbind, M_bind, gets.
  apply (sweep_raises _ _ _ t (CannotTurnIntoSet (MDict []))); [exact Ht'|].
  by rewrite Hm.
Qed.

End RemovalSweep.

(** * Further properties of seeding and of the orchestrator's checks *)

Lemma installed_app l k m : installed (l ++ k) m = installed k (installed l m).
Proof. unfold installed. by rewrite foldl_app. Qed.

Lemma installed_lookup_notin l m t :
  t ∉ l.*1 -> get_tensor_sparsity (installed l m) t = get_tensor_sparsity m t.
Proof.
  revert m. induction l as [|[k v] l IH]; intros m Ht; [done|].
  rewrite fmap_cons, not_elem_of_cons in Ht. destruct Ht as [Hne Ht].
  change (get_tensor_sparsity (installed l (set_tensor_sparsity k v m)) t
          = get_tensor_sparsity m t).
  rewrite IH by done. unfold get_tensor_sparsity. simpl. by rewrite lookup_insert_ne.
Qed.

Lemma installed_lookup_in l m k v :
  NoDup l.*1 -> (k, v) ∈ l -> get_tensor_sparsity (installed l m) k = v.
Proof.
  revert m. induction l as [|[k' v'] l IH]; intros m Hnd Hin.
  - by apply elem_of_nil in Hin.
  - rewrite fmap_cons in Hnd. apply NoDup_cons in Hnd as [Hk' Hnd].
    change (get_tensor_sparsity (installed l (set_tensor_sparsity k' v' m)) k = v).
    apply elem_of_cons in Hin as [[= -> ->]|Hin].
    + rewrite installed_lookup_notin by done.
      unfold get_tensor_sparsity. simpl. by rewrite lookup_insert_eq.
    + by apply IH.
Qed.

Section SeedingMore.
Context {O : PySetOrder}.

Lemma for_each_Raise l m m' e :
  for_each l apply_mask_entry m = (m', Raise e) ->
  exists pre entry post,
    l = pre ++ entry :: post /\ m' = installed pre m
    /\ apply_mask_entry entry m' = (m', Raise e).
Proof.
  revert m. induction l as [|x l IH]; intros m; simpl; [done|].
  unfold mbind, M_bind. destruct (apply_mask_entry x m) as [m1 [[]|e1]] eqn:E.
  - intros (pre & entry & post & -> & -> & Hx)%IH.
    apply apply_mask_entry_Ok in E as ->.
    exists (x :: pre), entry, post. done.
  - intros [= <- <-]. pose proof (apply_mask_entry_Raise _ _ _ _ E) as ->.
    exists [], x, l. done.
Qed.

(** X12. What seeding leaves behind. It never touches nodes,
    initializers or shapes and never asks for a rerun.  When it returns,
    every entry of the prune spec is installed; when it raises, exactly
    the entries before the refused one are. *)
Theorem X12_seeding_outcome (prune_spec : prune_spec_t) (m m' : ModelWrapper)
    (r : Result bool) :
  ApplyMasks_apply prune_spec m = (m', r) ->
  same_structure m m'
  /\ match r with
     | Ok b => b = false /\ m' = installed prune_spec m
     | Raise e =>
         exists pre entry post,
           prune_spec = pre ++ entry :: post /\ m' = installed pre m
           /\ apply_mask_entry entry m' = (m', Raise e)
     end.
Proof.
  unfold ApplyMasks_apply, mbind, M_bind, mret, M_ret.
  destruct (for_each prune_spec apply_mask_entry m) as [m1 [[]|e]] eqn:E.
  - intros [= <- <-]. apply for_each_installed in E as ->.
    split; [|done]. split; [apply installed_graph|].
    split; [apply installed_initializer | apply installed_shape].
  - intros [= <- <-]. destruct (for_each_Raise _ _ _ _ E) as (pre & entry & post & Hl & Hm & Hx).
    split; [|by exists pre, entry, post].
    rewrite Hm. split; [apply installed_graph|].
    split; [apply installed_initializer | apply installed_shape].
Qed.

(** X13. Reading back after seeding: when the keys of the prune spec
    are distinct and seeding returns, every named tensor carries the
    mask the spec gave it and every other tensor the mask it had. *)
Theorem X13_seeding_lookup (prune_spec : prune_spec_t) (m m' : ModelWrapper) (b : bool) :
  NoDup prune_spec.*1 ->
  ApplyMasks_apply prune_spec m = (m', Ok b) ->
  (forall key val, (key, val) ∈ prune_spec -> get_tensor_sparsity m' key = val)
  /\ (forall t, t ∉ prune_spec.*1 -> get_tensor_sparsity m' t = get_tensor_sparsity m t).
Proof.
  intros Hnd. unfold ApplyMasks_apply, mbind, M_bind, mret, M_ret.
  destruct (for_each prune_spec apply_mask_entry m) as [m1 [[]|e]] eqn:E; [|done].
  intros [= <- _]. apply for_each_installed in E as ->. split.
  - intros key val Hin. by apply installed_lookup_in.
  - intros t Ht. by apply installed_lookup_notin.
Qed.

End SeedingMore.

Lemma dyn_weight_nodes_nil (model : ModelWrapper) (nodes : list NodeProto) :
  dyn_weight_nodes model nodes = Ok [] <->
  forall n, n ∈ nodes ->
    exists w, input n !! 1%nat = Some w /\ is_Some (get_initializer model w).
Proof.
  induction nodes as [|x l IH]; simpl.
  - split; [by intros _ ? ?%elem_of_nil | done].
  - destruct (input x !! 1%nat) as [w|] eqn:Ew; simpl.
    + destruct (dyn_weight_nodes model l) as [rest|e]; simpl.
      * destruct (get_initializer model w) as [a|] eqn:Ei.
        -- split.
           ++ intros Hrest. intros n [->|Hn]%elem_of_cons.
              ** exists w. by rewrite Ei.
              ** by apply IH.
           ++ intros H. apply IH. intros n Hn. apply H. by right.
        -- split; [done|]. intros H.
           destruct (H x ltac:(by left)) as (w' & Hw' & Hinit).
           rewrite Ew in Hw'. injection Hw' as <-. rewrite Ei in Hinit. by destruct Hinit.
      * split; [done|]. intros H.
        assert (Hl : Raise e = Ok ([] : list NodeProto)); [|done].
        apply IH. intros n Hn. apply H. by right.
    + split; [done|]. intros H.
      destruct (H x ltac:(by left)) as (w' & Hw' & _). by rewrite Ew in Hw'.
Qed.

(** X14. The orchestrator's opening checks pass exactly when no Conv
    node has three inputs and every Conv and MatMul node has a second
    input that carries an initializer; and a Conv node with three inputs
    is reported first, by name. *)
Theorem X14_check_patterns (model : ModelWrapper) :
  (check_patterns model = Ok tt <->
     (forall n, n ∈ graph_node model -> op_type n = "Conv" -> length (input n) <> 3%nat)
     /\ (forall n, n ∈ graph_node model -> op_type n = "Conv" \/ op_type n = "MatMul" ->
           exists w, input n !! 1%nat = Some w /\ is_Some (get_initializer model w)))
  /\ (forall n, n ∈ graph_node model -> op_type n = "Conv" -> length (input n) = 3%nat ->
        exists names, n.(name) ∈ names
          /\ check_patterns model
             = Raise (AssertionError ("Please extract bias from Conv nodes: "
                                        +:+ PyStr.repr_names names))).
Proof.
  unfold check_patterns, get_nodes_by_op_type.
  set (convs := filter (fun n => op_type n = "Conv") (graph_node model)).
  set (matmuls := filter (fun n => op_type n = "MatMul") (graph_node model)).
  set (biased := filter (fun x => length (input x) = 3%nat) convs).
  assert (Hb : biased = [] <->
            forall n, n ∈ graph_node model -> op_type n = "Conv" -> length (input n) <> 3%nat).
  { split.
    - intros Hnil n Hn Hop Hlen.
      assert (Hin : n ∈ biased)
        by (apply list_elem_of_filter; split; [done|]; by apply list_elem_of_filter).
      rewrite Hnil in Hin. by apply elem_of_nil in Hin.
    - intros H. apply elem_of_nil_inv. intros n [Hlen [Hop Hn]%list_elem_of_filter]%list_elem_of_filter.
      by apply (H n). }
  assert (Hmem : forall n, n ∈ graph_node model -> op_type n = "Conv" ->
            length (input n) = 3%nat -> n ∈ biased).
  { intros n Hn Hop Hlen. apply list_elem_of_filter. split; [done|].
    by apply list_elem_of_filter. }
  assert (Hdot : forall n, n ∈ convs ++ matmuls <->
            n ∈ graph_node model /\ (op_type n = "Conv" \/ op_type n = "MatMul")).
  { intros n. unfold convs, matmuls.
    rewrite elem_of_app, !list_elem_of_filter. tauto. }
  clearbody biased convs matmuls.
  split.
  - destruct biased as [|b0 bs].
    + simpl. split.
      * destruct (dyn_weight_nodes model (convs ++ matmuls)) as [[|d ds]|e] eqn:Ed; try done.
        intros _. split; [by apply Hb|].
        intros n Hn Hop. apply (proj1 (dyn_weight_nodes_nil _ _) Ed). by apply Hdot.
      * intros [_ H].
        assert (Ed : dyn_weight_nodes model (convs ++ matmuls) = Ok []).
        { apply dyn_weight_nodes_nil. intros n [Hn Hop]%Hdot. by apply H. }
        by rewrite Ed.
    + split; [done|]. intros [H _]. by apply Hb in H.
  - intros n Hn Hop Hlen. exists (name <$> biased).
    pose proof (Hmem n Hn Hop Hlen) as Hin.
    split; [apply list_elem_of_fmap; eauto|].
    destruct biased as [|b0 bs]; [by apply elem_of_nil in Hin|]. done.
Qed.

(** * Further properties of the deletion of channels *)

Lemma size_set_map_inj_on {A B} `{Countable A, Countable B} (f : A -> B) (X : gset A) :
  (forall x y, x ∈ X -> y ∈ X -> f x = f y -> x = y) ->
  size (set_map f X : gset B) = size X.
Proof.
  intros Hinj. unfold size, set_size. simpl.
  rewrite <- (length_fmap f (elements X)). apply Permutation_length.
  apply NoDup_Permutation.
  - apply NoDup_elements.
  - apply NoDup_fmap_2_strong; [|apply NoDup_elements].
    intros x y Hx%elem_of_elements Hy%elem_of_elements. by apply Hinj.
  - intros y. rewrite elem_of_elements, elem_of_map, list_elem_of_fmap.
    by setoid_rewrite elem_of_elements.
Qed.

Lemma size_plain (S : gset Z) : size (plain S) = size S.
Proof. apply size_set_map_inj_on. by intros x y _ _ [= ->]. Qed.

(** How many positions of an axis of extent [n] survive the deletion
    of the positions [js]. *)
Lemma kept_count (n : nat) (js : list nat) :
  (forall j, j ∈ js -> (j < n)%nat) ->
  length (filter (fun j => bool_decide (j ∉ js)) (seq 0 n))
  = (n - size (list_to_set js : gset nat))%nat.
Proof.
  intros Hlt.
  pose proof (filter_app_complement (fun j => bool_decide (j ∉ js)) (seq 0 n)) as Hp.
  apply Permutation_length in Hp. rewrite length_app, length_seq in Hp.
  assert (Hd : filter (fun j => ~ bool_decide (j ∉ js)) (seq 0 n)
               ≡ₚ elements (list_to_set js : gset nat)).
  { apply NoDup_Permutation.
    - apply NoDup_filter, NoDup_seq.
    - apply NoDup_elements.
    - intros j. rewrite list_elem_of_filter, elem_of_elements, elem_of_list_to_set, elem_of_seq.
      rewrite bool_decide_spec. split.
      + intros [Hj _]. by apply dec_stable.
      + intros Hj. split; [by intros ?|]. specialize (Hlt j Hj). lia. }
  apply Permutation_length in Hd. unfold size, set_size. simpl.
  rewrite <- Hd. lia.
Qed.

Lemma norm_index_valid n e : valid_index n e <-> exists j, Np.norm_index n e = Ok j.
Proof.
  destruct e as [z|s]; simpl.
  - destruct (bool_decide _) eqn:E.
    + apply bool_decide_eq_true in E. split; [eauto | done].
    + apply bool_decide_eq_false in E. split; [done | by intros [? ?]].
  - split; [done | by intros [? ?]].
Qed.

Lemma norm_index_error n e err : Np.norm_index n e = Raise err -> err = IndexError.
Proof.
  destruct e as [z|s]; simpl; [|by intros [= <-]].
  destruct (bool_decide _); [done | by intros [= <-]].
Qed.

Lemma norm_index_lt n e j : Np.norm_index n e = Ok j -> (j < n)%nat.
Proof.
  destruct e as [z|s]; simpl; [|done].
  destruct (bool_decide (- Z.of_nat n <= z < Z.of_nat n)) eqn:E; [|done].
  apply bool_decide_eq_true in E. intros [= <-].
  destruct (bool_decide (z < 0)) eqn:E'.
  - apply bool_decide_eq_true in E'. lia.
  - apply bool_decide_eq_false in E'. lia.
Qed.

(** The shape of a deletion is read off the shape alone. *)
Lemma delete_shape (a : ndarray) (obj : list elem) (axis n : nat) (js : list nat) :
  shape a !! axis = Some n -> rmap (Np.norm_index n) obj = Ok js ->
  exists a', Np.delete a obj axis = Ok a'
             /\ shape a' = <[axis := (n - size (list_to_set js : gset nat))%nat]> (shape a).
Proof.
  intros Hn Hjs. unfold Np.delete. rewrite Hn, Hjs. simpl.
  eexists. split; [done|]. simpl. f_equal. apply kept_count.
  intros j Hj. apply (rmap_Ok_elem _ _ _ _ Hjs) in Hj as (e & _ & He).
  by eapply norm_index_lt.
Qed.

Lemma delete_raise (a : ndarray) (obj : list elem) (axis n : nat) e :
  shape a !! axis = Some n -> rmap (Np.norm_index n) obj = Raise e ->
  Np.delete a obj axis = Raise IndexError.
Proof.
  intros Hn Hjs. unfold Np.delete. rewrite Hn, Hjs. simpl.
  apply rmap_Raise_elem in Hjs as (x & _ & Hx). by apply norm_index_error in Hx as ->.
Qed.

Section DeletionFacts.
Context {O : PySetOrder}.

Lemma rmtc_array (a : ndarray) mask l axis :
  ~ scalar_like a -> py_list mask = Ok l ->
  remove_masked_tensor_channels (ArgArray a) mask axis = ArgArray <$> Np.delete a l axis.
Proof.
  intros Hs Hl. unfold remove_masked_tensor_channels. rewrite Hl. simpl.
  assert (E : bool_decide (Np.ndim a = 0%nat) || bool_decide (Np.prod (shape a) = 1%nat) = false).
  { apply orb_false_iff. split; apply bool_decide_eq_false; intros ?; apply Hs;
      [by left | by right]. }
  rewrite E. by destruct (Np.delete a l axis).
Qed.

Lemma rmtc_shape (s : list nat) mask l axis :
  s <> [] -> Np.prod s <> 1%nat -> py_list mask = Ok l ->
  remove_masked_tensor_channels (ArgShape s) mask axis
  = (fun a' => ArgShape (shape a')) <$> Np.delete (Np.rand s) l axis.
Proof.
  intros Hne Hp Hl. unfold remove_masked_tensor_channels. rewrite Hl. simpl.
  destruct s as [|d s]; [done|]. simpl.
  rewrite (bool_decide_eq_false_2 (Np.prod (d :: s) = 1%nat)) by done. simpl.
  by destruct (Np.delete _ l axis).
Qed.

(** X15. Shape arithmetic. Removing the channel indices [S], all within
    the extent [n] of the axis, from a shape that is not a single
    element leaves the shape with [n - |S|] along that axis and
    unchanged elsewhere. *)
Theorem X15_shape_arithmetic (s : list nat) (axis n : nat) (S : gset Z) :
  s !! axis = Some n ->
  Np.prod s <> 1%nat ->
  (forall z, z ∈ S -> 0 <= z < Z.of_nat n) ->
  remove_masked_tensor_channels (ArgShape s) (MSet (plain S)) axis
  = Ok (ArgShape (<[axis := (n - size S)%nat]> s)).
Proof.
  intros Hn Hp HS.
  assert (Hne : s <> []) by (intros ->; done).
  rewrite (rmtc_shape s _ (set_iter (plain S))) by done.
  set (g := fun e => match e with EInt z => Z.to_nat z | EStr _ => 0%nat end).
  assert (Hjs : rmap (Np.norm_index n) (set_iter (plain S)) = Ok (g <$> set_iter (plain S))).
  { apply rmap_ok_map. intros e (z & -> & Hz)%elem_of_set_iter%elem_of_plain.
    specialize (HS z Hz). simpl.
    rewrite bool_decide_eq_true_2 by lia. by rewrite bool_decide_eq_false_2 by lia. }
  destruct (delete_shape (Np.rand s) _ axis n _ Hn Hjs) as (a' & -> & Hshape).
  simpl. rewrite Hshape. simpl.
  assert (Hset : (list_to_set (g <$> set_iter (plain S)) : gset nat) = set_map Z.to_nat S).
  { apply set_eq. intros j. rewrite elem_of_list_to_set, list_elem_of_fmap, elem_of_map. split.
    - intros (e & -> & (z & -> & Hz)%elem_of_set_iter%elem_of_plain). eauto.
    - intros (z & -> & Hz). exists (EInt z). split; [done|].
      by apply elem_of_set_iter, elem_of_plain_int. }
  rewrite Hset, size_set_map_inj_on; [done|].
  intros x y Hx Hy Hxy. pose proof (HS x Hx). pose proof (HS y Hy). lia.
Qed.

(** X16. The shape-only call agrees with the call on an array: for an
    array of rank at least 1, computing on its shape gives the shape of
    what the deletion on the array gives, and raises when it raises.
    For a rank-0 array the two differ: the array comes back as it is,
    the empty shape is refused. *)
Theorem X16_shape_only_agrees (a : ndarray) (mask : mask_val) (axis : nat) :
  (shape a <> [] ->
     remove_masked_tensor_channels (ArgShape (shape a)) mask axis
     = shape_of_result <$> remove_masked_tensor_channels (ArgArray a) mask axis)
  /\ (shape a = [] -> forall l, py_list mask = Ok l ->
        remove_masked_tensor_channels (ArgArray a) mask axis = Ok (ArgArray a)
        /\ remove_masked_tensor_channels (ArgShape (shape a)) mask axis
           = Raise (AssertionError "")).
Proof.
  split.
  - intros Hne. unfold remove_masked_tensor_channels.
    destruct (py_list mask) as [l|e]; [|done]. simpl.
    unfold Np.ndim, Np.delete.
    destruct (shape a) as [|d s] eqn:Es; [done|]. simpl.
    destruct (bool_decide ((d * Np.prod s)%nat = 1%nat)); simpl; [by rewrite Es|].
    destruct ((d :: s) !! axis) as [n|]; [|done].
    destruct (rmap (Np.norm_index n) l) as [js|e]; [|done]. done.
  - intros Hnil l Hl. split.
    + apply (rmtc_scalar _ _ _ l); [|done]. left. unfold Np.ndim. by rewrite Hnil.
    + unfold remove_masked_tensor_channels. rewrite Hl, Hnil. done.
Qed.

(** X17. The errors of a deletion on an array that is not a single
    element: an axis the array does not have is refused whatever the
    mask, even an empty one; along an axis of extent [n], any entry
    that is not an integer in [-n, n) is an index error; and when every
    entry is such an integer the call returns. *)
Theorem X17_deletion_errors (a : ndarray) (mask : mask_val) (l : list elem) (axis : nat) :
  ~ scalar_like a -> py_list mask = Ok l ->
  (shape a !! axis = None ->
     remove_masked_tensor_channels (ArgArray a) mask axis = Raise AxisError)
  /\ (forall n, shape a !! axis = Some n ->
        (exists e, e ∈ l /\ ~ valid_index n e) ->
        remove_masked_tensor_channels (ArgArray a) mask axis = Raise IndexError)
  /\ (forall n, shape a !! axis = Some n ->
        (forall e, e ∈ l -> valid_index n e) ->
        exists a', remove_masked_tensor_channels (ArgArray a) mask axis = Ok (ArgArray a')).
Proof.
  intros Hs Hl. rewrite (rmtc_array a mask l) by done. split; [|split].
  - intros Hn. unfold Np.delete. by rewrite Hn.
  - intros n Hn (e & He & Hbad).
    destruct (rmap (Np.norm_index n) l) as [js|err] eqn:E.
    + apply rmap_Ok_Forall2 in E.
      apply list_elem_of_lookup in He as [i Hi].
      destruct (Forall2_lookup_l _ _ _ _ _ E Hi) as (j & _ & Hj).
      exfalso. apply Hbad. apply norm_index_valid. eauto.
    + by rewrite (delete_raise _ _ _ _ _ Hn E).
  - intros n Hn Hall.
    destruct (rmap (Np.norm_index n) l) as [js|err] eqn:E.
    + destruct (delete_shape a l axis n js Hn E) as (a' & -> & _). eauto.
    + apply rmap_Raise_elem in E as (x & Hx & Hraise).
      apply Hall, norm_index_valid in Hx as [j Hj]. congruence.
Qed.

End DeletionFacts.

Lemma delete_indices (a : ndarray) (l : list elem) (axis n : nat) (S : gset Z) :
  shape a !! axis = Some n ->
  (forall e, e ∈ l <-> e ∈ plain S) ->
  (forall z, z ∈ S -> 0 <= z < Z.of_nat n) ->
  exists a', Np.delete a l axis = Ok a'
             /\ shape a' = <[axis := (n - size S)%nat]> (shape a).
Proof.
  intros Hn Hl HS.
  set (g := fun e => match e with EInt z => Z.to_nat z | EStr _ => 0%nat end).
  assert (Hjs : rmap (Np.norm_index n) l = Ok (g <$> l)).
  { apply rmap_ok_map. intros e (z & -> & Hz)%Hl%elem_of_plain.
    specialize (HS z Hz). simpl.
    rewrite bool_decide_eq_true_2 by lia. by rewrite bool_decide_eq_false_2 by lia. }
  destruct (delete_shape a l axis n _ Hn Hjs) as (a' & Ha' & Hshape).
  exists a'. split; [done|]. rewrite Hshape.
  assert (Hset : (list_to_set (g <$> l) : gset nat) = set_map Z.to_nat S).
  { apply set_eq. intros j. rewrite elem_of_list_to_set, list_elem_of_fmap, elem_of_map. split.
    - intros (e & -> & (z & -> & Hz)%Hl%elem_of_plain). eauto.
    - intros (z & -> & Hz). exists (EInt z). split; [done|].
      by apply Hl, elem_of_plain_int. }
  rewrite Hset, size_set_map_inj_on; [done|].
  intros x y Hx Hy Hxy. pose proof (HS x Hx). pose proof (HS y Hy). lia.
Qed.

Section DeletionMore.
Context {O : PySetOrder}.

(** Removal reads back the sides of a weight mask as Propagation wrote
    them. *)
Lemma decode_list_encoding p q (A B : gset Z) :
  PyStr.side_letter p -> p <> q ->
  exists l, decode_list p (MSet (encoding p A ∪ encoding q B)) = Ok l
            /\ forall e, e ∈ l <-> e ∈ plain A.
Proof.
  intros Hp Hne. unfold decode_list. simpl.
  set (W := encoding p A ∪ encoding q B).
  set (g := fun x => match decode_entry p x with Ok o => o | Raise _ => None end).
  rewrite (rmap_ok_map _ g).
  - simpl. eexists. split; [done|]. intros e.
    rewrite list_elem_of_omap, elem_of_plain. split.
    + intros (o & Ho & Hid). simpl in Hid. subst o.
      apply list_elem_of_fmap in Ho as (x & Hgx & Hx).
      apply elem_of_set_iter, elem_of_union in Hx as [Hx|Hx];
        apply elem_of_encoding in Hx as (z & -> & Hz); unfold g in Hgx.
      * rewrite decode_entry_encoded in Hgx by done. injection Hgx as ->. eauto.
      * by rewrite decode_entry_other in Hgx.
    + intros (z & -> & Hz). exists (Some (EInt z)). split; [|done].
      apply list_elem_of_fmap. exists (EStr (String p (PyStr.fmt_d z))). split.
      * unfold g. by rewrite decode_entry_encoded.
      * apply elem_of_set_iter, elem_of_union. left. apply elem_of_encoding. eauto.
  - intros x [Hx|Hx]%elem_of_set_iter%elem_of_union;
      apply elem_of_encoding in Hx as (z & -> & Hz); unfold g.
    + by rewrite decode_entry_encoded.
    + by rewrite decode_entry_other.
Qed.

(** X18. Weight deletion. A MatMul weight of shape (r, c), not a single
    element, whose mask encodes the input channels [A] and the output
    channels [B], all within range: Removal deletes the rows [A] and
    then the columns [B], so the result has shape (r - |A|, c - |B|);
    except that when the rows that remain make up a single element the
    column deletion is skipped and the result keeps its [c] columns. *)
Theorem X18_matmul_weight (io_t : ndarray) (r c : nat) (A B : gset Z) :
  shape io_t = [r; c] ->
  (r * c)%nat <> 1%nat ->
  (forall z, z ∈ A -> 0 <= z < Z.of_nat r) ->
  (forall z, z ∈ B -> 0 <= z < Z.of_nat c) ->
  exists new_t,
    remove_matmul io_t (MSet (encoding "i" A ∪ encoding "o" B)) = Ok new_t
    /\ shape new_t
       = [(r - size A)%nat;
          if bool_decide (((r - size A) * c)%nat = 1%nat) then c else (c - size B)%nat].
Proof.
  intros Hshape Hrc HA HB. unfold remove_matmul.
  destruct (decode_list_encoding "i" "o" A B PyStrFacts.side_i) as (li & -> & Hli); [done|].
  assert (Ho : exists lo, decode_list "o" (MSet (encoding "i" A ∪ encoding "o" B)) = Ok lo
                          /\ forall e, e ∈ lo <-> e ∈ plain B).
  { rewrite (union_comm_L (encoding "i" A)).
    by apply decode_list_encoding; [apply PyStrFacts.side_o|]. }
  destruct Ho as (lo & -> & Hlo). simpl.
  assert (Hns : ~ scalar_like io_t).
  { unfold scalar_like, Np.ndim. rewrite Hshape. simpl. lia. }
  rewrite (rmtc_array io_t _ li) by done.
  destruct (delete_indices io_t li 0 r A) as (t1 & -> & Hs1);
    [by rewrite Hshape | done | done |].
  rewrite Hshape in Hs1. simpl in Hs1. simpl.
  destruct (bool_decide (((r - size A) * c)%nat = 1%nat)) eqn:E.
  - apply bool_decide_eq_true in E.
    rewrite (rmtc_scalar t1 _ _ lo); [| right; rewrite Hs1; simpl; lia | done].
    simpl. eauto.
  - apply bool_decide_eq_false in E.
    rewrite (rmtc_array t1 _ lo);
      [| unfold scalar_like, Np.ndim; rewrite Hs1; simpl; lia | done].
    destruct (delete_indices t1 lo 1 c B) as (t2 & -> & Hs2);
      [by rewrite Hs1 | done | done |].
    rewrite Hs1 in Hs2. simpl. eauto.
Qed.

(** X19. Removal on a tensor without initializer whose mask holds the
    channel indices [S], all within the extent [n] of axis 1 of its
    recorded shape, the shape not being a single element: the recorded
    shape gets [n - |S|] along axis 1, the mask becomes the empty dict,
    the tensor counts as changed even when [S] is empty, and no
    initializer is created or touched. *)
Theorem X19_dynamic_tensor (k : nat) (node : NodeProto) (t : string) (s : list nat)
    (n : nat) (S : gset Z) (m : ModelWrapper) :
  graph_node m !! k = Some node ->
  get_initializer m t = None ->
  get_tensor_shape m t = Some s ->
  get_tensor_sparsity m t = MSet (plain S) ->
  s !! 1%nat = Some n -> Np.prod s <> 1%nat ->
  (forall z, z ∈ S -> 0 <= z < Z.of_nat n) ->
  remove_tensor k t m
  = (set_tensor_sparsity t (MDict [])
       (set_tensor_shape t (<[1%nat := (n - size S)%nat]> s) m), Ok true).
Proof.
  intros Hk Hinit Hshp Hmask Hn Hp HS.
  unfold remove_tensor, mbind, M_bind, gets, lift, modify, mret, M_ret.
  rewrite Hk. simpl. rewrite Hmask, Hinit, Hshp. simpl.
  rewrite (rmtc_shape s _ (set_iter (plain S))); [| by intros -> | done | done].
  destruct (delete_indices (Np.rand s) (set_iter (plain S)) 1 n S) as (a' & -> & Hs');
    [done | by intros e; apply elem_of_set_iter | done |].
  simpl. by rewrite Hs'.
Qed.

End DeletionMore.

(** * Monotonicity of a whole sweep *)

Lemma written_in_some l σ t :
  t ∈ l.*1 -> exists s, (t, s) ∈ l /\ written l σ !! t = Some (MSet s).
Proof.
  revert σ. induction l as [|[t' s'] r IH]; intros σ Ht.
  - by apply elem_of_nil in Ht.
  - change (exists s, (t, s) ∈ (t', s') :: r
                      /\ written r (<[t' := MSet s']> σ) !! t = Some (MSet s)).
    destruct (decide (t ∈ r.*1)) as [Hr|Hr].
    + destruct (IH (<[t' := MSet s']> σ) Hr) as (s & Hs & Hw).
      exists s. split; [by right | done].
    + rewrite fmap_cons, elem_of_cons in Ht. destruct Ht as [Ht|Ht]; [|done].
      simpl in Ht. subst t'. exists s'. split; [by left|].
      rewrite written_notin by done. by rewrite lookup_insert_eq.
Qed.

Lemma elem_of_zip_lookup {A B} (l : list A) (k : list B) a b :
  (a, b) ∈ zip l k -> exists i, l !! i = Some a /\ k !! i = Some b.
Proof.
  intros [i Hi]%list_elem_of_lookup. exists i.
  apply lookup_zip_with_Some in Hi as (x & y & [= -> ->] & Hx & Hy). done.
Qed.

Lemma masks_read_lookup m names l i t :
  masks_read m names = Ok l -> names !! i = Some t ->
  exists s, l !! i = Some s /\ ensure_masktype_is_set (get_tensor_sparsity m t) = Ok s.
Proof.
  unfold masks_read. intros H%rmap_Ok_Forall2 Hi.
  assert (Hi' : (get_tensor_sparsity m <$> names) !! i = Some (get_tensor_sparsity m t))
    by (by rewrite list_lookup_fmap, Hi).
  destruct (Forall2_lookup_l _ _ _ _ _ H Hi') as (s & Hs & He). eauto.
Qed.

Section SweepMonotone.
Context {O : PySetOrder}.

(** Position by position, a step only adds to the masks it was given,
    the weight operand of a dot-product node apart. *)
Lemma update_grows (node : NodeProto) (ins outs new_in new_out : list (gset elem)) :
  update_node_mask node (MSet <$> ins) (MSet <$> outs) = Ok (new_in, new_out) ->
  (forall k old new, outs !! k = Some old -> new_out !! k = Some new -> old ⊆ new)
  /\ (forall k old new, ins !! k = Some old -> new_in !! k = Some new ->
        (op_type node ∈ dotprod_ops -> k <> 1%nat) -> old ⊆ new).
Proof.
  intros Hupd.
  destruct (decide (op_type node ∈ dotprod_ops)) as [Hdot|Hdot].
  - destruct (update_dotprod_inv _ _ _ _ _ Hdot Hupd)
      as (I & Oset & Win & Wout & w & rest_in & rest_out & -> & -> & Hwi & Hwo & [Hd|Hd]).
    + rewrite (update_dense _ _ _ I Oset Win Wout w rest_in rest_out Hd
                 (rmap_ensure_sets _) (rmap_ensure_sets _) Hwi Hwo) in Hupd.
      injection Hupd as <- <-. split.
      * intros [|k] old new; simpl; [|by destruct k].
        intros [= <-] [= <-]. rewrite plain_union. set_solver.
      * intros [|[|k]] old new; simpl; try by destruct k.
        -- intros [= <-] [= <-] _. rewrite plain_union. set_solver.
        -- intros _ _ Hk. by destruct (Hk Hdot).
    + rewrite (update_depthwise _ _ _ I Oset Win Wout w rest_in rest_out Hd
                 (rmap_ensure_sets _) (rmap_ensure_sets _) Hwi Hwo) in Hupd.
      injection Hupd as <- <-. split.
      * intros [|k] old new; simpl; [|by destruct k].
        intros [= <-] [= <-]. rewrite !plain_union. set_solver.
      * intros [|[|k]] old new; simpl; try by destruct k.
        -- intros [= <-] [= <-] _. rewrite !plain_union. set_solver.
        -- intros _ _ Hk. by destruct (Hk Hdot).
  - assert (Hcases : (new_out = outs \/ new_out = (fun _ => ⋃ ins ∪ ⋃ outs) <$> outs)
                     /\ (new_in = ins \/ new_in = (fun _ => ⋃ ins ∪ ⋃ outs) <$> ins)).
    { destruct (decide (op_type node ∈ eltwise_ops_bidirectional)) as [Hb|Hb].
      - rewrite (update_bidirectional _ _ _ ins outs Hb
                   (rmap_ensure_sets _) (rmap_ensure_sets _)) in Hupd.
        injection Hupd as <- <-. auto.
      - destruct (decide (op_type node ∈ eltwise_ops_bwdonly)) as [Hw|Hw].
        + rewrite (update_bwdonly _ _ _ ins outs Hw
                     (rmap_ensure_sets _) (rmap_ensure_sets _)) in Hupd.
          injection Hupd as <- <-. auto.
        + rewrite (update_unknown _ _ _ ins outs Hb Hw Hdot
                     (rmap_ensure_sets _) (rmap_ensure_sets _)) in Hupd.
          injection Hupd as <- <-. auto. }
    destruct Hcases as [Ho Hi]. split.
    + intros k old new Hold Hnew. destruct Ho as [-> | ->]; [congruence|].
      rewrite list_lookup_fmap, Hold in Hnew. injection Hnew as <-.
      etrans; [apply elem_of_union_list_subseteq; by eapply list_elem_of_lookup_2|].
      set_solver.
    + intros k old new Hold Hnew _. destruct Hi as [-> | ->]; [congruence|].
      rewrite list_lookup_fmap, Hold in Hnew. injection Hnew as <-.
      etrans; [apply elem_of_union_list_subseteq; by eapply list_elem_of_lookup_2|].
      set_solver.
Qed.

Lemma propagate_node_grows node m m1 b t s :
  propagate_node node m = (m1, Ok b) ->
  ~ (op_type node ∈ dotprod_ops /\ input node !! 1%nat = Some t) ->
  ensure_masktype_is_set (get_tensor_sparsity m t) = Ok s ->
  exists s1, ensure_masktype_is_set (get_tensor_sparsity m1 t) = Ok s1 /\ s ⊆ s1.
Proof.
  intros [[_ [e ?]]|(ins & outs & new_in & new_out & Hin & Hout & Hupd & -> & _)]
    %propagate_node_cases Hw Hs; [done|].
  destruct (update_grows _ _ _ _ _ Hupd) as [Hgo Hgi].
  unfold get_tensor_sparsity at 1. simpl.
  destruct (decide (t ∈ (zip (output node) new_out).*1)) as [Hto|Hto].
  - destruct (written_in_some _ (written (zip (input node) new_in) (tensor_sparsity m)) _ Hto)
      as (s1 & Hts & ->).
    exists s1. split; [done|].
    apply elem_of_zip_lookup in Hts as (i & Hi & Hnew).
    destruct (masks_read_lookup _ _ _ _ _ Hout Hi) as (old & Hold & He).
    rewrite Hs in He. injection He as <-. by eapply Hgo.
  - rewrite written_notin by done.
    destruct (decide (t ∈ (zip (input node) new_in).*1)) as [Hti|Hti].
    + destruct (written_in_some _ (tensor_sparsity m) _ Hti) as (s1 & Hts & ->).
      exists s1. split; [done|].
      apply elem_of_zip_lookup in Hts as (i & Hi & Hnew).
      destruct (masks_read_lookup _ _ _ _ _ Hin Hi) as (old & Hold & He).
      rewrite Hs in He. injection He as <-. eapply Hgi; [done | done |].
      intros Hdot ->. by apply Hw.
    + rewrite written_notin by done. exists s. split; [exact Hs | done].
Qed.

Lemma sweep_grows (l : list NodeProto) flag m m' b t s :
  for_or l propagate_node flag m = (m', Ok b) ->
  (forall node, node ∈ l ->
     ~ (op_type node ∈ dotprod_ops /\ input node !! 1%nat = Some t)) ->
  ensure_masktype_is_set (get_tensor_sparsity m t) = Ok s ->
  exists s', ensure_masktype_is_set (get_tensor_sparsity m' t) = Ok s' /\ s ⊆ s'.
Proof.
  revert flag m s. induction l as [|node l IH]; intros flag m s H Hnodes Hs; simpl in H.
  - injection H as <- _. exists s. by split.
  - unfold mbind, M_bind in H.
    destruct (propagate_node node m) as [m1 [b1|e]] eqn:E; [|done].
    destruct (propagate_node_grows _ _ _ _ t s E) as (s1 & Hs1 & Hsub);
      [apply Hnodes; by left | done |].
    destruct (IH _ m1 s1 H) as (s' & Hs' & Hsub');
      [intros n Hn; apply Hnodes; by right | done |].
    exists s'. split; [done | set_solver].
Qed.

(** X20. Monotonicity of a sweep. When a propagation sweep returns,
    the mask of every tensor that is not the weight operand of a MatMul
    or Conv node contains the mask it had before the sweep. *)
Theorem X20_sweep_monotone (m m' : ModelWrapper) (b : bool) (t : string) (s : gset elem) :
  PropagateMasks_apply m = (m', Ok b) ->
  ~ weight_of m t ->
  ensure_masktype_is_set (get_tensor_sparsity m t) = Ok s ->
  exists s', ensure_masktype_is_set (get_tensor_sparsity m' t) = Ok s' /\ s ⊆ s'.
Proof.
  unfold PropagateMasks_apply, mbind, M_bind, gets. intros H Hw Hs.
  eapply sweep_grows; [exact H | | exact Hs].
  intros node Hn [Hop Hin]. apply Hw. by exists node.
Qed.

End SweepMonotone.

(** * The further properties on concrete graphs *)

Import ConcreteMore.

Lemma X1_witness :
  update_node_mask (O := canonical_order) (conv_node 1)
    (MSet <$> [ints [0; 2]; strs ["i0"; "i2"; "o1"]]) (MSet <$> [ints [1]])
  = Ok ([ints [0; 2]; strs ["i0"; "i2"; "o1"]], [ints [1]]).
Proof.
  apply (X1_step_idempotent (O := canonical_order) (conv_node 1)
           [ints [2]; strs ["o1"; "i0"]] [∅]).
  vm_compute; reflexivity.
Defined.

Lemma X2_witness :
  same_structure masked_conv (PropagateMasks_apply (O := canonical_order) masked_conv).1.
Proof.
  apply (X2_sweep_frame (O := canonical_order) masked_conv _
           (PropagateMasks_apply (O := canonical_order) masked_conv).2).
  vm_compute; reflexivity.
Defined.

Lemma X3_witness : mask_equiv EmptySets.relu_graph EmptySets.relu_swept.
Proof.
  apply (X3_no_change_is_fixpoint (O := canonical_order) EmptySets.relu_graph).
  vm_compute; reflexivity.
Defined.

Lemma X4_witness :
  PropagateMasks_apply (O := canonical_order) (one_node biased_conv [])
  <> ((PropagateMasks_apply (O := canonical_order) (one_node biased_conv [])).1, Ok false).
Proof.
  apply (X4_dotprod_arity (O := canonical_order) _ _ biased_conv).
  - by left.
  - by apply (bool_decide_unpack _).
  - left. simpl. lia.
Defined.

Lemma X5_witness :
  exists bad,
    propagate_node (O := canonical_order) relu_node (one_node relu_node [("x", MDict [])])
    = (one_node relu_node [("x", MDict [])], Raise (CannotTurnIntoSet bad)).
Proof.
  destruct (X5_step_refuses_non_sets (O := canonical_order) relu_node
              (one_node relu_node [("x", MDict [])]) "x" (CannotTurnIntoSet (MDict [])))
    as (bad & Hrun & _).
  - by apply (bool_decide_unpack _).
  - vm_compute; reflexivity.
  - by exists bad.
Defined.

Lemma X6_witness :
  exists m',
    propagate_node (O := canonical_order) reshape_node
      (one_node reshape_node [("x", MSet (ints [1]))]) = (m', Ok false).
Proof.
  destruct (X6_unknown_operator (O := canonical_order) reshape_node
              (one_node reshape_node [("x", MSet (ints [1]))]) [ints [1]] [∅])
    as (m' & Hrun & _).
  - by apply (bool_decide_unpack _).
  - by apply (bool_decide_unpack _).
  - by apply (bool_decide_unpack _).
  - vm_compute; reflexivity.
  - vm_compute; reflexivity.
  - by exists m'.
Defined.

Lemma X7_witness :
  propagate_node (O := canonical_order) groupless_conv (one_node groupless_conv [])
  = (one_node groupless_conv [], Raise AttributeError)
  /\ remove_tensor (O := canonical_order) 0 "w" (groupless_model {[ "w" := [8; 4; 1; 1]%nat ]})
     = (groupless_model {[ "w" := [8; 4; 1; 1]%nat ]}, Raise AttributeError)
  /\ remove_tensor (O := canonical_order) 0 "w" (groupless_model {[ "w" := [8]%nat ]})
     = (groupless_model {[ "w" := [8]%nat ]}, Raise IndexError)
  /\ remove_tensor (O := canonical_order) 0 "w" (groupless_model ∅)
     = (groupless_model ∅, Raise TypeError).
Proof.
  split; [|split; [|split]].
  - destruct (X7_conv_without_group (O := canonical_order) 0 groupless_conv
                (one_node groupless_conv []) [∅; ∅] [∅]) as [Hrun _].
    + reflexivity.
    + reflexivity.
    + vm_compute; reflexivity.
    + vm_compute; reflexivity.
    + exact Hrun.
  - destruct (X7_conv_without_group (O := canonical_order) 0 groupless_conv
                (groupless_model {[ "w" := [8; 4; 1; 1]%nat ]}) [∅; strs ["o1"]] [∅])
      as [_ Hrem].
    + reflexivity.
    + reflexivity.
    + vm_compute; reflexivity.
    + vm_compute; reflexivity.
    + apply (Hrem "w" (mk_ndarray [8; 4; 1; 1]%nat (Z.of_nat <$> seq 0 32)) [] [EInt 1]);
        vm_compute; reflexivity.
  - destruct (X7_conv_without_group (O := canonical_order) 0 groupless_conv
                (groupless_model {[ "w" := [8]%nat ]}) [∅; strs ["o1"]] [∅])
      as [_ Hrem].
    + reflexivity.
    + reflexivity.
    + vm_compute; reflexivity.
    + vm_compute; reflexivity.
    + apply (Hrem "w" (mk_ndarray [8; 4; 1; 1]%nat (Z.of_nat <$> seq 0 32)) [] [EInt 1]);
        vm_compute; reflexivity.
  - destruct (X7_conv_without_group (O := canonical_order) 0 groupless_conv
                (groupless_model ∅) [∅; strs ["o1"]] [∅])
      as [_ Hrem].
    + reflexivity.
    + reflexivity.
    + vm_compute; reflexivity.
    + vm_compute; reflexivity.
    + apply (Hrem "w" (mk_ndarray [8; 4; 1; 1]%nat (Z.of_nat <$> seq 0 32)) [] [EInt 1]);
        vm_compute; reflexivity.
Defined.

Lemma X8_witness :
  RemoveMaskedChannels_apply (O := canonical_order) relu_removed = (relu_removed, Ok false).
Proof.
  apply (X8_removal_idempotent (O := canonical_order) EmptySets.relu_swept relu_removed true).
  vm_compute; reflexivity.
Defined.

Lemma X10_witness : removal_step EmptySets.relu_swept relu_removed.
Proof.
  apply (X10_removal_frame (O := canonical_order) EmptySets.relu_swept relu_removed (Ok true)).
  vm_compute; reflexivity.
Defined.

Lemma X11_witness :
  exists m'' e, PropagateMasks_apply (O := canonical_order) relu_removed = (m'', Raise e).
Proof.
  apply (X11_propagation_after_removal (O := canonical_order) EmptySets.relu_swept relu_removed).
  vm_compute; reflexivity.
Defined.

Lemma X12_witness :
  same_structure (conv_model 1 4 4 [])
    (ApplyMasks_apply (O := canonical_order)
       [("x", MSet (ints [1])); ("conv_w", MSet (ints [1; 2]))] (conv_model 1 4 4 [])).1.
Proof.
  apply (X12_seeding_outcome (O := canonical_order)
           [("x", MSet (ints [1])); ("conv_w", MSet (ints [1; 2]))] (conv_model 1 4 4 []) _
           (Raise (AssertionError "Weight masks must be strings"))).
  vm_compute; reflexivity.
Defined.

Lemma X13_witness :
  get_tensor_sparsity
    (ApplyMasks_apply (O := canonical_order)
       [("x", MSet (ints [1])); ("conv_w", MSet (strs ["o0"]))] (conv_model 1 4 4 [])).1
    "conv_w"
  = MSet (strs ["o0"]).
Proof.
  apply (X13_seeding_lookup (O := canonical_order)
           [("x", MSet (ints [1])); ("conv_w", MSet (strs ["o0"]))] (conv_model 1 4 4 []) _ false).
  - by apply (bool_decide_unpack _).
  - vm_compute; reflexivity.
  - right. left.
Defined.

Lemma X15_witness :
  remove_masked_tensor_channels (O := canonical_order)
    (ArgShape [2; 8; 3; 3]%nat) (MSet (plain {[1; 3]})) 1
  = Ok (ArgShape [2; 6; 3; 3]%nat).
Proof.
  rewrite (X15_shape_arithmetic (O := canonical_order) [2; 8; 3; 3]%nat 1 8 {[1; 3]}).
  - vm_compute; reflexivity.
  - reflexivity.
  - vm_compute; lia.
  - intros z [->%elem_of_singleton | ->%elem_of_singleton]%elem_of_union; lia.
Defined.

Lemma X17_witness :
  remove_masked_tensor_channels (O := canonical_order)
    (ArgArray (matrix 3 2)) (MList [EInt 0; EInt 2]) 1
  = Raise IndexError.
Proof.
  destruct (X17_deletion_errors (O := canonical_order) (matrix 3 2)
              (MList [EInt 0; EInt 2]) [EInt 0; EInt 2] 1) as (_ & Hidx & _).
  - intros [H|H]; vm_compute in H; lia.
  - reflexivity.
  - apply (Hidx 2%nat); [reflexivity|].
    exists (EInt 2). split; [right; left | simpl; lia].
Defined.

Lemma X18_witness :
  exists new_t,
    remove_matmul (O := canonical_order) (matrix 8 4)
      (MSet (encoding "i" {[2]} ∪ encoding "o" {[1]})) = Ok new_t
    /\ shape new_t = [7; 3]%nat.
Proof.
  destruct (X18_matmul_weight (O := canonical_order) (matrix 8 4) 8 4 {[2]} {[1]})
    as (new_t & Hrun & Hshape).
  - reflexivity.
  - lia.
  - intros z ->%elem_of_singleton. lia.
  - intros z ->%elem_of_singleton. lia.
  - exists new_t. split; [exact Hrun|]. rewrite Hshape. vm_compute. reflexivity.
Defined.

Lemma X19_witness :
  remove_tensor (O := canonical_order) 0 "x" masked_conv
  = (set_tensor_sparsity "x" (MDict [])
       (set_tensor_shape "x" [1; 3; 2; 2]%nat masked_conv), Ok true).
Proof.
  rewrite (X19_dynamic_tensor (O := canonical_order) 0 (conv_node 1) "x"
             [1; 4; 2; 2]%nat 4 {[2]} masked_conv).
  - vm_compute; reflexivity.
  - reflexivity.
  - vm_compute; reflexivity.
  - vm_compute; reflexivity.
  - vm_compute; reflexivity.
  - reflexivity.
  - vm_compute; lia.
  - intros z ->%elem_of_singleton. lia.
Defined.

Lemma X20_witness :
  exists s',
    ensure_masktype_is_set
      (get_tensor_sparsity (PropagateMasks_apply (O := canonical_order) masked_conv).1 "x")
    = Ok s'
    /\ ints [2] ⊆ s'.
Proof.
  apply (X20_sweep_monotone (O := canonical_order) masked_conv _ true "x" (ints [2])).
  - vm_compute; reflexivity.
  - intros (node & Hnode & _ & Hin).
    apply list_elem_of_singleton in Hnode as ->. discriminate Hin.
  - vm_compute; reflexivity.
Defined.
